(** * A shallow embedding of the two-pass assembler (Assembler-in-C)

    The development follows the source files of the repository:
    [setting.h], [error_tool.h], [text_tool.c], [label_list.c],
    [macro_list.c], [file_tool.c], [pre_assembly.c], [first_pass.c],
    [second_pass.c] and [main.c].  Every C function that matters for the
    properties proved at the end is rendered as a Rocq function of the
    same name.

    Conventions.
    - C [int] values are integers of [Z]; [unsigned int] values are kept
      in the range 0 .. 2^32-1, with the wrap-around written out where a
      conversion or a shift can leave the range.  Where an [int] is read
      from the text of the input ([atoi]) or added to an address of the
      label table ([update_address_of_data]), a result that an [int]
      cannot hold is undefined behaviour; the counters, which grow by
      one, are not limited.
    - A C string is a [string]; reading [text[i]] at or after the end of
      the Rocq string yields the terminating NUL (see [char_at]).
    - The enumeration [bool] of [setting.h] has [TRUE = 0] and
      [FALSE = 1]; the code only ever compares such values with
      [== TRUE] and [== FALSE], so [TRUE] is rendered as [true] and
      [FALSE] as [false].
    - Behaviour that C leaves undefined (a write after the end of a
      fixed-size buffer, a read of an uninitialised byte) makes the
      model stop with [None]. *)

From Stdlib Require Import ZArith List Bool Ascii String Lia.
From Stdlib Require Import Relation_Definitions RelationClasses.
Import ListNotations.

Local Open Scope Z_scope.

(* ================================================================= *)
(** ** Characters and C strings *)

Definition NUL : ascii := Ascii.zero.
Definition LF : ascii := "010"%char.
Definition TAB : ascii := "009"%char.
Definition SPACE : ascii := " "%char.
Definition COMMA : ascii := ","%char.
Definition QUOTE : ascii := "034"%char.

Definition char_eqb (a b : ascii) : bool := Ascii.eqb a b.

(** [text[i]]: the byte at index [i], the terminating NUL from the end
    of the string on. *)
Definition char_at (text : string) (i : nat) : ascii :=
  match String.get i text with
  | Some c => c
  | None => NUL
  end.

(** [text + i]: the part of the buffer from index [i] on. *)
Fixpoint string_from (i : nat) (text : string) : string :=
  match i, text with
  | O, _ => text
  | S j, String _ rest => string_from j rest
  | S _, EmptyString => EmptyString
  end.

(** The C string held by a buffer: everything before the first NUL. *)
Fixpoint c_str (buffer : string) : string :=
  match buffer with
  | EmptyString => EmptyString
  | String c rest => if char_eqb c NUL then EmptyString else String c (c_str rest)
  end.

Definition char_code (c : ascii) : Z := Z.of_nat (nat_of_ascii c).

(** <ctype.h> in the "C" locale. *)
Definition isdigit (c : ascii) : bool :=
  (48 <=? char_code c) && (char_code c <=? 57).

Definition isupper (c : ascii) : bool :=
  (65 <=? char_code c) && (char_code c <=? 90).

Definition islower (c : ascii) : bool :=
  (97 <=? char_code c) && (char_code c <=? 122).

Definition isalpha (c : ascii) : bool := isupper c || islower c.

Definition isspace (c : ascii) : bool :=
  char_eqb c SPACE || ((9 <=? char_code c) && (char_code c <=? 13)).

(** [strcmp(a, b) == 0]. *)
Definition str_eq (a b : string) : bool := String.eqb a b.

(** <limits.h>, for the 32-bit [int] of the targets. *)
Definition INT_MAX : Z := 2 ^ 31 - 1.

Definition INT_MIN : Z := - 2 ^ 31.

Definition int_range (n : Z) : bool := (INT_MIN <=? n) && (n <=? INT_MAX).

(** <stdlib.h> [atoi]: optional white space, an optional sign, then
    decimal digits; conversion stops at the first other character.
    [atoi_value] is the number that the digits denote; when an [int]
    cannot hold it the behaviour of the C function is undefined. *)
Fixpoint atoi_digits (rest : string) (acc : Z) : Z :=
  match rest with
  | String c r =>
      if isdigit c then atoi_digits r (10 * acc + (char_code c - 48)) else acc
  | EmptyString => acc
  end.

Fixpoint atoi_skip_space (rest : string) : string :=
  match rest with
  | String c r => if isspace c then atoi_skip_space r else rest
  | EmptyString => EmptyString
  end.

Definition atoi_value (text : string) : Z :=
  match atoi_skip_space text with
  | String c r =>
      if char_eqb c "-"%char then - atoi_digits r 0
      else if char_eqb c "+"%char then atoi_digits r 0
      else atoi_digits (String c r) 0
  | EmptyString => 0
  end.

Definition atoi (text : string) : option Z :=
  let n := atoi_value text in
  if int_range n then Some n else None.

(** [sprintf(buffer, "%d", n)] for the non-negative values the assembler
    prints (counters and addresses). *)
Fixpoint decimal_digits (fuel : nat) (n : Z) (acc : string) : string :=
  match fuel with
  | O => acc
  | S f =>
      let acc' := String (ascii_of_nat (Z.to_nat (48 + n mod 10))) acc in
      if n / 10 =? 0 then acc' else decimal_digits f (n / 10) acc'
  end.

Definition print_int (n : Z) : string :=
  if n <? 0 then String "-"%char (decimal_digits (Z.to_nat (- n)) (- n) EmptyString)
  else decimal_digits (S (Z.to_nat n)) n EmptyString.

(* ================================================================= *)
(** ** setting.h *)

Definition FIRST_CELL_IN_MEMORY : Z := 100.
Definition MAX_ARRAY_SIZE : Z := 924.
Definition MAX_ASSEMBLY_LINE_LENGTH : nat := 82.
Definition MAX_NAME_LABEL_LENGTH : nat := 32.
Definition MAX_CHARACTERS_ASSEMBLY_FILE : Z := 8000.
Definition MAX_DIGITS_FOR_ADDRESS : nat := 4.
Definition BASE_POW : Z := 2.

(** Conversion of an [int] to [unsigned int]. *)
Definition to_unsigned (n : Z) : Z := n mod 2 ^ 32.

(* ================================================================= *)
(** ** error_tool.h *)

Inductive error_code : Type :=
  | NO_ERROR
  | LABEL_ALREADY_EXISTS
  | MACRO_ALREADY_EXISTS
  | COMMA_REQUIRED_BETWEEN_VALUES
  | DATA_NEED_NUM_VALUE
  | CANT_DEFINE_LABEL_BEFORE_ENTRY
  | CANT_DEFINE_LABEL_BEFORE_EXTERN
  | STRING_STRUCTURE_NOT_VALID
  | STRING_MUST_END_IN_QUOTES
  | STRING_DIRECTIVE_ACCEPTS_ONE_PARAMETER
  | TOO_MUCH_WORDS_FOR_INSTRUCTION
  | CANT_FIND_LABEL_TO_ENTRY
  | INVALID_LABEL_NAME
  | INSTRUCTION_NAME_NOT_EXIST
  | INSTRUCTION_SHOULD_RECEIVE_TWO_OPERANDS
  | COMMA_REQUIRED_BETWEEN_OPERANDS
  | INSTRUCTION_SHOULD_RECEIVE_ONE_OPERAND
  | INSTRUCTION_SHOULD_NOT_RECEIVE_OPERANDS
  | INVALID_ADDRESS_METHOD_FOR_INSTRUCTION
  | MUST_PROVIDE_LABELS_TO_EXTERN
  | MUST_PROVIDE_LABELS_TO_ENTRY
  | MUST_PROVIDE_VALUES_TO_DATA
  | INVALID_COMMA_POSITION
  | LABEL_NOT_FOUND
  | NESTED_MACRO_DEFINITION
  | MACRO_NAME_IS_INSTRUCTION_OR_DIRECTIVE.

Definition error_code_eq_dec (a b : error_code) : {a = b} + {a <> b}.
Proof. decide equality. Defined.

(** What [print_error] writes: the diagnostic kind and the line number. *)
Definition diagnostic : Type := (error_code * Z)%type.

(* ================================================================= *)
(** ** text_tool.h: enumerations and the tokenized line *)

Inductive count_word_in_line : Type :=
  | ZERO | ONE | TWO | TREE | FOUR | FIVE | TOO_MUCH.

Inductive instruction_type : Type :=
  | MOV | CMP | ADD | SUB | NOT | CLR | LEA | INC | DEC | JMP | BNE
  | RED | PRN | JSR | RTS | STOP | NOT_INSTRUCTION.

Inductive line_status : Type :=
  | STATUS_DATA | STATUS_STRING | STATUS_CODE | STATUS_EXTERN | STATUS_ENTRY.

Inductive addressing_method : Type :=
  | NOT_EXIST | IMMEDIATE | DIRECT | REGISTER.

Inductive encoding_type : Type :=
  | ABSOLUTE | EXTERNAL | RELOCATABLE.

(** The integer values of the enumerators. *)
Definition instruction_type_value (t : instruction_type) : Z :=
  match t with
  | MOV => 0 | CMP => 1 | ADD => 2 | SUB => 3 | NOT => 4 | CLR => 5
  | LEA => 6 | INC => 7 | DEC => 8 | JMP => 9 | BNE => 10 | RED => 11
  | PRN => 12 | JSR => 13 | RTS => 14 | STOP => 15 | NOT_INSTRUCTION => 16
  end.

Definition addressing_method_value (m : addressing_method) : Z :=
  match m with
  | NOT_EXIST => 0 | IMMEDIATE => 1 | DIRECT => 3 | REGISTER => 5
  end.

Definition encoding_type_value (e : encoding_type) : Z :=
  match e with
  | ABSOLUTE => 0 | EXTERNAL => 1 | RELOCATABLE => 2
  end.

Definition count_eqb (a b : count_word_in_line) : bool :=
  match a, b with
  | ZERO, ZERO | ONE, ONE | TWO, TWO | TREE, TREE | FOUR, FOUR
  | FIVE, FIVE | TOO_MUCH, TOO_MUCH => true
  | _, _ => false
  end.

(** [(count)--] on the enumeration.  The callers decrement the count of
    a line whose first word is a label, which is never [ZERO]. *)
Definition count_decrement (c : count_word_in_line) : count_word_in_line :=
  match c with
  | ZERO => ZERO
  | ONE => ZERO
  | TWO => ONE
  | TREE => TWO
  | FOUR => TREE
  | FIVE => FOUR
  | TOO_MUCH => FIVE
  end.

Definition addressing_method_eqb (a b : addressing_method) : bool :=
  match a, b with
  | NOT_EXIST, NOT_EXIST | IMMEDIATE, IMMEDIATE | DIRECT, DIRECT
  | REGISTER, REGISTER => true
  | _, _ => false
  end.

Record item_line : Type := mk_line {
  word1 : string;
  word2 : string;
  word3 : string;
  word4 : string;
  word5 : string;
  source : addressing_method;
  destination : addressing_method;
  count : count_word_in_line
}.

Definition DOT_DATA : string := ".data".
Definition DOT_STRING : string := ".string".
Definition DOT_ENTRY : string := ".entry".
Definition DOT_EXTERN : string := ".extern".

(* ================================================================= *)
(** ** text_tool.c *)

Definition is_blank (c : ascii) : bool := char_eqb c SPACE || char_eqb c TAB.

Definition is_line_end (c : ascii) : bool := char_eqb c LF || char_eqb c NUL.

(** [skip_white_character]: the loop advances [curr_position] while
    [text[curr_position]] is a space or a tab; [rest] is the buffer from
    [curr_position] on. *)
Fixpoint skip_white_loop (rest : string) (curr_position : nat) : nat :=
  match rest with
  | String c r =>
      if is_blank c then skip_white_loop r (S curr_position) else curr_position
  | EmptyString => curr_position
  end.

Definition skip_white_character (curr_position : nat) (text : string) : nat :=
  skip_white_loop (string_from curr_position text) curr_position.

(** The second loop of [skip_one_word_in_line] stops at a space, a tab
    or the NUL; a newline is part of the word. *)
Fixpoint skip_word_loop (rest : string) (curr_position : nat) : nat :=
  match rest with
  | String c r =>
      if is_blank c || char_eqb c NUL then curr_position
      else skip_word_loop r (S curr_position)
  | EmptyString => curr_position
  end.

Definition skip_one_word_in_line (curr_position : nat) (line_text : string) : nat :=
  let curr_position := skip_white_character curr_position line_text in
  skip_word_loop (string_from curr_position line_text) curr_position.

Fixpoint is_end_line_loop (rest : string) : bool :=
  match rest with
  | String c r =>
      if is_line_end c then true
      else if is_blank c then is_end_line_loop r
      else false
  | EmptyString => true
  end.

Definition is_end_line (curr_position : nat) (line_text : string) : bool :=
  is_end_line_loop (string_from curr_position line_text).

(** [fix_comma_in_line]: every comma becomes space, comma, space; the
    copy stops at the newline or the NUL and a newline is appended. *)
Fixpoint fix_comma_loop (rest : string) : string :=
  match rest with
  | String c r =>
      if is_line_end c then String LF EmptyString
      else if char_eqb c COMMA then
        String SPACE (String COMMA (String SPACE (fix_comma_loop r)))
      else String c (fix_comma_loop r)
  | EmptyString => String LF EmptyString
  end.

(** The result lives in a static buffer of [MAX_ASSEMBLY_LINE_LENGTH]
    bytes: a longer result (with its NUL) is a write after the end of
    the buffer. *)
Definition fix_comma_in_line (line : string) : option string :=
  let temp_line := fix_comma_loop line in
  if (String.length temp_line + 1 <=? MAX_ASSEMBLY_LINE_LENGTH)%nat
  then Some temp_line else None.

Definition initialize_variables : item_line :=
  mk_line "" "" "" "" "" NOT_EXIST NOT_EXIST ZERO.

Definition set_word1 (w : string) (l : item_line) : item_line :=
  mk_line w (word2 l) (word3 l) (word4 l) (word5 l) (source l) (destination l) (count l).
Definition set_word2 (w : string) (l : item_line) : item_line :=
  mk_line (word1 l) w (word3 l) (word4 l) (word5 l) (source l) (destination l) (count l).
Definition set_word3 (w : string) (l : item_line) : item_line :=
  mk_line (word1 l) (word2 l) w (word4 l) (word5 l) (source l) (destination l) (count l).
Definition set_word4 (w : string) (l : item_line) : item_line :=
  mk_line (word1 l) (word2 l) (word3 l) w (word5 l) (source l) (destination l) (count l).
Definition set_word5 (w : string) (l : item_line) : item_line :=
  mk_line (word1 l) (word2 l) (word3 l) (word4 l) w (source l) (destination l) (count l).
Definition set_source (m : addressing_method) (l : item_line) : item_line :=
  mk_line (word1 l) (word2 l) (word3 l) (word4 l) (word5 l) m (destination l) (count l).
Definition set_destination (m : addressing_method) (l : item_line) : item_line :=
  mk_line (word1 l) (word2 l) (word3 l) (word4 l) (word5 l) (source l) m (count l).
Definition set_count (c : count_word_in_line) (l : item_line) : item_line :=
  mk_line (word1 l) (word2 l) (word3 l) (word4 l) (word5 l) (source l) (destination l) c.

(** The first loop of the macro [GET_WORD]: copy the characters of
    [temp_line] from index [i] up to a space, tab, newline or NUL. *)
Fixpoint get_word_loop (rest : string) (i : nat) : string * nat :=
  match rest with
  | String c r =>
      if is_blank c || is_line_end c then (EmptyString, i)
      else let (w, i') := get_word_loop r (S i) in (String c w, i')
  | EmptyString => (EmptyString, i)
  end.

(** [GET_WORD]: the word read, the index after the white space that
    follows it, and whether the line ends there (the macro then sets
    [count] and returns). *)
Definition GET_WORD (temp_line : string) (i : nat) : string * nat * bool :=
  let (temp_word, i) := get_word_loop (string_from i temp_line) i in
  let i := skip_white_character i temp_line in
  (temp_word, i, is_line_end (char_at temp_line i)).

(** [create_new_line_struct].  The fields [source] and [destination] of
    the freshly allocated struct are not initialised by the C code when
    the line has at most five words; they are written by
    [update_addressing_method_type] before any read, and the model
    starts them at [NOT_EXIST]. *)
Definition create_new_line_struct (text_line : string) : option item_line :=
  match fix_comma_in_line text_line with
  | None => None
  | Some temp_line =>
      let new_line := initialize_variables in
      let i := skip_white_character 0 text_line in
      if char_eqb (char_at temp_line i) LF then Some (set_count ZERO new_line)
      else
        let '(w, i, stop) := GET_WORD temp_line i in
        let new_line := set_word1 w new_line in
        if stop then Some (set_count ONE new_line) else
        let '(w, i, stop) := GET_WORD temp_line i in
        let new_line := set_word2 w new_line in
        if stop then Some (set_count TWO new_line) else
        let '(w, i, stop) := GET_WORD temp_line i in
        let new_line := set_word3 w new_line in
        if stop then Some (set_count TREE new_line) else
        let '(w, i, stop) := GET_WORD temp_line i in
        let new_line := set_word4 w new_line in
        if stop then Some (set_count FOUR new_line) else
        let '(w, i, stop) := GET_WORD temp_line i in
        let new_line := set_word5 w new_line in
        if stop then Some (set_count FIVE new_line) else
        Some (set_count TOO_MUCH (set_destination NOT_EXIST (set_source NOT_EXIST new_line)))
  end.

Definition delete_label_from_line_struct (line_struct : item_line) : item_line :=
  let l := set_word1 (word2 line_struct) line_struct in
  let l := set_word2 (word3 l) l in
  let l := set_word3 (word4 l) l in
  let l := set_word4 (word5 l) l in
  let l := set_word5 "" l in
  if negb (count_eqb (count l) TOO_MUCH) then set_count (count_decrement (count l)) l
  else l.

(** The first [n] characters of [s]. *)
Fixpoint string_take (n : nat) (s : string) : string :=
  match n, s with
  | S m, String c r => String c (string_take m r)
  | _, _ => EmptyString
  end.

(** The loop of [is_label]: [rest] is the buffer from index [i + 1] on;
    the result is the index of the last character. *)
Fixpoint last_char_loop (rest : string) (i : nat) : nat :=
  match rest with
  | String c r => if char_eqb c NUL then i else last_char_loop r (S i)
  | EmptyString => i
  end.

(** [is_label] copies [word1] into a local buffer and reads it from
    index 1 on: for an empty [word1] that byte was never written. *)
Definition is_label (line_struct : item_line) : option (bool * item_line) :=
  match word1 line_struct with
  | EmptyString => None
  | String _ tail =>
      let i := last_char_loop tail 0 in
      if char_eqb (char_at (word1 line_struct) i) ":"%char
      then Some (true, set_word1 (string_take i (word1 line_struct)) line_struct)
      else Some (false, line_struct)
  end.

Fixpoint is_number_loop (rest : string) : bool :=
  match rest with
  | String c r =>
      if is_line_end c then true
      else if negb (isdigit c) then false
      else is_number_loop r
  | EmptyString => true
  end.

Definition is_number (text : string) : bool :=
  let i :=
    if char_eqb (char_at text 0) "+"%char || char_eqb (char_at text 0) "-"%char
    then 1%nat else 0%nat in
  is_number_loop (string_from i text).

Fixpoint is_line_empty_loop (rest : string) : bool :=
  match rest with
  | String c r =>
      if is_line_end c then true
      else if negb (is_blank c) then false
      else is_line_empty_loop r
  | EmptyString => true
  end.

Definition is_line_empty (line_text : string) : bool :=
  let i := skip_white_character 0 line_text in
  if char_eqb (char_at line_text i) ";"%char then true
  else is_line_empty_loop (string_from i line_text).

Definition is_register (text : string) : bool :=
  str_eq text "@r1" || str_eq text "@r2" || str_eq text "@r3" ||
  str_eq text "@r4" || str_eq text "@r5" || str_eq text "@r6" ||
  str_eq text "@r7" || str_eq text "@r0".

Definition is_name_a_reserved_word (name : string) : bool :=
  if str_eq name ".data" then true else
  if str_eq name ".string" then true else
  if str_eq name ".entry" then true else
  if str_eq name ".extern" then true else
  if str_eq name "@r0" then true else
  if str_eq name "@r2" then true else
  if str_eq name "@r3" then true else
  if str_eq name "@r4" then true else
  if str_eq name "@r5" then true else
  if str_eq name "@r6" then true else
  if str_eq name "@r7" then true else
  if str_eq name "mov" then true else
  if str_eq name "cmp" then true else
  if str_eq name "add" then true else
  if str_eq name "sub" then true else
  if str_eq name "not" then true else
  if str_eq name "clr" then true else
  if str_eq name "lea" then true else
  if str_eq name "inc" then true else
  if str_eq name "dec" then true else
  if str_eq name "jmp" then true else
  if str_eq name "bne" then true else
  if str_eq name "red" then true else
  if str_eq name "prn" then true else
  if str_eq name "jsr" then true else
  if str_eq name "rts" then true else
  if str_eq name "stop" then true else
  false.

(** The loop of [is_label_name_valid]: it runs while the character is
    neither newline nor NUL and [count_chars <= MAX_NAME_LABEL_LENGTH];
    [None] is the early [return FALSE], [Some count_chars] the value of
    the counter when the loop is left. *)
Fixpoint label_name_loop (rest : string) (count_chars : nat) : option nat :=
  match rest with
  | String c r =>
      if negb (is_line_end c) && (count_chars <=? MAX_NAME_LABEL_LENGTH)%nat then
        if negb (isalpha c) && negb (isdigit c) then None
        else label_name_loop r (S count_chars)
      else Some count_chars
  | EmptyString => Some count_chars
  end.

Definition is_label_name_valid (name_label : string) : bool :=
  if is_name_a_reserved_word name_label then false
  else if negb (isalpha (char_at name_label 0)) then false
  else
    match label_name_loop name_label 0 with
    | None => false
    | Some count_chars =>
        if (count_chars =? MAX_NAME_LABEL_LENGTH)%nat then false else true
    end.

Definition get_instruction_type (word : string) : instruction_type :=
  if str_eq word "mov" then MOV else
  if str_eq word "cmp" then CMP else
  if str_eq word "add" then ADD else
  if str_eq word "sub" then SUB else
  if str_eq word "not" then NOT else
  if str_eq word "clr" then CLR else
  if str_eq word "lea" then LEA else
  if str_eq word "inc" then INC else
  if str_eq word "dec" then DEC else
  if str_eq word "jmp" then JMP else
  if str_eq word "bne" then BNE else
  if str_eq word "red" then RED else
  if str_eq word "prn" then PRN else
  if str_eq word "jsr" then JSR else
  if str_eq word "rts" then RTS else
  if str_eq word "stop" then STOP else
  NOT_INSTRUCTION.

Definition get_addressing_method_type (word : string) : addressing_method :=
  if char_eqb (char_at word 0) NUL then NOT_EXIST
  else if is_number word then IMMEDIATE
  else if is_register word then REGISTER
  else DIRECT.

Definition get_number_of_register (register_name : string) : Z :=
  char_code (char_at register_name 2) - char_code "0"%char.

Definition base64_table : string :=
  "ABCDEFGHIJKLMNOPQRSTUVWXYZabcdefghijklmnopqrstuvwxyz0123456789+/".

(** [pow_math]: binary exponentiation of [BASE_POW]; one iteration per
    bit of [exp], so [fuel] iterations suffice for [exp < 2 ^ fuel].
    The arithmetic is that of [int] without overflow, which is the case
    at the two call sites ([exp = 6]). *)
Fixpoint pow_math_loop (fuel : nat) (exp base result : Z) : Z :=
  match fuel with
  | O => result
  | S f =>
      if exp =? 0 then result
      else
        let result := if Z.land exp 1 =? 0 then result else result * base in
        pow_math_loop f (Z.shiftr exp 1) (base * base) result
  end.

Definition pow_math (exp : Z) : Z :=
  if exp <? 0 then -1
  else pow_math_loop (S (Z.to_nat (Z.log2 exp))) exp BASE_POW 1.

(** [get_specific_bits] on an [unsigned int] word. *)
Definition get_specific_bits (word : Z) (start end_ : Z) : Z :=
  let length := end_ - start + 1 in
  let mask := to_unsigned (pow_math length - 1) in
  let mask := to_unsigned (Z.shiftl mask start) in
  let result := Z.land word mask in
  Z.shiftr result start.

(** [convert_binary_to_64base]: two table characters and a newline. *)
Definition convert_binary_to_64base (word : Z) : string :=
  String (char_at base64_table (Z.to_nat (get_specific_bits word 6 11)))
    (String (char_at base64_table (Z.to_nat (get_specific_bits word 0 5)))
       (String LF EmptyString)).

(* ================================================================= *)
(** ** label_list.h, label_list.c *)

Inductive type_of_label : Type := DATA | CODE | EXTERN | ENTRY.

Definition type_of_label_eqb (a b : type_of_label) : bool :=
  match a, b with
  | DATA, DATA | CODE, CODE | EXTERN, EXTERN | ENTRY, ENTRY => true
  | _, _ => false
  end.

(** A node of the label list; the list itself is a [list item_label] in
    the order of the [next] pointers. *)
Record item_label : Type := mk_label {
  name_label : string;
  address_label : Z;
  type : type_of_label
}.

(** [create_node_label] copies [name] with [strcpy] into the field
    [name_label] of [MAX_NAME_LABEL_LENGTH] bytes: a name that does not
    fit with its NUL is a write after the end of the field. *)
Definition create_node_label (name : string) (address : Z) (type : type_of_label)
  : option item_label :=
  if (String.length name <? MAX_NAME_LABEL_LENGTH)%nat
  then Some (mk_label name address type) else None.

(** The traversal of [add_to_list_label]: [temp_node] is the current
    node and [rest] the nodes after it.  The loop moves on while there is
    a next node and the name differs. *)
Fixpoint add_to_list_label_loop (temp_node : item_label) (rest : list item_label)
    (name : string) (new_node : item_label) : error_code * list item_label :=
  match rest with
  | next :: rest' =>
      if negb (str_eq (name_label temp_node) name) then
        let (code, tail) := add_to_list_label_loop next rest' name new_node in
        (code, temp_node :: tail)
      else (LABEL_ALREADY_EXISTS, temp_node :: rest)
  | [] =>
      if str_eq (name_label temp_node) name
      then (LABEL_ALREADY_EXISTS, [temp_node])
      else (NO_ERROR, [temp_node; new_node])
  end.

Definition add_to_list_label (head : list item_label) (name : string) (address : Z)
    (type : type_of_label) : option (error_code * list item_label) :=
  match create_node_label name address type with
  | None => None
  | Some new_node =>
      match head with
      | [] => Some (NO_ERROR, [new_node])
      | temp_node :: rest => Some (add_to_list_label_loop temp_node rest name new_node)
      end
  end.

(** [temp_head->address_label += ic] is an addition of [int]: when an
    [int] cannot hold the sum the behaviour is undefined. *)
Fixpoint update_address_of_data (head_label : list item_label) (ic : Z)
  : option (list item_label) :=
  match head_label with
  | [] => Some []
  | temp_head :: rest =>
      if type_of_label_eqb (type temp_head) DATA then
        if int_range (address_label temp_head + ic) then
          match update_address_of_data rest ic with
          | Some rest' =>
              Some (mk_label (name_label temp_head) (address_label temp_head + ic)
                      (type temp_head) :: rest')
          | None => None
          end
        else None
      else
        match update_address_of_data rest ic with
        | Some rest' => Some (temp_head :: rest')
        | None => None
        end
  end.

Fixpoint search_in_list_label (head_label : list item_label) (name : string)
  : option item_label :=
  match head_label with
  | [] => None
  | temp_head :: rest =>
      if str_eq name (name_label temp_head) then Some temp_head
      else search_in_list_label rest name
  end.

Fixpoint mark_label_as_entry (head_label : list item_label) (name : string)
  : error_code * list item_label :=
  match head_label with
  | [] => (CANT_FIND_LABEL_TO_ENTRY, [])
  | temp_head :: rest =>
      if str_eq name (name_label temp_head)
      then (NO_ERROR, mk_label (name_label temp_head) (address_label temp_head) ENTRY :: rest)
      else let (code, rest') := mark_label_as_entry rest name in (code, temp_head :: rest')
  end.

(** [get_entry_list]: a line for every node of type [ENTRY].  The address
    is printed into a buffer of [MAX_DIGITS_FOR_ADDRESS] bytes. *)
Fixpoint get_entry_list (head_label : list item_label) : option string :=
  match head_label with
  | [] => Some EmptyString
  | temp_node :: rest =>
      match get_entry_list rest with
      | None => None
      | Some tail =>
          if type_of_label_eqb (type temp_node) ENTRY then
            let int_address := print_int (address_label temp_node) in
            if (String.length int_address + 1 <=? MAX_DIGITS_FOR_ADDRESS)%nat
            then Some (name_label temp_node ++ String TAB EmptyString ++ int_address
                         ++ String LF EmptyString ++ tail)%string
            else None
          else Some tail
      end
  end.

(* ================================================================= *)
(** ** macro_list.h, macro_list.c *)

Record item_macro : Type := mk_macro {
  name_macro : string;
  text_macro : string
}.

(** [create_node_macro]: the fields hold [MAX_ASSEMBLY_LINE_LENGTH] and
    [MAX_CHARACTERS_ASSEMBLY_FILE] bytes. *)
Definition create_node_macro (name text : string) : option item_macro :=
  if (String.length name <? MAX_ASSEMBLY_LINE_LENGTH)%nat
     && (Z.of_nat (String.length text) <? MAX_CHARACTERS_ASSEMBLY_FILE)
  then Some (mk_macro name text) else None.

Fixpoint add_to_list_macro_loop (temp_node : item_macro) (rest : list item_macro)
    (name : string) (new_node : item_macro) : error_code * list item_macro :=
  match rest with
  | next :: rest' =>
      if negb (str_eq (name_macro temp_node) name) then
        let (code, tail) := add_to_list_macro_loop next rest' name new_node in
        (code, temp_node :: tail)
      else (MACRO_ALREADY_EXISTS, temp_node :: rest)
  | [] =>
      if str_eq (name_macro temp_node) name
      then (MACRO_ALREADY_EXISTS, [temp_node])
      else (NO_ERROR, [temp_node; new_node])
  end.

Definition add_to_list_macro (head : list item_macro) (name text : string)
  : option (error_code * list item_macro) :=
  match create_node_macro name text with
  | None => None
  | Some new_node =>
      match head with
      | [] => Some (NO_ERROR, [new_node])
      | temp_node :: rest => Some (add_to_list_macro_loop temp_node rest name new_node)
      end
  end.

Fixpoint search_in_list_macro (head_macro : list item_macro) (name : string)
  : option item_macro :=
  match head_macro with
  | [] => None
  | temp_head :: rest =>
      if str_eq name (name_macro temp_head) then Some temp_head
      else search_in_list_macro rest name
  end.

(* ================================================================= *)
(** ** file_tool.h, file_tool.c *)

(** The file context.  [file_as] is the content of the input file,
    [file_am] the content of the expanded file, and [file_ob],
    [file_ent], [file_ext] the content of the artefacts, [None] while
    the file has not been created.  The fields [name_file] and
    [current_line] play no part in the translation and are left out. *)
Record item_file : Type := mk_file {
  line_text : string;
  pos_in_line : nat;
  count_macro : Z;
  count_error : Z;
  count_line : Z;
  IC : Z;
  DC : Z;
  error_flag : bool;
  extern_flag : bool;
  entry_flag : bool;
  data_array : list Z;
  instruction_array : list Z;
  line_struct : item_line;
  head_macro_list : list item_macro;
  head_label_list : list item_label;
  file_as : string;
  file_am : string;
  file_ob : option string;
  file_ent : option string;
  file_ext : option string
}.

Definition set_line_text (v : string) (r : item_file) : item_file :=
  mk_file v (pos_in_line r) (count_macro r) (count_error r) (count_line r) (IC r) (DC r) (error_flag r) (extern_flag r) (entry_flag r) (data_array r) (instruction_array r) (line_struct r) (head_macro_list r) (head_label_list r) (file_as r) (file_am r) (file_ob r) (file_ent r) (file_ext r).
Definition set_pos_in_line (v : nat) (r : item_file) : item_file :=
  mk_file (line_text r) v (count_macro r) (count_error r) (count_line r) (IC r) (DC r) (error_flag r) (extern_flag r) (entry_flag r) (data_array r) (instruction_array r) (line_struct r) (head_macro_list r) (head_label_list r) (file_as r) (file_am r) (file_ob r) (file_ent r) (file_ext r).
Definition set_count_macro (v : Z) (r : item_file) : item_file :=
  mk_file (line_text r) (pos_in_line r) v (count_error r) (count_line r) (IC r) (DC r) (error_flag r) (extern_flag r) (entry_flag r) (data_array r) (instruction_array r) (line_struct r) (head_macro_list r) (head_label_list r) (file_as r) (file_am r) (file_ob r) (file_ent r) (file_ext r).
Definition set_count_error (v : Z) (r : item_file) : item_file :=
  mk_file (line_text r) (pos_in_line r) (count_macro r) v (count_line r) (IC r) (DC r) (error_flag r) (extern_flag r) (entry_flag r) (data_array r) (instruction_array r) (line_struct r) (head_macro_list r) (head_label_list r) (file_as r) (file_am r) (file_ob r) (file_ent r) (file_ext r).
Definition set_count_line (v : Z) (r : item_file) : item_file :=
  mk_file (line_text r) (pos_in_line r) (count_macro r) (count_error r) v (IC r) (DC r) (error_flag r) (extern_flag r) (entry_flag r) (data_array r) (instruction_array r) (line_struct r) (head_macro_list r) (head_label_list r) (file_as r) (file_am r) (file_ob r) (file_ent r) (file_ext r).
Definition set_IC (v : Z) (r : item_file) : item_file :=
  mk_file (line_text r) (pos_in_line r) (count_macro r) (count_error r) (count_line r) v (DC r) (error_flag r) (extern_flag r) (entry_flag r) (data_array r) (instruction_array r) (line_struct r) (head_macro_list r) (head_label_list r) (file_as r) (file_am r) (file_ob r) (file_ent r) (file_ext r).
Definition set_DC (v : Z) (r : item_file) : item_file :=
  mk_file (line_text r) (pos_in_line r) (count_macro r) (count_error r) (count_line r) (IC r) v (error_flag r) (extern_flag r) (entry_flag r) (data_array r) (instruction_array r) (line_struct r) (head_macro_list r) (head_label_list r) (file_as r) (file_am r) (file_ob r) (file_ent r) (file_ext r).
Definition set_error_flag (v : bool) (r : item_file) : item_file :=
  mk_file (line_text r) (pos_in_line r) (count_macro r) (count_error r) (count_line r) (IC r) (DC r) v (extern_flag r) (entry_flag r) (data_array r) (instruction_array r) (line_struct r) (head_macro_list r) (head_label_list r) (file_as r) (file_am r) (file_ob r) (file_ent r) (file_ext r).
Definition set_extern_flag (v : bool) (r : item_file) : item_file :=
  mk_file (line_text r) (pos_in_line r) (count_macro r) (count_error r) (count_line r) (IC r) (DC r) (error_flag r) v (entry_flag r) (data_array r) (instruction_array r) (line_struct r) (head_macro_list r) (head_label_list r) (file_as r) (file_am r) (file_ob r) (file_ent r) (file_ext r).
Definition set_entry_flag (v : bool) (r : item_file) : item_file :=
  mk_file (line_text r) (pos_in_line r) (count_macro r) (count_error r) (count_line r) (IC r) (DC r) (error_flag r) (extern_flag r) v (data_array r) (instruction_array r) (line_struct r) (head_macro_list r) (head_label_list r) (file_as r) (file_am r) (file_ob r) (file_ent r) (file_ext r).
Definition set_data_array (v : list Z) (r : item_file) : item_file :=
  mk_file (line_text r) (pos_in_line r) (count_macro r) (count_error r) (count_line r) (IC r) (DC r) (error_flag r) (extern_flag r) (entry_flag r) v (instruction_array r) (line_struct r) (head_macro_list r) (head_label_list r) (file_as r) (file_am r) (file_ob r) (file_ent r) (file_ext r).
Definition set_instruction_array (v : list Z) (r : item_file) : item_file :=
  mk_file (line_text r) (pos_in_line r) (count_macro r) (count_error r) (count_line r) (IC r) (DC r) (error_flag r) (extern_flag r) (entry_flag r) (data_array r) v (line_struct r) (head_macro_list r) (head_label_list r) (file_as r) (file_am r) (file_ob r) (file_ent r) (file_ext r).
Definition set_line_struct (v : item_line) (r : item_file) : item_file :=
  mk_file (line_text r) (pos_in_line r) (count_macro r) (count_error r) (count_line r) (IC r) (DC r) (error_flag r) (extern_flag r) (entry_flag r) (data_array r) (instruction_array r) v (head_macro_list r) (head_label_list r) (file_as r) (file_am r) (file_ob r) (file_ent r) (file_ext r).
Definition set_head_macro_list (v : list item_macro) (r : item_file) : item_file :=
  mk_file (line_text r) (pos_in_line r) (count_macro r) (count_error r) (count_line r) (IC r) (DC r) (error_flag r) (extern_flag r) (entry_flag r) (data_array r) (instruction_array r) (line_struct r) v (head_label_list r) (file_as r) (file_am r) (file_ob r) (file_ent r) (file_ext r).
Definition set_head_label_list (v : list item_label) (r : item_file) : item_file :=
  mk_file (line_text r) (pos_in_line r) (count_macro r) (count_error r) (count_line r) (IC r) (DC r) (error_flag r) (extern_flag r) (entry_flag r) (data_array r) (instruction_array r) (line_struct r) (head_macro_list r) v (file_as r) (file_am r) (file_ob r) (file_ent r) (file_ext r).
Definition set_file_as (v : string) (r : item_file) : item_file :=
  mk_file (line_text r) (pos_in_line r) (count_macro r) (count_error r) (count_line r) (IC r) (DC r) (error_flag r) (extern_flag r) (entry_flag r) (data_array r) (instruction_array r) (line_struct r) (head_macro_list r) (head_label_list r) v (file_am r) (file_ob r) (file_ent r) (file_ext r).
Definition set_file_am (v : string) (r : item_file) : item_file :=
  mk_file (line_text r) (pos_in_line r) (count_macro r) (count_error r) (count_line r) (IC r) (DC r) (error_flag r) (extern_flag r) (entry_flag r) (data_array r) (instruction_array r) (line_struct r) (head_macro_list r) (head_label_list r) (file_as r) v (file_ob r) (file_ent r) (file_ext r).
Definition set_file_ob (v : option string) (r : item_file) : item_file :=
  mk_file (line_text r) (pos_in_line r) (count_macro r) (count_error r) (count_line r) (IC r) (DC r) (error_flag r) (extern_flag r) (entry_flag r) (data_array r) (instruction_array r) (line_struct r) (head_macro_list r) (head_label_list r) (file_as r) (file_am r) v (file_ent r) (file_ext r).
Definition set_file_ent (v : option string) (r : item_file) : item_file :=
  mk_file (line_text r) (pos_in_line r) (count_macro r) (count_error r) (count_line r) (IC r) (DC r) (error_flag r) (extern_flag r) (entry_flag r) (data_array r) (instruction_array r) (line_struct r) (head_macro_list r) (head_label_list r) (file_as r) (file_am r) (file_ob r) v (file_ext r).
Definition set_file_ext (v : option string) (r : item_file) : item_file :=
  mk_file (line_text r) (pos_in_line r) (count_macro r) (count_error r) (count_line r) (IC r) (DC r) (error_flag r) (extern_flag r) (entry_flag r) (data_array r) (instruction_array r) (line_struct r) (head_macro_list r) (head_label_list r) (file_as r) (file_am r) (file_ob r) (file_ent r) v.

(** [create_new_file_struct]: both arrays are zeroed. *)
Definition create_new_file_struct (source_text : string) : item_file :=
  mk_file EmptyString 0%nat 0 0 0 FIRST_CELL_IN_MEMORY 0 false false false
    (repeat 0 (Z.to_nat MAX_ARRAY_SIZE)) (repeat 0 (Z.to_nat MAX_ARRAY_SIZE))
    initialize_variables [] [] source_text EmptyString None None None.

(** [array[i]] and [array[i] = v] on an array of fixed size: an index
    outside the array is undefined. *)
Definition array_read (array : list Z) (i : Z) : option Z :=
  if (0 <=? i) && (i <? Z.of_nat (List.length array))
  then nth_error array (Z.to_nat i) else None.

Fixpoint list_update (l : list Z) (i : nat) (v : Z) : list Z :=
  match l, i with
  | [], _ => []
  | _ :: t, O => v :: t
  | h :: t, S j => h :: list_update t j v
  end.

Definition array_write (array : list Z) (i : Z) (v : Z) : option (list Z) :=
  if (0 <=? i) && (i <? Z.of_nat (List.length array))
  then Some (list_update array (Z.to_nat i) v) else None.

(** The characters of [rev_line], last one first, in front of [acc]. *)
Fixpoint string_rev_append (rev_line : list ascii) (acc : string) : string :=
  match rev_line with
  | [] => acc
  | c :: r => string_rev_append r (String c acc)
  end.

(** [fgets(buffer, MAX_ASSEMBLY_LINE_LENGTH, file)] called until it
    returns NULL: the successive contents of the buffer.  A call reads
    up to and including a newline, and at most
    [MAX_ASSEMBLY_LINE_LENGTH - 1] characters.  [room] is the number of
    characters the current call may still read and [line] what it has
    read so far, last character first. *)
Fixpoint read_lines_loop (stream : string) (room : nat) (line : list ascii)
  : list string :=
  match stream with
  | EmptyString =>
      match line with
      | [] => []
      | _ => [string_rev_append line EmptyString]
      end
  | String c rest =>
      if char_eqb c LF || (room =? 1)%nat
      then string_rev_append (c :: line) EmptyString
             :: read_lines_loop rest (MAX_ASSEMBLY_LINE_LENGTH - 1) []
      else read_lines_loop rest (room - 1) (c :: line)
  end.

Definition read_lines (stream : string) : list string :=
  read_lines_loop stream (MAX_ASSEMBLY_LINE_LENGTH - 1) [].

(* ================================================================= *)
(** ** The state of the program and the monad of the passes

    Besides the file context the passes use file-level variables of
    their translation units: [curr_macro_text], [curr_macro_name],
    [macro_flag] and [temp_head_macro_list] in [pre_assembly.c], and
    [extern_list] in [second_pass.c].  [console] collects what
    [print_error] prints, oldest diagnostic first. *)
Record machine : Type := mk_machine {
  sfile : item_file;
  curr_macro_text : string;
  curr_macro_name : string;
  macro_flag : bool;
  temp_head_macro_list : option item_macro;
  extern_list : string;
  console : list diagnostic
}.

Definition set_sfile (v : item_file) (r : machine) : machine :=
  mk_machine v (curr_macro_text r) (curr_macro_name r) (macro_flag r) (temp_head_macro_list r) (extern_list r) (console r).
Definition set_curr_macro_text (v : string) (r : machine) : machine :=
  mk_machine (sfile r) v (curr_macro_name r) (macro_flag r) (temp_head_macro_list r) (extern_list r) (console r).
Definition set_curr_macro_name (v : string) (r : machine) : machine :=
  mk_machine (sfile r) (curr_macro_text r) v (macro_flag r) (temp_head_macro_list r) (extern_list r) (console r).
Definition set_macro_flag (v : bool) (r : machine) : machine :=
  mk_machine (sfile r) (curr_macro_text r) (curr_macro_name r) v (temp_head_macro_list r) (extern_list r) (console r).
Definition set_temp_head_macro_list (v : option item_macro) (r : machine) : machine :=
  mk_machine (sfile r) (curr_macro_text r) (curr_macro_name r) (macro_flag r) v (extern_list r) (console r).
Definition set_extern_list (v : string) (r : machine) : machine :=
  mk_machine (sfile r) (curr_macro_text r) (curr_macro_name r) (macro_flag r) (temp_head_macro_list r) v (console r).
Definition set_console (v : list diagnostic) (r : machine) : machine :=
  mk_machine (sfile r) (curr_macro_text r) (curr_macro_name r) (macro_flag r) (temp_head_macro_list r) (extern_list r) v.

Definition initial_machine (source_text : string) : machine :=
  mk_machine (create_new_file_struct source_text) EmptyString EmptyString false None
    EmptyString [].

(** A computation on the program state that may run into undefined
    behaviour. *)
Definition M (A : Type) : Type := machine -> option (A * machine).

Definition ret {A : Type} (a : A) : M A := fun m => Some (a, m).

Definition bind {A B : Type} (c : M A) (k : A -> M B) : M B :=
  fun m => match c m with
           | Some (a, m') => k a m'
           | None => None
           end.

Definition undefined {A : Type} : M A := fun _ => None.

Definition gets {A : Type} (f : machine -> A) : M A := fun m => Some (f m, m).

Definition modify (f : machine -> machine) : M unit := fun m => Some (tt, f m).

(** Read a field of [*sfile]; update [*sfile]. *)
Definition file_get {A : Type} (f : item_file -> A) : M A :=
  gets (fun m => f (sfile m)).

Definition file_set (f : item_file -> item_file) : M unit :=
  modify (fun m => set_sfile (f (sfile m)) m).

Definition lift_option {A : Type} (o : option A) : M A :=
  match o with
  | Some a => ret a
  | None => undefined
  end.

Declare Scope monad_scope.
Delimit Scope monad_scope with monad.
Notation "x <- c ;; k" := (bind c (fun x => k))
  (at level 61, c at next level, right associativity) : monad_scope.
Notation "c ;; k" := (bind c (fun _ => k))
  (at level 61, right associativity) : monad_scope.
Local Open Scope monad_scope.

(** Run a computation for its final state. *)
Definition exec {A : Type} (c : M A) (m : machine) : option machine :=
  match c m with
  | Some (_, m') => Some m'
  | None => None
  end.

(** [body] for every line, in order. *)
Fixpoint for_each_line (body : string -> M unit) (lines : list string) : M unit :=
  match lines with
  | [] => ret tt
  | line :: rest => body line ;; for_each_line body rest
  end.

Definition when (b : bool) (c : M unit) : M unit := if b then c else ret tt.

(** Bit-fields.  An assignment to a bit-field of [width] bits keeps the
    value modulo [2 ^ width].  The fields of a struct are laid out from
    the least significant bit of the storage unit upwards, in the order
    of their declaration (the layout of GCC on little-endian targets). *)
Definition bit_field (width value : Z) : Z := value mod 2 ^ width.

Fixpoint pack_bit_fields (fields : list (Z * Z)) : Z :=
  match fields with
  | [] => 0
  | (width, value) :: rest => bit_field width value + 2 ^ width * pack_bit_fields rest
  end.

(** Plain [char] is signed on the target: the value of a character
    converted to [int]. *)
Definition char_to_int (c : ascii) : Z :=
  if char_code c <? 128 then char_code c else char_code c - 256.

(* ================================================================= *)
(** ** pre_assembly.h, pre_assembly.c *)

Module PreAssembly.

Definition START_MACRO : string := "mcro".
Definition END_MACRO : string := "endmcro".

Inductive first_word_status : Type :=
  | STATUS_MACRO_NAME
  | STATUS_MCRO
  | STATUS_ENDMCRO
  | STATUS_TEXT_OF_MACRO
  | STATUS_TEXT_OF_CODE.

Definition add_error (code : error_code) : M unit :=
  line <- file_get count_line ;;
  modify (fun m => set_console (console m ++ [(code, line)]) m) ;;
  file_set (set_error_flag true) ;;
  file_set (fun f => set_count_error (count_error f + 1) f).

Definition update_error_status (code : error_code) : M unit :=
  if error_code_eq_dec code NO_ERROR then ret tt else add_error code.

(** [update_files]: the expanded file is opened for writing. *)
Definition update_files : M unit := file_set (set_file_am EmptyString).

Definition update_line_to_array : M unit :=
  text <- file_get line_text ;;
  new_line <- lift_option (create_new_line_struct text) ;;
  file_set (set_line_struct new_line).

Definition get_first_word_status : M first_word_status :=
  head <- file_get head_macro_list ;;
  line <- file_get line_struct ;;
  modify (set_temp_head_macro_list (search_in_list_macro head (word1 line))) ;;
  found <- gets temp_head_macro_list ;;
  match found with
  | Some _ => ret STATUS_MACRO_NAME
  | None =>
      if str_eq (word1 line) START_MACRO then
        inside <- gets macro_flag ;;
        when inside (add_error NESTED_MACRO_DEFINITION) ;;
        ret STATUS_MCRO
      else if str_eq (word1 line) END_MACRO then ret STATUS_ENDMCRO
      else
        inside <- gets macro_flag ;;
        if inside then ret STATUS_TEXT_OF_MACRO else ret STATUS_TEXT_OF_CODE
  end.

(** [fputs(text, file_am)] at the end of the expanded file. *)
Definition fputs_am (text : string) : M unit :=
  file_set (fun f => set_file_am (file_am f ++ text)%string f).

Definition paste_macro_text : M unit :=
  found <- gets temp_head_macro_list ;;
  node <- lift_option found ;;
  fputs_am (text_macro node).

Definition update_name_of_macro : M unit :=
  modify (set_macro_flag true) ;;
  line <- file_get line_struct ;;
  modify (set_curr_macro_name (word2 line)).

Definition add_new_macro_to_list : M unit :=
  modify (set_macro_flag false) ;;
  file_set (fun f => set_count_macro (count_macro f + 1) f) ;;
  name <- gets curr_macro_name ;;
  text <- gets curr_macro_text ;;
  (if negb (is_name_a_reserved_word name) then
     head <- file_get head_macro_list ;;
     r <- lift_option (add_to_list_macro head name text) ;;
     file_set (set_head_macro_list (snd r)) ;;
     update_error_status (fst r)
   else add_error MACRO_NAME_IS_INSTRUCTION_OR_DIRECTIVE) ;;
  modify (set_curr_macro_text EmptyString) ;;
  modify (set_curr_macro_name EmptyString).

(** [strcat(curr_macro_text, line_text)] into a buffer of
    [MAX_CHARACTERS_ASSEMBLY_FILE] bytes. *)
Definition add_text_to_macro : M unit :=
  text <- gets curr_macro_text ;;
  line <- file_get line_text ;;
  if Z.of_nat (String.length text + String.length line) <? MAX_CHARACTERS_ASSEMBLY_FILE
  then modify (set_curr_macro_text (text ++ line)%string)
  else undefined.

Definition paste_code_text : M unit :=
  line <- file_get line_text ;;
  fputs_am line.

Definition action_by_status (status : first_word_status) : M unit :=
  match status with
  | STATUS_MACRO_NAME => paste_macro_text
  | STATUS_MCRO => update_name_of_macro
  | STATUS_ENDMCRO => add_new_macro_to_list
  | STATUS_TEXT_OF_MACRO => add_text_to_macro
  | STATUS_TEXT_OF_CODE => paste_code_text
  end.

(** The body of the loop of [pre_assembly_on_curr_file] for the line
    that [update_next_line] has just read. *)
Definition pre_assembly_on_line (line : string) : M unit :=
  file_set (set_line_text (c_str line)) ;;
  file_set (fun f => set_count_line (count_line f + 1) f) ;;
  update_line_to_array ;;
  status <- get_first_word_status ;;
  action_by_status status.

Definition pre_assembly_on_curr_file : M unit :=
  modify (set_macro_flag false) ;;
  update_files ;;
  source_text <- file_get file_as ;;
  for_each_line pre_assembly_on_line (read_lines source_text) ;;
  file_set (set_head_macro_list []).

Definition start_pre_assembly : M unit := pre_assembly_on_curr_file.

End PreAssembly.

(* ================================================================= *)
(** ** first_pass.h, first_pass.c *)

Module FirstPass.

Section WithPadding.

(** The local structs from which the instruction words are copied
    declare 12 bits of bit-fields in a 32-bit storage unit; the other 20
    bits are never written before [memcpy] copies the unit into the
    array.  [padding_bits i] stands for whatever these bits hold when the
    cell of index [i] is written. *)
Variable padding_bits : Z -> Z.

Definition add_error (code : error_code) : M unit :=
  line <- file_get count_line ;;
  modify (fun m => set_console (console m ++ [(code, line)]) m) ;;
  file_set (set_error_flag true) ;;
  file_set (fun f => set_count_error (count_error f + 1) f).

Definition update_error_status (code : error_code) : M unit :=
  if error_code_eq_dec code NO_ERROR then ret tt else add_error code.

Definition update_line_to_array : M unit :=
  text <- file_get line_text ;;
  new_line <- lift_option (create_new_line_struct text) ;;
  file_set (set_line_struct new_line).

Definition get_word_status (word_text : string) : line_status :=
  if str_eq word_text DOT_DATA then STATUS_DATA
  else if str_eq word_text DOT_STRING then STATUS_STRING
  else if str_eq word_text DOT_EXTERN then STATUS_EXTERN
  else if str_eq word_text DOT_ENTRY then STATUS_ENTRY
  else STATUS_CODE.

(** [add_to_list_label(&sfile->head_label_list, name, address, type)]. *)
Definition add_label (name : string) (address : Z) (type : type_of_label)
  : M error_code :=
  head <- file_get head_label_list ;;
  r <- lift_option (add_to_list_label head name address type) ;;
  file_set (set_head_label_list (snd r)) ;;
  ret (fst r).

Definition add_new_label_to_list (temp_status : line_status) : M unit :=
  line <- file_get line_struct ;;
  if is_label_name_valid (word1 line) then
    (match temp_status with
     | STATUS_DATA | STATUS_STRING =>
         dc <- file_get DC ;;
         code <- add_label (word1 line) dc DATA ;;
         update_error_status code
     | _ => ret tt
     end) ;;
    (match temp_status with
     | STATUS_CODE =>
         ic <- file_get IC ;;
         code <- add_label (word1 line) ic CODE ;;
         update_error_status code
     | _ => ret tt
     end)
  else add_error INVALID_LABEL_NAME.

Definition actions_on_label : M unit :=
  line <- file_get line_struct ;;
  r <- lift_option (is_label line) ;;
  file_set (set_line_struct (snd r)) ;;
  when (fst r)
    (line <- file_get line_struct ;;
     let temp_status := get_word_status (word2 line) in
     match temp_status with
     | STATUS_ENTRY =>
         add_error CANT_DEFINE_LABEL_BEFORE_ENTRY ;;
         file_set (fun f => set_line_struct (set_count ZERO (line_struct f)) f)
     | STATUS_EXTERN =>
         add_error CANT_DEFINE_LABEL_BEFORE_EXTERN ;;
         file_set (fun f => set_line_struct (set_count ZERO (line_struct f)) f)
     | _ =>
         file_set (fun f =>
           set_pos_in_line (skip_one_word_in_line (pos_in_line f) (line_text f)) f) ;;
         add_new_label_to_list temp_status ;;
         file_set (fun f =>
           set_line_struct (delete_label_from_line_struct (line_struct f)) f)
     end).

(** The loop of [get_next_word_without_comma]; [rest] is the line from
    [pos_in_line] on. *)
Fixpoint next_word_loop (rest : string) (pos : nat) : string * nat :=
  match rest with
  | String c r =>
      if is_blank c || char_eqb c LF || char_eqb c COMMA || char_eqb c NUL
      then (EmptyString, pos)
      else let (w, pos') := next_word_loop r (S pos) in (String c w, pos')
  | EmptyString => (EmptyString, pos)
  end.

Definition get_next_word_without_comma : M string :=
  text <- file_get line_text ;;
  pos <- file_get pos_in_line ;;
  let (temp_word, pos) := next_word_loop (string_from pos text) pos in
  file_set (set_pos_in_line (skip_white_character pos text)) ;;
  ret temp_word.

Definition check_for_comma : M bool :=
  text <- file_get line_text ;;
  pos <- file_get pos_in_line ;;
  if char_eqb (char_at text pos) COMMA then
    file_set (set_pos_in_line (S pos)) ;;
    ret true
  else
    when (negb (is_line_end (char_at text pos)))
      (add_error COMMA_REQUIRED_BETWEEN_VALUES) ;;
    ret false.

(** [sfile->data_array[sfile->DC] = v; (sfile->DC)++]. *)
Definition push_data (v : Z) : M unit :=
  dc <- file_get DC ;;
  array <- file_get data_array ;;
  array' <- lift_option (array_write array dc v) ;;
  file_set (set_data_array array') ;;
  file_set (set_DC (dc + 1)).

(** [sfile->instruction_array[sfile->IC] = v; (sfile->IC)++]. *)
Definition push_instruction (v : Z) : M unit :=
  ic <- file_get IC ;;
  array <- file_get instruction_array ;;
  array' <- lift_option (array_write array ic v) ;;
  file_set (set_instruction_array array') ;;
  file_set (set_IC (ic + 1)).

(** The part of the loop body of [save_data] that reads one value: the
    next word is taken from the line and, when [is_number] accepts it,
    converted with [atoi] and stored. *)
Definition save_data_value : M unit :=
  temp_word <- get_next_word_without_comma ;;
  if is_number temp_word then
    value <- lift_option (atoi temp_word) ;;
    push_data (to_unsigned value)
  else add_error DATA_NEED_NUM_VALUE.

(** The [do ... while (check_for_comma() == TRUE)] loop of [save_data].
    Every repetition follows a comma that [check_for_comma] has stepped
    over, so a line allows at most as many repetitions as it has
    characters; [fuel] is that bound. *)
Fixpoint save_data_loop (fuel : nat) : M unit :=
  file_set (fun f => set_pos_in_line (skip_white_character (pos_in_line f) (line_text f)) f) ;;
  text <- file_get line_text ;;
  pos <- file_get pos_in_line ;;
  if char_eqb (char_at text pos) COMMA then add_error INVALID_COMMA_POSITION
  else
    save_data_value ;;
    again <- check_for_comma ;;
    if again then
      match fuel with
      | S fuel' => save_data_loop fuel'
      | O => undefined
      end
    else ret tt.

Definition save_data : M unit :=
  file_set (fun f => set_pos_in_line (skip_one_word_in_line (pos_in_line f) (line_text f)) f) ;;
  text <- file_get line_text ;;
  pos <- file_get pos_in_line ;;
  if is_end_line pos text then add_error MUST_PROVIDE_VALUES_TO_DATA
  else save_data_loop (String.length text).

(** The [while] loop of [save_string]; [rest] is the line from
    [pos_in_line] on. *)
Fixpoint save_string_loop (rest : string) : M unit :=
  match rest with
  | String c r =>
      if negb (is_end_line_loop rest) && negb (char_eqb c QUOTE) then
        push_data (to_unsigned (char_to_int c)) ;;
        file_set (fun f => set_pos_in_line (S (pos_in_line f)) f) ;;
        save_string_loop r
      else ret tt
  | EmptyString => ret tt
  end.

Definition save_string : M unit :=
  file_set (fun f => set_pos_in_line (skip_one_word_in_line (pos_in_line f) (line_text f)) f) ;;
  file_set (fun f => set_pos_in_line (skip_white_character (pos_in_line f) (line_text f)) f) ;;
  text <- file_get line_text ;;
  pos <- file_get pos_in_line ;;
  if char_eqb (char_at text pos) QUOTE then
    file_set (set_pos_in_line (S pos)) ;;
    save_string_loop (string_from (S pos) text) ;;
    pos <- file_get pos_in_line ;;
    if char_eqb (char_at text pos) QUOTE then
      file_set (set_pos_in_line (S pos)) ;;
      push_data 0 ;;
      when (negb (is_end_line (S pos) text))
        (add_error STRING_DIRECTIVE_ACCEPTS_ONE_PARAMETER)
    else add_error STRING_MUST_END_IN_QUOTES
  else add_error STRING_STRUCTURE_NOT_VALID.

Fixpoint add_extern_labels_loop (fuel : nat) : M unit :=
  file_set (fun f => set_pos_in_line (skip_white_character (pos_in_line f) (line_text f)) f) ;;
  text <- file_get line_text ;;
  pos <- file_get pos_in_line ;;
  if char_eqb (char_at text pos) COMMA then add_error INVALID_COMMA_POSITION
  else
    temp_word <- get_next_word_without_comma ;;
    (if is_label_name_valid temp_word then
       code <- add_label temp_word 0 EXTERN ;;
       update_error_status code
     else add_error INVALID_LABEL_NAME) ;;
    again <- check_for_comma ;;
    if again then
      match fuel with
      | S fuel' => add_extern_labels_loop fuel'
      | O => undefined
      end
    else ret tt.

Definition add_extern_labels : M unit :=
  file_set (set_extern_flag true) ;;
  file_set (fun f => set_pos_in_line (skip_one_word_in_line (pos_in_line f) (line_text f)) f) ;;
  text <- file_get line_text ;;
  pos <- file_get pos_in_line ;;
  if is_end_line pos text then add_error MUST_PROVIDE_LABELS_TO_EXTERN
  else add_extern_labels_loop (String.length text).

Definition set_methods (src dst : addressing_method) : M unit :=
  file_set (fun f =>
    set_line_struct (set_destination dst (set_source src (line_struct f))) f).

Definition update_addressing_method_type (type : instruction_type) : M unit :=
  line <- file_get line_struct ;;
  match type with
  | MOV | CMP | ADD | SUB | LEA =>
      set_methods (get_addressing_method_type (word2 line))
                  (get_addressing_method_type (word4 line))
  | NOT | CLR | INC | DEC | JMP | BNE | RED | PRN | JSR =>
      set_methods NOT_EXIST (get_addressing_method_type (word2 line)) ;;
      file_set (fun f => set_line_struct (set_word4 (word2 line) (line_struct f)) f)
  | _ => set_methods NOT_EXIST NOT_EXIST
  end.

Definition check_errors_for_instructions (type : instruction_type) : M unit :=
  line <- file_get line_struct ;;
  when (count_eqb (count line) TOO_MUCH || count_eqb (count line) FIVE)
    (add_error TOO_MUCH_WORDS_FOR_INSTRUCTION) ;;
  (match type with
   | MOV | CMP | ADD | SUB | LEA =>
       when (negb (count_eqb (count line) FOUR))
         (add_error INSTRUCTION_SHOULD_RECEIVE_TWO_OPERANDS) ;;
       when (negb (str_eq (word3 line) ","))
         (add_error COMMA_REQUIRED_BETWEEN_OPERANDS)
   | NOT | CLR | INC | DEC | JMP | BNE | RED | PRN | JSR =>
       when (negb (count_eqb (count line) TWO))
         (add_error INSTRUCTION_SHOULD_RECEIVE_ONE_OPERAND)
   | RTS | STOP =>
       when (negb (count_eqb (count line) ONE))
         (add_error INSTRUCTION_SHOULD_NOT_RECEIVE_OPERANDS)
   | NOT_INSTRUCTION => add_error INSTRUCTION_NAME_NOT_EXIST
   end) ;;
  match type with
  | MOV | ADD | SUB =>
      when (addressing_method_eqb (destination line) IMMEDIATE)
        (add_error INVALID_ADDRESS_METHOD_FOR_INSTRUCTION)
  | LEA =>
      when (addressing_method_eqb (destination line) IMMEDIATE
            || negb (addressing_method_eqb (source line) DIRECT))
        (add_error INVALID_ADDRESS_METHOD_FOR_INSTRUCTION)
  | NOT | CLR | INC | DEC | JMP | BNE | RED | JSR =>
      when (addressing_method_eqb (destination line) IMMEDIATE)
        (add_error INVALID_ADDRESS_METHOD_FOR_INSTRUCTION)
  | _ => ret tt
  end.

(** The first word: [encoding_type:2], [destination_address:3],
    [opcode:4], [source_address:3]. *)
Definition first_word_of_instruction (type : instruction_type)
    (line : item_line) (padding : Z) : Z :=
  pack_bit_fields
    [ (2, encoding_type_value ABSOLUTE);
      (3, addressing_method_value (destination line));
      (4, instruction_type_value type);
      (3, addressing_method_value (source line));
      (20, padding) ].

Definition add_first_word_of_instruction_to_array (type : instruction_type) : M unit :=
  line <- file_get line_struct ;;
  ic <- file_get IC ;;
  push_instruction (first_word_of_instruction type line (padding_bits ic)).

(** A register word: [encoding_type:2], [register_number_destination:5],
    [register_number_source:5]. *)
Definition register_word (register_number_destination register_number_source padding : Z)
  : Z :=
  pack_bit_fields
    [ (2, encoding_type_value ABSOLUTE);
      (5, register_number_destination);
      (5, register_number_source);
      (20, padding) ].

(** An immediate word: [encoding_type:2], [value:10]. *)
Definition immediate_word (value padding : Z) : Z :=
  pack_bit_fields
    [ (2, encoding_type_value ABSOLUTE); (10, value); (20, padding) ].

Definition add_the_rest_of_the_instruction_to_array : M unit :=
  line <- file_get line_struct ;;
  (match source line with
   | REGISTER =>
       ic <- file_get IC ;;
       let register_number_source := get_number_of_register (word2 line) in
       let register_number_destination :=
         if addressing_method_eqb (destination line) REGISTER
         then get_number_of_register (word4 line)
         else addressing_method_value NOT_EXIST in
       push_instruction
         (register_word register_number_destination register_number_source
            (padding_bits ic))
   | IMMEDIATE =>
       ic <- file_get IC ;;
       value <- lift_option (atoi (word2 line)) ;;
       push_instruction (immediate_word value (padding_bits ic))
   | DIRECT => push_instruction 0
   | NOT_EXIST => ret tt
   end) ;;
  match destination line with
  | REGISTER =>
      when (negb (addressing_method_eqb (source line) REGISTER))
        (ic <- file_get IC ;;
         push_instruction
           (register_word (get_number_of_register (word4 line))
              (addressing_method_value NOT_EXIST) (padding_bits ic)))
  | IMMEDIATE =>
      ic <- file_get IC ;;
      value <- lift_option (atoi (word4 line)) ;;
      push_instruction (immediate_word value (padding_bits ic))
  | DIRECT => push_instruction 0
  | NOT_EXIST => ret tt
  end.

Definition add_instructions : M unit :=
  line <- file_get line_struct ;;
  let type := get_instruction_type (word1 line) in
  update_addressing_method_type type ;;
  check_errors_for_instructions type ;;
  failed <- file_get error_flag ;;
  when (negb failed)
    (add_first_word_of_instruction_to_array type ;;
     add_the_rest_of_the_instruction_to_array).

Definition action_by_status (status : line_status) : M unit :=
  match status with
  | STATUS_DATA => save_data
  | STATUS_STRING => save_string
  | STATUS_EXTERN => add_extern_labels
  | STATUS_ENTRY => ret tt
  | STATUS_CODE => add_instructions
  end.

Definition update_address_label_of_data : M unit :=
  ic <- file_get IC ;;
  head <- file_get head_label_list ;;
  head' <- lift_option (update_address_of_data head ic) ;;
  file_set (set_head_label_list head').

(** The body of the loop of [first_pass_on_curr_file] for the line that
    [update_next_line] has just read into [line_text]. *)
Definition first_pass_on_line (line : string) : M unit :=
  file_set (set_line_text (c_str line)) ;;
  file_set (fun f => set_count_line (count_line f + 1) f) ;;
  text <- file_get line_text ;;
  if is_line_empty text then ret tt
  else
    file_set (set_pos_in_line 0%nat) ;;
    update_line_to_array ;;
    actions_on_label ;;
    line <- file_get line_struct ;;
    if count_eqb (count line) ZERO then ret tt
    else action_by_status (get_word_status (word1 line)).

Definition first_pass_on_curr_file : M unit :=
  file_set (set_count_line 0) ;;
  expanded <- file_get file_am ;;
  for_each_line first_pass_on_line (read_lines expanded) ;;
  failed <- file_get error_flag ;;
  when (negb failed) update_address_label_of_data.

Definition start_first_pass : M unit := first_pass_on_curr_file.

End WithPadding.

End FirstPass.

(* ================================================================= *)
(** ** second_pass.h, second_pass.c *)

Module SecondPass.

Section WithPadding.

(** The unwritten 20 bits of the local bit-field structs, as in the
    first pass. *)
Variable padding_bits : Z -> Z.

Definition add_error (code : error_code) : M unit :=
  line <- file_get count_line ;;
  modify (fun m => set_console (console m ++ [(code, line)]) m) ;;
  file_set (set_error_flag true) ;;
  file_set (fun f => set_count_error (count_error f + 1) f).

Definition update_error_status (code : error_code) : M unit :=
  if error_code_eq_dec code NO_ERROR then ret tt else add_error code.

Definition update_line_to_array : M unit :=
  text <- file_get line_text ;;
  new_line <- lift_option (create_new_line_struct text) ;;
  file_set (set_line_struct new_line).

Definition skip_on_label : M unit :=
  line <- file_get line_struct ;;
  r <- lift_option (is_label line) ;;
  file_set (set_line_struct (snd r)) ;;
  when (fst r)
    (file_set (fun f =>
       set_pos_in_line (skip_one_word_in_line (pos_in_line f) (line_text f)) f) ;;
     file_set (fun f =>
       set_line_struct (delete_label_from_line_struct (line_struct f)) f)).

Definition get_word_status (word_text : string) : line_status :=
  if str_eq word_text DOT_DATA then STATUS_DATA
  else if str_eq word_text DOT_STRING then STATUS_STRING
  else if str_eq word_text DOT_EXTERN then STATUS_EXTERN
  else if str_eq word_text DOT_ENTRY then STATUS_ENTRY
  else STATUS_CODE.

Fixpoint next_word_loop (rest : string) (pos : nat) : string * nat :=
  match rest with
  | String c r =>
      if is_blank c || char_eqb c LF || char_eqb c COMMA || char_eqb c NUL
      then (EmptyString, pos)
      else let (w, pos') := next_word_loop r (S pos) in (String c w, pos')
  | EmptyString => (EmptyString, pos)
  end.

Definition get_next_word_without_comma : M string :=
  text <- file_get line_text ;;
  pos <- file_get pos_in_line ;;
  let (temp_word, pos) := next_word_loop (string_from pos text) pos in
  file_set (set_pos_in_line (skip_white_character pos text)) ;;
  ret temp_word.

Definition check_for_comma : M bool :=
  text <- file_get line_text ;;
  pos <- file_get pos_in_line ;;
  if char_eqb (char_at text pos) COMMA then
    file_set (set_pos_in_line (S pos)) ;;
    ret true
  else
    when (negb (is_line_end (char_at text pos)))
      (add_error COMMA_REQUIRED_BETWEEN_VALUES) ;;
    ret false.

(** [mark_label_as_entry(sfile->head_label_list, name)]. *)
Definition mark_entry (name : string) : M error_code :=
  head <- file_get head_label_list ;;
  let r := mark_label_as_entry head name in
  file_set (set_head_label_list (snd r)) ;;
  ret (fst r).

(** The [do ... while] loop of [mark_entry_labels], with the bound on
    its repetitions explained at [FirstPass.save_data_loop]. *)
Fixpoint mark_entry_labels_loop (fuel : nat) : M unit :=
  file_set (fun f => set_pos_in_line (skip_white_character (pos_in_line f) (line_text f)) f) ;;
  text <- file_get line_text ;;
  pos <- file_get pos_in_line ;;
  if char_eqb (char_at text pos) COMMA then add_error INVALID_COMMA_POSITION
  else
    temp_word <- get_next_word_without_comma ;;
    (if is_label_name_valid temp_word then
       code <- mark_entry temp_word ;;
       update_error_status code
     else add_error INVALID_LABEL_NAME) ;;
    again <- check_for_comma ;;
    if again then
      match fuel with
      | S fuel' => mark_entry_labels_loop fuel'
      | O => undefined
      end
    else ret tt.

Definition mark_entry_labels : M unit :=
  file_set (set_entry_flag true) ;;
  file_set (fun f => set_pos_in_line (skip_one_word_in_line (pos_in_line f) (line_text f)) f) ;;
  text <- file_get line_text ;;
  pos <- file_get pos_in_line ;;
  if is_end_line pos text then add_error MUST_PROVIDE_LABELS_TO_ENTRY
  else mark_entry_labels_loop (String.length text).

Definition set_methods (src dst : addressing_method) : M unit :=
  file_set (fun f =>
    set_line_struct (set_destination dst (set_source src (line_struct f))) f).

Definition update_addressing_method_type (type : instruction_type) : M unit :=
  line <- file_get line_struct ;;
  match type with
  | MOV | CMP | ADD | SUB | LEA =>
      set_methods (get_addressing_method_type (word2 line))
                  (get_addressing_method_type (word4 line))
  | NOT | CLR | INC | DEC | JMP | BNE | RED | PRN | JSR =>
      set_methods NOT_EXIST (get_addressing_method_type (word2 line)) ;;
      file_set (fun f => set_line_struct (set_word4 (word2 line) (line_struct f)) f)
  | _ => set_methods NOT_EXIST NOT_EXIST
  end.

(** [add_extern_label_to_array]: the name, a tab, the value of [IC] and
    a newline are appended to [extern_list], a buffer of
    [MAX_CHARACTERS_ASSEMBLY_FILE] bytes; [IC] is printed into a buffer
    of [MAX_DIGITS_FOR_ADDRESS] bytes. *)
Definition add_extern_label_to_array (temp_node : item_label) : M unit :=
  ic <- file_get IC ;;
  list <- gets extern_list ;;
  let int_ic := print_int ic in
  let list' := (list ++ name_label temp_node ++ String TAB EmptyString
                  ++ int_ic ++ String LF EmptyString)%string in
  if (String.length int_ic + 1 <=? MAX_DIGITS_FOR_ADDRESS)%nat
     && (Z.of_nat (String.length list') <? MAX_CHARACTERS_ASSEMBLY_FILE)
  then modify (set_extern_list list')
  else undefined.

(** A direct operand word: [encoding_type:2], [label_address:10]. *)
Definition direct_word (encoding : encoding_type) (label_address padding : Z) : Z :=
  pack_bit_fields
    [ (2, encoding_type_value encoding); (10, label_address); (20, padding) ].

Definition increment_IC : M unit := file_set (fun f => set_IC (IC f + 1) f).

(** The case [DIRECT] of both switches of
    [update_the_rest_of_the_instruction_to_array], for the operand
    [operand]. *)
Definition complete_direct_operand (operand : string) : M unit :=
  head <- file_get head_label_list ;;
  match search_in_list_label head operand with
  | Some label_node =>
      (if type_of_label_eqb (type label_node) EXTERN
       then add_extern_label_to_array label_node else ret tt) ;;
      let encoding :=
        if type_of_label_eqb (type label_node) EXTERN then EXTERNAL else RELOCATABLE in
      ic <- file_get IC ;;
      array <- file_get instruction_array ;;
      array' <- lift_option
                  (array_write array ic
                     (direct_word encoding (address_label label_node) (padding_bits ic))) ;;
      file_set (set_instruction_array array') ;;
      increment_IC
  | None => add_error LABEL_NOT_FOUND
  end.

Definition update_the_rest_of_the_instruction_to_array : M unit :=
  line <- file_get line_struct ;;
  (match source line with
   | REGISTER | IMMEDIATE => increment_IC
   | DIRECT => complete_direct_operand (word2 line)
   | NOT_EXIST => ret tt
   end) ;;
  match destination line with
  | REGISTER => when (negb (addressing_method_eqb (source line) REGISTER)) increment_IC
  | IMMEDIATE => increment_IC
  | DIRECT => complete_direct_operand (word4 line)
  | NOT_EXIST => ret tt
  end.

Definition complete_missing_instructions : M unit :=
  line <- file_get line_struct ;;
  let type := get_instruction_type (word1 line) in
  update_addressing_method_type type ;;
  increment_IC ;;
  update_the_rest_of_the_instruction_to_array.

Definition action_by_status (status : line_status) : M unit :=
  match status with
  | STATUS_DATA | STATUS_STRING | STATUS_EXTERN => ret tt
  | STATUS_ENTRY => mark_entry_labels
  | STATUS_CODE => complete_missing_instructions
  end.

(** The words [array[first]], ..., [array[first + n - 1]] in base 64,
    as the two [for] loops of [create_object_file] write them. *)
Fixpoint object_words (array : list Z) (first : Z) (n : nat) : option string :=
  match n with
  | O => Some EmptyString
  | S n' =>
      match array_read array first, object_words array (first + 1) n' with
      | Some word, Some tail => Some (convert_binary_to_64base word ++ tail)%string
      | _, _ => None
      end
  end.

(** The header line that [fprintf(file_ob, "%d\t%d\n", ...)] writes. *)
Definition object_header (code_word_count data_word_count : Z) : string :=
  (print_int code_word_count ++ String TAB EmptyString
     ++ print_int data_word_count ++ String LF EmptyString)%string.

Definition create_object_file : M unit :=
  ic <- file_get IC ;;
  dc <- file_get DC ;;
  code <- file_get instruction_array ;;
  data <- file_get data_array ;;
  let header := object_header (ic - FIRST_CELL_IN_MEMORY) dc in
  code_words <- lift_option
                  (object_words code FIRST_CELL_IN_MEMORY (Z.to_nat (ic - FIRST_CELL_IN_MEMORY))) ;;
  data_words <- lift_option (object_words data 0 (Z.to_nat dc)) ;;
  file_set (set_file_ob (Some (header ++ code_words ++ data_words)%string)).

Definition create_all_files : M unit :=
  has_entries <- file_get entry_flag ;;
  when has_entries
    (head <- file_get head_label_list ;;
     temp_entry_list <- lift_option (get_entry_list head) ;;
     file_set (set_file_ent (Some temp_entry_list))) ;;
  has_externs <- file_get extern_flag ;;
  when has_externs
    (list <- gets extern_list ;;
     file_set (set_file_ext (Some list))) ;;
  create_object_file.

Definition second_pass_on_line (line : string) : M unit :=
  file_set (set_line_text (c_str line)) ;;
  file_set (fun f => set_count_line (count_line f + 1) f) ;;
  text <- file_get line_text ;;
  if is_line_empty text then ret tt
  else
    file_set (set_pos_in_line 0%nat) ;;
    update_line_to_array ;;
    skip_on_label ;;
    line <- file_get line_struct ;;
    if count_eqb (count line) ZERO then ret tt
    else action_by_status (get_word_status (word1 line)).

Definition second_pass_on_curr_file : M unit :=
  file_set (set_count_line 0) ;;
  modify (set_extern_list EmptyString) ;;
  file_set (set_IC FIRST_CELL_IN_MEMORY) ;;
  expanded <- file_get file_am ;;
  for_each_line second_pass_on_line (read_lines expanded) ;;
  failed <- file_get error_flag ;;
  when (negb failed) create_all_files ;;
  file_set (set_head_label_list []).

Definition start_second_pass : M unit := second_pass_on_curr_file.

End WithPadding.

End SecondPass.

(* ================================================================= *)
(** ** main.c *)

(** [start_assembly_process_on_file] for an input file of content
    [source_text]: the final state of the program, or [None] when the
    translation runs into undefined behaviour. *)
Definition start_assembly_process_on_file (padding_bits : Z -> Z)
    (source_text : string) : option machine :=
  exec (PreAssembly.start_pre_assembly ;;
        FirstPass.start_first_pass padding_bits ;;
        SecondPass.start_second_pass padding_bits)
       (initial_machine source_text).

(** The figure that [print_end_of_file] reports as the number of lines
    written for a successful translation. *)
Definition lines_parsed_into_file (file_struct : item_file) : Z :=
  IC file_struct + DC file_struct - FIRST_CELL_IN_MEMORY.

(* ================================================================= *)
(** ** file_tool.c: the names of the files *)

(** The functions of file_tool.c that build and check file names.  The
    passes above work on the contents of the files; the names under
    which [open_file] opens them are built here.  A name is the text of
    a C string, the characters before its NUL, and a buffer is known by
    its size in bytes: writing a text and its NUL into a buffer that is
    too small is undefined. *)
Module FileTool.

Inductive file_ext : Type :=
  | EXT_INPUT | EXT_MACRO | EXT_OBJECT | EXT_EXTERN | EXT_ENTRY.

Inductive file_exists_status : Type := NO_EXISTS | EXISTS | TOO_LONG.

Definition MAX_FILE_NAME_LENGTH : nat := 255.

Definition MAX_FILE_EXTENSION_LENGTH : nat := 4.

(** [strcpy (dest, src)] for a [dest] of [size] bytes. *)
Definition strcpy (size : nat) (src : string) : option string :=
  if (String.length src + 1 <=? size)%nat then Some src else None.

(** [strcat (dest, src)] for a [dest] of [size] bytes that holds the
    text [dest]. *)
Definition strcat (size : nat) (dest src : string) : option string :=
  if (String.length dest + String.length src + 1 <=? size)%nat
  then Some (dest ++ src)%string else None.

Definition valid_file_name (name_file : string) : bool :=
  if (MAX_FILE_NAME_LENGTH <? String.length name_file)%nat then false else true.

(** The text that the [switch] of [get_file_with_extension] appends. *)
Definition extension (ext : file_ext) : string :=
  match ext with
  | EXT_MACRO => ".am"
  | EXT_OBJECT => ".ob"
  | EXT_EXTERN => ".ext"
  | EXT_ENTRY => ".ent"
  | EXT_INPUT => ".as"
  end.

Definition get_file_with_extension (name_file : string) (ext : file_ext) : option string :=
  let size := (String.length name_file + MAX_FILE_EXTENSION_LENGTH)%nat in
  match strcpy size name_file with
  | Some full_name => strcat size full_name (extension ext)
  | None => None
  end.

(** [file_exists]; [present] tells the paths that [access] finds. *)
Definition file_exists (present : string -> bool) (name_file : string)
  : option file_exists_status :=
  if negb (valid_file_name name_file) then Some TOO_LONG
  else
    match get_file_with_extension name_file EXT_INPUT with
    | Some full_name => Some (if present full_name then EXISTS else NO_EXISTS)
    | None => None
    end.

(** [strcpy (new_file->name_file, name_file)] in
    [create_new_file_struct]: the field has [MAX_FILE_NAME_LENGTH]
    bytes. *)
Definition create_new_file_struct_name (name_file : string) : option string :=
  strcpy MAX_FILE_NAME_LENGTH name_file.

End FileTool.

(* ================================================================= *)
(** * The vocabulary of the properties *)

(* ================================================================= *)
(** ** The base-64 encoding of a word *)

(** The 6-bit value of a character of the alphabet: its position in
    [base64_table]. *)
Fixpoint table_index (table : string) (c : ascii) (i : Z) : option Z :=
  match table with
  | String d rest => if char_eqb c d then Some i else table_index rest c (i + 1)
  | EmptyString => None
  end.

Definition base64_value (c : ascii) : option Z := table_index base64_table c 0.

(** Bits [low .. high] of [w]. *)
Definition bits (w low high : Z) : Z :=
  Z.land (Z.shiftr w low) (Z.ones (high - low + 1)).

(** Whether every index below [n] is the value of the table character
    it selects. *)
Fixpoint table_round_trip (n : nat) : bool :=
  match n with
  | O => true
  | S k =>
      match base64_value (char_at base64_table k) with
      | Some v => (v =? Z.of_nat k) && table_round_trip k
      | None => false
      end
  end.

(* ================================================================= *)
(** ** The symbol table *)

(** The records of a table that carry the name [name]. *)
Definition records_named (name : string) (head : list item_label) : list item_label :=
  filter (fun r => str_eq (name_label r) name) head.

(* ================================================================= *)
(** ** Numeric literals, label names, reserved words *)

(** The text of a line end. *)
Definition nl : string := String LF EmptyString.

(** A machine that is about to process the line [text] from the index
    [pos] on, with [dc] words of data already stored. *)
Definition machine_at (text : string) (pos : nat) (dc : Z) : machine :=
  let m := initial_machine EmptyString in
  set_sfile (set_DC dc (set_pos_in_line pos (set_line_text text (sfile m)))) m.

(** Reserved lexemes, in the words of the specification. *)
Definition directive_names : list string :=
  [".data"; ".string"; ".entry"; ".extern"]%string.

Definition macro_keywords : list string := ["mcro"; "endmcro"]%string.

Definition register_names : list string :=
  ["@r0"; "@r1"; "@r2"; "@r3"; "@r4"; "@r5"; "@r6"; "@r7"]%string.

Definition opcode_names : list string :=
  ["mov"; "cmp"; "add"; "sub"; "not"; "clr"; "lea"; "inc"; "dec"; "jmp";
   "bne"; "red"; "prn"; "jsr"; "rts"; "stop"]%string.

Definition in_list (name : string) (l : list string) : bool :=
  existsb (str_eq name) l.

Fixpoint all_alnum (s : string) : bool :=
  match s with
  | EmptyString => true
  | String c r => (isalpha c || isdigit c) && all_alnum r
  end.

Fixpoint no_line_end (s : string) : bool :=
  match s with
  | EmptyString => true
  | String c r => negb (is_line_end c) && no_line_end r
  end.

(** The validity of a label name as the specification words it: starts
    with a letter, only letters and digits, length below 32, not a
    reserved word, where the reserved words are [reserved]. *)
Definition label_name_rule (reserved : list string) (name : string) : bool :=
  isalpha (char_at name 0)
  && all_alnum name
  && (String.length name <? 32)%nat
  && negb (in_list name reserved).

(** The words that [is_name_a_reserved_word] compares with. *)
Definition compared_words : list string :=
  [".data"; ".string"; ".entry"; ".extern";
   "@r0"; "@r2"; "@r3"; "@r4"; "@r5"; "@r6"; "@r7";
   "mov"; "cmp"; "add"; "sub"; "not"; "clr"; "lea"; "inc"; "dec"; "jmp";
   "bne"; "red"; "prn"; "jsr"; "rts"; "stop"]%string.

(* ================================================================= *)
(** ** Relations that a computation maintains *)

(** [preserves R c]: every run of [c] that ends relates the state before
    and the state after by [R]. *)
Definition preserves {A : Type} (R : relation machine) (c : M A) : Prop :=
  forall (m : machine) (a : A) (m' : machine), c m = Some (a, m') -> R m m'.

(** A set error flag comes with a diagnostic on the console. *)
Definition reported (m : machine) : Prop :=
  error_flag (sfile m) = true -> console m <> [].

(** What every step of the first and of the second pass maintains: the
    expanded file and the artefacts are not touched, an error flag that
    is set stays set and comes with a diagnostic, and the data counter
    does not decrease. *)
Definition steady : relation machine :=
  fun m m' =>
    file_am (sfile m') = file_am (sfile m)
    /\ file_ob (sfile m') = file_ob (sfile m)
    /\ file_ent (sfile m') = file_ent (sfile m)
    /\ file_ext (sfile m') = file_ext (sfile m)
    /\ (error_flag (sfile m) = true -> error_flag (sfile m') = true)
    /\ DC (sfile m) <= DC (sfile m')
    /\ (reported m -> reported m').

(** What the steps that neither encode an instruction nor start an
    [.extern] directive maintain besides: the instruction counter, the
    instruction array and the extern flag. *)
Definition quiet : relation machine :=
  fun m m' =>
    IC (sfile m') = IC (sfile m)
    /\ instruction_array (sfile m') = instruction_array (sfile m)
    /\ extern_flag (sfile m') = extern_flag (sfile m)
    /\ steady m m'.

(* ================================================================= *)
(** ** The first word of an instruction *)

(** The line is kept, besides what [quiet] keeps. *)
Definition quiet_line : relation machine :=
  fun m m' => quiet m m' /\ line_struct (sfile m') = line_struct (sfile m).

(** The cell of index [i], once it lies below [IC], is kept together
    with the line and the error flag. *)
Definition keeps_cell (i : Z) : relation machine :=
  fun m m' =>
    line_struct (sfile m') = line_struct (sfile m)
    /\ error_flag (sfile m') = error_flag (sfile m)
    /\ (i < IC (sfile m) ->
        i < IC (sfile m')
        /\ array_read (instruction_array (sfile m')) i
           = array_read (instruction_array (sfile m)) i).

(** A component of the state is kept. *)
Definition keeps {B : Type} (f : machine -> B) : relation machine :=
  fun m m' => f m' = f m.

(** A machine whose current line is [text], tokenized. *)
Definition machine_with_line (text : string) : machine :=
  let m := machine_at text 0 0 in
  match create_new_line_struct text with
  | Some line => set_sfile (set_line_struct line (sfile m)) m
  | None => m
  end.

(** The state in which a run of [c] from [m] ends. *)
Definition state_after {A : Type} (c : M A) (m : machine) : machine :=
  match c m with
  | Some (_, m') => m'
  | None => m
  end.

(* ================================================================= *)
(** ** The number of words a line contributes to the code *)

(** The tokenized line once a leading label has been removed. *)
Definition parsed_line (text : string) : option item_line :=
  match create_new_line_struct text with
  | Some l =>
      match is_label l with
      | Some (true, l') => Some (delete_label_from_line_struct l')
      | Some (false, l') => Some l'
      | None => None
      end
  | None => None
  end.

(** The kind of a line and its tokens, for a line that is neither empty
    nor a comment nor a lone label. *)
Definition line_status_of (line : string) : option (line_status * item_line) :=
  let text := c_str line in
  if is_line_empty text then None
  else
    match parsed_line text with
    | Some l =>
        if count_eqb (count l) ZERO then None
        else Some (FirstPass.get_word_status (word1 l), l)
    | None => None
    end.

(** The operands of an instruction line, in the words of the
    specification: an instruction of the two-operand group has its
    source in [w2] and its destination in [w4], an instruction of the
    one-operand group has its destination in [w2], and any other line
    has no operand.  An absent operand is the empty token. *)
Definition two_operand_group : list string :=
  ["mov"; "cmp"; "add"; "sub"; "lea"]%string.

Definition one_operand_group : list string :=
  ["not"; "clr"; "inc"; "dec"; "jmp"; "bne"; "red"; "prn"; "jsr"]%string.

Definition source_operand (l : item_line) : string :=
  if in_list (word1 l) two_operand_group then word2 l else EmptyString.

Definition destination_operand (l : item_line) : string :=
  if in_list (word1 l) two_operand_group then word4 l
  else if in_list (word1 l) one_operand_group then word2 l
  else EmptyString.

(** The numeric value of the addressing method of an operand token:
    0 for an absent operand, 5 for a register name, 1 for a token that
    [is_number] takes for an integer literal, 3 for anything else. *)
Definition method_value (token : string) : Z :=
  if char_eqb (char_at token 0) NUL then 0
  else if in_list token register_names then 5
  else if is_number token then 1
  else 3.

(** The addressing methods of the operands of an instruction line. *)
Definition operand_methods (l : item_line) : addressing_method * addressing_method :=
  match get_instruction_type (word1 l) with
  | MOV | CMP | ADD | SUB | LEA =>
      (get_addressing_method_type (word2 l), get_addressing_method_type (word4 l))
  | NOT | CLR | INC | DEC | JMP | BNE | RED | PRN | JSR =>
      (NOT_EXIST, get_addressing_method_type (word2 l))
  | _ => (NOT_EXIST, NOT_EXIST)
  end.

(** Operand words: one per operand, and one for two registers. *)
Definition operand_words (src dst : addressing_method) : Z :=
  (match src with NOT_EXIST => 0 | _ => 1 end)
  + (match dst with
     | NOT_EXIST => 0
     | REGISTER => if addressing_method_eqb src REGISTER then 0 else 1
     | _ => 1
     end).

Definition instruction_words (l : item_line) : Z :=
  1 + operand_words (fst (operand_methods l)) (snd (operand_methods l)).

Definition line_code_words (line : string) : Z :=
  match line_status_of line with
  | Some (STATUS_CODE, l) => instruction_words l
  | _ => 0
  end.

Definition line_declares_extern (line : string) : bool :=
  match line_status_of line with
  | Some (STATUS_EXTERN, _) => true
  | _ => false
  end.

(** ** The instruction encoder of the first pass *)

(** The encoder keeps the extern flag, besides what every step keeps. *)
Definition coding : relation machine :=
  fun m m' => extern_flag (sfile m') = extern_flag (sfile m) /\ steady m m'.

(** ** A line of the first pass *)

(** The code words that the lines of a file contribute. *)
Fixpoint code_words (lines : list string) : Z :=
  match lines with
  | [] => 0
  | line :: rest => line_code_words line + code_words rest
  end.

(* ================================================================= *)
(** ** The second pass *)

(** What every step of a line of the second pass maintains: the data
    and the extern flag, besides what every step keeps. *)
Definition still : relation machine :=
  fun m m' =>
    DC (sfile m') = DC (sfile m)
    /\ data_array (sfile m') = data_array (sfile m)
    /\ extern_flag (sfile m') = extern_flag (sfile m)
    /\ steady m m'.

(** The steps of the second pass that leave the code alone. *)
Definition hushed : relation machine :=
  fun m m' =>
    IC (sfile m') = IC (sfile m)
    /\ line_struct (sfile m') = line_struct (sfile m)
    /\ still m m'.

(* ================================================================= *)
(** ** The lines of the object file *)

(** The number of newline characters of a text, which is the number of
    its lines when every line ends with a newline. *)
Fixpoint count_newlines (text : string) : Z :=
  match text with
  | EmptyString => 0
  | String c rest => (if char_eqb c LF then 1 else 0) + count_newlines rest
  end.

(** The lines of an object file after its header line. *)
Definition word_lines (object_file : string) : Z := count_newlines object_file - 1.

(** A text without a newline character. *)
Fixpoint no_newline (text : string) : bool :=
  match text with
  | EmptyString => true
  | String c rest => negb (char_eqb c LF) && no_newline rest
  end.

(* ================================================================= *)
(** ** The three passes on a file *)

(** What the macro expander maintains: it does not touch the counters,
    the extern flag or the artefacts. *)
Definition preparing : relation machine :=
  fun m m' =>
    IC (sfile m') = IC (sfile m)
    /\ DC (sfile m') = DC (sfile m)
    /\ extern_flag (sfile m') = extern_flag (sfile m)
    /\ file_ob (sfile m') = file_ob (sfile m)
    /\ file_ext (sfile m') = file_ext (sfile m)
    /\ (error_flag (sfile m) = true -> error_flag (sfile m') = true)
    /\ (reported m -> reported m').

(** The state at the end of the first pass, whose counters are the
    final instruction counter and the final data counter. *)
Definition first_pass_result (padding_bits : Z -> Z) (source_text : string)
  : option machine :=
  exec (PreAssembly.start_pre_assembly ;; FirstPass.start_first_pass padding_bits)
       (initial_machine source_text).

(* ================================================================= *)
(** ** The bound on the repetitions of the comma loops *)

(** The line and a lower bound of the position in it. *)
Definition advancing : relation machine :=
  fun m m' =>
    line_text (sfile m') = line_text (sfile m)
    /\ (pos_in_line (sfile m) <= pos_in_line (sfile m'))%nat.

(** The characters of the line from the current position on. *)
Definition characters_left (m : machine) : nat :=
  String.length (line_text (sfile m)) - pos_in_line (sfile m).

(** The data array has room for a value per character left, and one
    more. *)
Definition data_room (m : machine) : Prop :=
  0 <= DC (sfile m)
  /\ DC (sfile m) + Z.of_nat (characters_left m)
     < Z.of_nat (List.length (data_array (sfile m))).

(** Every word of the line fits the name field of a label. *)
Definition short_words (m : machine) : Prop :=
  forall pos : nat,
    (String.length
       (fst (FirstPass.next_word_loop (string_from pos (line_text (sfile m))) pos))
     < MAX_NAME_LABEL_LENGTH)%nat.

(** Every word of the line that [is_number] accepts denotes a number
    that an [int] holds. *)
Definition int_values (m : machine) : Prop :=
  forall pos : nat,
    let word := fst (FirstPass.next_word_loop (string_from pos (line_text (sfile m))) pos) in
    is_number word = true -> int_range (atoi_value word) = true.

(* ================================================================= *)
(** ** The artefacts of a translation without a diagnostic *)

(** The state in which the translation of [source_text] ends. *)
Definition translated (source_text : string) : machine :=
  match start_assembly_process_on_file (fun _ => 0) source_text with
  | Some m => m
  | None => initial_machine source_text
  end.

(** A program with a label, three instructions, a [.data] and a
    [.string] directive. *)
Definition sample_program : string :=
  ("MAIN: mov @r1, LEN" ++ nl ++ "prn -5" ++ nl ++ "stop" ++ nl
     ++ "LEN: .data 6, -9" ++ nl ++ "STR: .string " ++ String QUOTE "ab"
     ++ String QUOTE nl)%string.

(* ================================================================= *)
(** ** Lines, words and operands *)

(** The characters of a line before its first newline or NUL. *)
Fixpoint line_body (line : string) : string :=
  match line with
  | EmptyString => EmptyString
  | String c rest => if is_line_end c then EmptyString else String c (line_body rest)
  end.

(** The number of commas of a text. *)
Fixpoint count_commas (text : string) : nat :=
  match text with
  | EmptyString => O
  | String c rest => (if char_eqb c COMMA then 1 else 0) + count_commas rest
  end.

(** A text without a NUL inside, as every C string is. *)
Fixpoint no_nul (text : string) : bool :=
  match text with
  | EmptyString => true
  | String c rest => negb (char_eqb c NUL) && no_nul rest
  end.

(* ================================================================= *)
(** ** The listing of the entries *)

(** The line of the entry listing for a record: the name, a tab, the
    address in decimal and a newline. *)
Definition entry_line (r : item_label) : string :=
  (name_label r ++ String TAB EmptyString ++ print_int (address_label r)
     ++ String LF EmptyString)%string.

(** The lines of the [ENTRY] records of a table, in the order of the
    table. *)
Fixpoint entry_lines (head : list item_label) : string :=
  match head with
  | [] => EmptyString
  | r :: rest =>
      if type_of_label_eqb (type r) ENTRY
      then (entry_line r ++ entry_lines rest)%string
      else entry_lines rest
  end.

(* ================================================================= *)
(** ** The lines of a file *)

(** The lines of a list one after the other. *)
Fixpoint join_lines (lines : list string) : string :=
  match lines with
  | [] => EmptyString
  | line :: rest => (line ++ join_lines rest)%string
  end.

(** A text whose only newline, if any, is its last character. *)
Fixpoint single_line (text : string) : bool :=
  match text with
  | EmptyString => true
  | String c EmptyString => true
  | String c rest => negb (char_eqb c LF) && single_line rest
  end.

(** A line that the tokenizer can hold and whose first word is neither
    of the two keywords of a macro definition. *)
Definition plain_line (line : string) : bool :=
  match create_new_line_struct (c_str line) with
  | Some l =>
      negb (str_eq (word1 l) PreAssembly.START_MACRO)
      && negb (str_eq (word1 l) PreAssembly.END_MACRO)
  | None => false
  end.

(* ================================================================= *)
(** ** The bookkeeping of the diagnostics *)

(** Between two states diagnostics are only added, the error counter
    counts the added ones, and the error flag is set exactly when it was
    set or one was added. *)
Definition accounted : relation machine :=
  fun m m' =>
    exists added : list diagnostic,
      console m' = console m ++ added
      /\ count_error (sfile m') = count_error (sfile m) + Z.of_nat (List.length added)
      /\ (error_flag (sfile m') = true
          <-> error_flag (sfile m) = true \/ added <> []).

(** The three artefacts and the entry flag are as they were. *)
Definition unwritten : relation machine :=
  fun m m' =>
    file_ob (sfile m') = file_ob (sfile m)
    /\ file_ent (sfile m') = file_ent (sfile m)
    /\ file_ext (sfile m') = file_ext (sfile m)
    /\ entry_flag (sfile m') = entry_flag (sfile m).

(** Whether a line of the expanded file is an [.entry] directive. *)
Definition line_declares_entry (line : string) : bool :=
  match line_status_of line with
  | Some (STATUS_ENTRY, _) => true
  | _ => false
  end.

(* ================================================================= *)
(** ** Machines for the examples *)

(** A machine whose current line is [text], tokenized, with the
    addressing methods of the operands filled in. *)
Definition machine_with_operands (text : string) : machine :=
  let m := machine_with_line text in
  state_after
    (FirstPass.update_addressing_method_type
       (get_instruction_type (word1 (line_struct (sfile m))))) m.

(* ================================================================= *)
(** ** The words of a tokenized line *)

Definition words_of (line : item_line) : list string :=
  [word1 line; word2 line; word3 line; word4 line; word5 line].

(** A text without a space, a tab, a newline or a NUL. *)
Fixpoint solid (text : string) : bool :=
  match text with
  | EmptyString => true
  | String c rest => negb (is_blank c || is_line_end c) && solid rest
  end.

(** A word as the tokenizer is meant to cut it: nothing that separates
    words inside, and a comma only as a word of its own. *)
Definition clean_word (w : string) : bool :=
  solid w && ((count_commas w =? 0)%nat || str_eq w ",").

(** Every comma of the text has a space after it and, unless [free]
    allows a comma at the very start, a space before it. *)
Fixpoint spaced (free : bool) (text : string) : bool :=
  match text with
  | EmptyString => true
  | String c rest =>
      (if char_eqb c COMMA
       then free && match rest with
                    | String d _ => char_eqb d SPACE
                    | EmptyString => false
                    end
       else true)
      && spaced (char_eqb c SPACE) rest
  end.

(* ================================================================= *)
(** ** The characters of a string directive *)

(** A text without a double quote, a newline or a NUL. *)
Fixpoint plain_characters (text : string) : bool :=
  match text with
  | EmptyString => true
  | String c rest => negb (char_eqb c QUOTE) && negb (is_line_end c) && plain_characters rest
  end.

(** The word that [save_string] stores for a character. *)
Definition character_word (c : ascii) : Z := to_unsigned (char_to_int c).

(** The index at which [save_string] looks for the opening quote: past
    the directive word and the blanks that follow it. *)
Definition string_operand_start (m : machine) : nat :=
  let text := line_text (sfile m) in
  skip_white_character (skip_one_word_in_line (pos_in_line (sfile m)) text) text.

(* ================================================================= *)
(** * Properties *)


(* ================================================================= *)
(** ** The base-64 encoding of a word *)

Lemma get_specific_bits_6_11 (word : Z) :
  get_specific_bits word 6 11 = bits word 6 11.
Proof.
  unfold get_specific_bits, bits.
  assert (Hmask : to_unsigned (Z.shiftl (to_unsigned (pow_math (11 - 6 + 1) - 1)) 6)
                  = Z.shiftl (Z.ones 6) 6) by reflexivity.
  rewrite Hmask, Z.shiftr_land, Z.shiftr_shiftl_l by lia.
  reflexivity.
Qed.

Lemma get_specific_bits_0_5 (word : Z) :
  get_specific_bits word 0 5 = bits word 0 5.
Proof.
  unfold get_specific_bits, bits.
  assert (Hmask : to_unsigned (Z.shiftl (to_unsigned (pow_math (5 - 0 + 1) - 1)) 0)
                  = Z.ones 6) by reflexivity.
  rewrite Hmask, !Z.shiftr_0_r. reflexivity.
Qed.

Lemma bits_range (w low high : Z) :
  0 <= high - low + 1 -> 0 <= bits w low high < 2 ^ (high - low + 1).
Proof.
  intros H. unfold bits. rewrite Z.land_ones by assumption.
  apply Z.mod_pos_bound. apply Z.pow_pos_nonneg; lia.
Qed.

Lemma table_round_trip_below (n k : nat) :
  table_round_trip n = true -> (k < n)%nat ->
  base64_value (char_at base64_table k) = Some (Z.of_nat k).
Proof.
  induction n as [|n IH]; intros Hn Hk; [lia|].
  simpl in Hn.
  destruct (base64_value (char_at base64_table n)) as [v|] eqn:Hv; [|discriminate].
  apply andb_true_iff in Hn. destruct Hn as [Hvn Hrest].
  destruct (Nat.eq_dec k n) as [->|Hne].
  - rewrite Hv. apply Z.eqb_eq in Hvn. now subst.
  - apply IH; [assumption|lia].
Qed.

Lemma base64_value_table (i : Z) :
  0 <= i < 64 -> base64_value (char_at base64_table (Z.to_nat i)) = Some i.
Proof.
  intros Hi.
  rewrite (table_round_trip_below 64 (Z.to_nat i)); [f_equal; lia | reflexivity | lia].
Qed.

Lemma bits_split_12 (w : Z) :
  0 <= w < 2 ^ 12 -> 64 * bits w 6 11 + bits w 0 5 = w.
Proof.
  intros Hw. unfold bits.
  rewrite !Z.land_ones, Z.shiftr_0_r, Z.shiftr_div_pow2 by lia.
  change (2 ^ (11 - 6 + 1)) with 64. change (2 ^ (5 - 0 + 1)) with 64.
  change (2 ^ 6) with 64. change (2 ^ 12) with 4096 in Hw.
  rewrite (Z.mod_small (w / 64) 64).
  - pose proof (Z.div_mod w 64). lia.
  - split; [apply Z.div_pos; lia | apply Z.div_lt_upper_bound; lia].
Qed.

Lemma bits_mod_12 (stored low high : Z) :
  0 <= low -> low <= high -> high < 12 ->
  bits (stored mod 2 ^ 12) low high = bits stored low high.
Proof.
  intros Hl Hlh Hh. unfold bits. apply Z.bits_inj'. intros n Hn.
  rewrite !Z.land_spec, !Z.shiftr_spec by assumption.
  destruct (Z.ltb_spec n (high - low + 1)).
  - rewrite Z.mod_pow2_bits_low by lia. reflexivity.
  - rewrite Z.ones_spec_high by lia. now rewrite !andb_false_r.
Qed.

(** C2.  For every 12-bit word [w], and every stored 32-bit cell whose
    value modulo 2^12 is [w], the base-64 text of the cell is two
    characters of the alphabet and a newline; the value of the first
    character is bits 6-11 of [w], the value of the second is bits 0-5,
    and the two values concatenated high-then-low give back [w].  The
    character of value 0 is 'A'. *)
Theorem base64_encoding_of_word (w stored : Z) :
  0 <= w < 2 ^ 12 ->
  stored mod 2 ^ 12 = w ->
  exists c1 c2 : ascii,
    convert_binary_to_64base stored = String c1 (String c2 (String LF EmptyString))
    /\ base64_value c1 = Some (bits w 6 11)
    /\ base64_value c2 = Some (bits w 0 5)
    /\ 64 * bits w 6 11 + bits w 0 5 = w
    /\ base64_value "A"%char = Some 0.
Proof.
  intros Hw Hmod.
  exists (char_at base64_table (Z.to_nat (get_specific_bits stored 6 11))),
         (char_at base64_table (Z.to_nat (get_specific_bits stored 0 5))).
  split; [reflexivity|].
  rewrite get_specific_bits_6_11, get_specific_bits_0_5.
  rewrite <- (bits_mod_12 stored 6 11), <- (bits_mod_12 stored 0 5), Hmod by lia.
  repeat split.
  - apply base64_value_table. apply (bits_range w 6 11). lia.
  - apply base64_value_table. apply (bits_range w 0 5). lia.
  - apply bits_split_12. assumption.
Qed.

Lemma base64_encoding_of_word_witness :
  exists c1 c2 : ascii,
    convert_binary_to_64base (2580 + 5 * 4096)
      = String c1 (String c2 (String LF EmptyString))
    /\ base64_value c1 = Some (bits 2580 6 11)
    /\ base64_value c2 = Some (bits 2580 0 5)
    /\ 64 * bits 2580 6 11 + bits 2580 0 5 = 2580
    /\ base64_value "A"%char = Some 0.
Proof.
  apply (base64_encoding_of_word 2580 (2580 + 5 * 4096)).
  - vm_compute. split; [discriminate | reflexivity].
  - reflexivity.
Defined.

(* ================================================================= *)
(** ** The symbol table *)

Lemma str_eq_true (a b : string) : str_eq a b = true <-> a = b.
Proof. apply String.eqb_eq. Qed.

Lemma str_eq_false (a b : string) : str_eq a b = false <-> a <> b.
Proof. apply String.eqb_neq. Qed.

Lemma add_to_list_label_loop_present (rest : list item_label) :
  forall (temp_node new_node : item_label) (name : string),
    In name (map name_label (temp_node :: rest)) ->
    add_to_list_label_loop temp_node rest name new_node
    = (LABEL_ALREADY_EXISTS, temp_node :: rest).
Proof.
  induction rest as [|next rest IH]; intros temp_node new_node name Hin; simpl.
  - destruct Hin as [Heq|[]]. apply str_eq_true in Heq. now rewrite Heq.
  - destruct (str_eq (name_label temp_node) name) eqn:Hcmp; simpl; [reflexivity|].
    rewrite IH; [reflexivity|].
    destruct Hin as [Heq|Hin]; [|exact Hin].
    apply str_eq_true in Heq. congruence.
Qed.

Lemma add_to_list_label_loop_absent (rest : list item_label) :
  forall (temp_node new_node : item_label) (name : string),
    ~ In name (map name_label (temp_node :: rest)) ->
    add_to_list_label_loop temp_node rest name new_node
    = (NO_ERROR, (temp_node :: rest) ++ [new_node]).
Proof.
  induction rest as [|next rest IH]; intros temp_node new_node name Hnin; simpl.
  - destruct (str_eq (name_label temp_node) name) eqn:Hcmp; [|reflexivity].
    apply str_eq_true in Hcmp. exfalso. apply Hnin. now left.
  - destruct (str_eq (name_label temp_node) name) eqn:Hcmp; simpl.
    + apply str_eq_true in Hcmp. exfalso. apply Hnin. now left.
    + rewrite IH; [reflexivity|]. intros Hin. apply Hnin. now right.
Qed.

Lemma records_named_absent (name : string) (head : list item_label) :
  ~ In name (map name_label head) -> records_named name head = [].
Proof.
  induction head as [|r head IH]; intros Hnin; simpl; [reflexivity|].
  destruct (str_eq (name_label r) name) eqn:Hcmp.
  - apply str_eq_true in Hcmp. exfalso. apply Hnin. now left.
  - apply IH. intros Hin. apply Hnin. now right.
Qed.

Lemma records_named_unique (name : string) (head : list item_label) :
  NoDup (map name_label head) -> In name (map name_label head) ->
  exists r, records_named name head = [r] /\ In r head /\ name_label r = name.
Proof.
  induction head as [|r head IH]; intros Hnd Hin; [destruct Hin|].
  simpl in Hnd. inversion Hnd as [|x l Hnotin Hnd']; subst.
  simpl. destruct (str_eq (name_label r) name) eqn:Hcmp.
  - apply str_eq_true in Hcmp. exists r. subst name.
    rewrite records_named_absent by assumption. repeat split. now left.
  - apply str_eq_false in Hcmp. destruct Hin as [Heq|Hin]; [contradiction|].
    destruct (IH Hnd' Hin) as (r' & Hrec & Hr' & Hname).
    exists r'. repeat split; [assumption | now right | assumption].
Qed.

(** Insertion keeps the names of the table distinct. *)
Lemma add_to_list_label_NoDup (head head' : list item_label) (name : string)
    (address : Z) (kind : type_of_label) (code : error_code) :
  NoDup (map name_label head) ->
  add_to_list_label head name address kind = Some (code, head') ->
  NoDup (map name_label head').
Proof.
  intros Hnd Hadd. unfold add_to_list_label, create_node_label in Hadd.
  destruct (String.length name <? MAX_NAME_LABEL_LENGTH)%nat; [|discriminate].
  destruct (in_dec string_dec name (map name_label head)) as [Hin|Hnin].
  - destruct head as [|t rest]; [destruct Hin|].
    rewrite add_to_list_label_loop_present in Hadd by assumption.
    now inversion Hadd; subst.
  - assert (Hres : head' = head ++ [mk_label name address kind]).
    { destruct head as [|t rest]; [now inversion Hadd|].
      rewrite add_to_list_label_loop_absent in Hadd by assumption.
      now inversion Hadd. }
    subst head'. rewrite map_app. simpl.
    apply NoDup_app; [assumption | constructor; [intros [] | constructor] |].
    intros x Hx [Heq|[]]. subst x. contradiction.
Qed.

(** C4.  Inserting a name that the table already holds returns
    [LABEL_ALREADY_EXISTS] and leaves the table as it was, so a table
    whose names are distinct still holds exactly one record for the name,
    the original one; inserting a name that the table does not hold
    appends the new record and returns [NO_ERROR].  The name is one that
    fits the name field of a record. *)
Theorem symbol_table_insert (head : list item_label) (name : string)
    (address : Z) (kind : type_of_label) :
  (String.length name < MAX_NAME_LABEL_LENGTH)%nat ->
  (In name (map name_label head) ->
     add_to_list_label head name address kind = Some (LABEL_ALREADY_EXISTS, head)
     /\ (NoDup (map name_label head) ->
         exists r, records_named name head = [r] /\ In r head /\ name_label r = name))
  /\ (~ In name (map name_label head) ->
     add_to_list_label head name address kind
     = Some (NO_ERROR, head ++ [mk_label name address kind])).
Proof.
  intros Hfit. apply Nat.ltb_lt in Hfit.
  unfold add_to_list_label, create_node_label. rewrite Hfit.
  split.
  - intros Hin. split.
    + destruct head as [|t rest]; [destruct Hin|].
      now rewrite add_to_list_label_loop_present.
    + intros Hnd. now apply records_named_unique.
  - intros Hnin. destruct head as [|t rest]; [reflexivity|].
    now rewrite add_to_list_label_loop_absent.
Qed.

Lemma symbol_table_insert_witness :
  let head := [mk_label "X" 0 DATA; mk_label "MAIN" 100 CODE] in
  add_to_list_label head "MAIN" 7 DATA = Some (LABEL_ALREADY_EXISTS, head)
  /\ (exists r, records_named "MAIN" head = [r] /\ In r head
                /\ name_label r = "MAIN"%string)
  /\ add_to_list_label head "LOOP" 103 CODE
     = Some (NO_ERROR, head ++ [mk_label "LOOP" 103 CODE]).
Proof.
  intros head.
  assert (Hfit : forall name : string, (String.length name <= 4)%nat ->
                   (String.length name < MAX_NAME_LABEL_LENGTH)%nat)
    by (unfold MAX_NAME_LABEL_LENGTH; intros name Hlen; lia).
  destruct (symbol_table_insert head "MAIN" 7 DATA) as [Hpresent _];
    [apply Hfit; simpl; lia|].
  destruct Hpresent as [Hsame Hone]; [simpl; tauto|].
  destruct (symbol_table_insert head "LOOP" 103 CODE) as [_ Habsent];
    [apply Hfit; simpl; lia|].
  split; [exact Hsame|]. split.
  - apply Hone. simpl. repeat constructor; simpl; intuition discriminate.
  - apply Habsent. simpl. intuition discriminate.
Defined.

(** The table that [update_address_of_data] returns, record by record. *)
Lemma update_address_of_data_records (head : list item_label) (offset : Z) :
  forall head' : list item_label,
    update_address_of_data head offset = Some head' ->
    Forall2
      (fun old new =>
         name_label new = name_label old
         /\ type new = type old
         /\ address_label new
            = match type old with
              | DATA => address_label old + offset
              | CODE | EXTERN | ENTRY => address_label old
              end)
      head head'.
Proof.
  induction head as [|r head IH]; intros head' H; cbn [update_address_of_data] in H.
  - injection H as <-. constructor.
  - destruct (type_of_label_eqb (type r) DATA) eqn:Hdata.
    + destruct (int_range (address_label r + offset)); [|discriminate].
      destruct (update_address_of_data head offset) as [rest'|]; [|discriminate].
      injection H as <-. constructor; [|now apply IH].
      destruct r as [n a k]; destruct k; try discriminate. simpl. auto.
    + destruct (update_address_of_data head offset) as [rest'|]; [|discriminate].
      injection H as <-. constructor; [|now apply IH].
      destruct r as [n a k]; destruct k; try discriminate; simpl; auto.
Qed.

(** [update_address_of_data] returns exactly when an [int] holds the
    new address of every [DATA] record. *)
Lemma update_address_of_data_returns (head : list item_label) (offset : Z) :
  Forall (fun r => type r = DATA -> INT_MIN <= address_label r + offset <= INT_MAX) head
  <-> exists head' : list item_label, update_address_of_data head offset = Some head'.
Proof.
  induction head as [|r head IH]; cbn [update_address_of_data].
  - split; [intros _; eexists; reflexivity | constructor].
  - split.
    + intros Hfit. inversion Hfit as [|? ? Hr Hrest]; subst.
      apply IH in Hrest as [rest' ->].
      destruct (type_of_label_eqb (type r) DATA) eqn:Hdata; [|eexists; reflexivity].
      assert (Hk : type r = DATA) by (destruct (type r); try discriminate; reflexivity).
      specialize (Hr Hk).
      assert (Hrange : int_range (address_label r + offset) = true).
      { unfold int_range. apply andb_true_iff. split; apply Z.leb_le; lia. }
      rewrite Hrange. eexists. reflexivity.
    + intros [head' H].
      destruct (type_of_label_eqb (type r) DATA) eqn:Hdata.
      * destruct (int_range (address_label r + offset)) eqn:Hrange; [|discriminate].
        destruct (update_address_of_data head offset) as [rest'|]; [|discriminate].
        constructor; [|apply IH; eexists; reflexivity].
        intros _. unfold int_range in Hrange.
        apply andb_true_iff in Hrange as [Hlow Hhigh].
        apply Z.leb_le in Hlow, Hhigh. lia.
      * destruct (update_address_of_data head offset) as [rest'|]; [|discriminate].
        constructor; [|apply IH; eexists; reflexivity].
        intros Hk. rewrite Hk in Hdata. discriminate.
Qed.

(** C5.  For an offset with which an [int] holds the new address of
    every [DATA] record, [update_address_of_data] returns a table of the
    same length and order; record by record the name and the kind are
    unchanged, the address of a [DATA] record is its old address plus
    the offset and the address of a [CODE], [EXTERN] or [ENTRY] record
    is unchanged. *)
Theorem rebase_data_frame (head : list item_label) (offset : Z) :
  Forall (fun r => type r = DATA -> INT_MIN <= address_label r + offset <= INT_MAX) head ->
  exists head' : list item_label,
    update_address_of_data head offset = Some head'
    /\ Forall2
         (fun old new =>
            name_label new = name_label old
            /\ type new = type old
            /\ address_label new
               = match type old with
                 | DATA => address_label old + offset
                 | CODE | EXTERN | ENTRY => address_label old
                 end)
         head head'.
Proof.
  intros Hfit. apply update_address_of_data_returns in Hfit as [head' Hrun].
  exists head'. split; [exact Hrun|].
  now apply update_address_of_data_records.
Qed.

Lemma rebase_data_frame_witness :
  let head :=
    [mk_label "LIST" 0 DATA; mk_label "MAIN" 100 CODE; mk_label "K" 0 EXTERN;
     mk_label "END" 3 ENTRY; mk_label "STR" 4 DATA] in
  exists head' : list item_label,
    update_address_of_data head 103 = Some head'
    /\ Forall2
         (fun old new =>
            name_label new = name_label old
            /\ type new = type old
            /\ address_label new
               = match type old with
                 | DATA => address_label old + 103
                 | CODE | EXTERN | ENTRY => address_label old
                 end)
         head head'.
Proof.
  intros head. apply (rebase_data_frame head 103).
  unfold head.
  repeat (apply Forall_cons; [intros _; vm_compute; split; discriminate|]).
  apply Forall_nil.
Defined.

(* ================================================================= *)
(** ** Reasoning about the monad *)

(** Unfold the operations of the monad in the goal. *)
Ltac munfold :=
  cbv beta iota delta
    [bind ret file_get file_set gets modify when lift_option undefined exec].

Ltac munfold_in H :=
  cbv beta iota delta
    [bind ret file_get file_set gets modify when lift_option undefined exec] in H.

(** Simplify the projections of updated states. *)
Ltac state_cbn :=
  cbn [line_text pos_in_line count_macro count_error count_line IC DC error_flag extern_flag entry_flag data_array instruction_array line_struct head_macro_list head_label_list file_as file_am file_ob file_ent file_ext set_line_text set_pos_in_line set_count_macro set_count_error set_count_line set_IC set_DC set_error_flag set_extern_flag set_entry_flag set_data_array set_instruction_array set_line_struct set_head_macro_list set_head_label_list set_file_as set_file_am set_file_ob set_file_ent set_file_ext sfile curr_macro_text curr_macro_name macro_flag temp_head_macro_list extern_list console set_sfile set_curr_macro_text set_curr_macro_name set_macro_flag set_temp_head_macro_list set_extern_list set_console].

Ltac state_cbn_in H :=
  cbn [line_text pos_in_line count_macro count_error count_line IC DC error_flag extern_flag entry_flag data_array instruction_array line_struct head_macro_list head_label_list file_as file_am file_ob file_ent file_ext set_line_text set_pos_in_line set_count_macro set_count_error set_count_line set_IC set_DC set_error_flag set_extern_flag set_entry_flag set_data_array set_instruction_array set_line_struct set_head_macro_list set_head_label_list set_file_as set_file_am set_file_ob set_file_ent set_file_ext sfile curr_macro_text curr_macro_name macro_flag temp_head_macro_list extern_list console set_sfile set_curr_macro_text set_curr_macro_name set_macro_flag set_temp_head_macro_list set_extern_list set_console] in H.

Lemma length_list_update (l : list Z) (i : nat) (v : Z) :
  List.length (list_update l i v) = List.length l.
Proof.
  revert i. induction l as [|h t IH]; intros [|i]; simpl; auto.
Qed.

Lemma nth_error_list_update_same (l : list Z) (i : nat) (v : Z) :
  (i < List.length l)%nat -> nth_error (list_update l i v) i = Some v.
Proof.
  revert i. induction l as [|h t IH]; intros [|i] Hi; simpl in *; try lia; auto.
  apply IH. lia.
Qed.

Lemma nth_error_list_update_other (l : list Z) (i j : nat) (v : Z) :
  i <> j -> nth_error (list_update l i v) j = nth_error l j.
Proof.
  revert i j. induction l as [|h t IH]; intros [|i] [|j] Hne; simpl; auto; try lia.
Qed.

Lemma array_write_in_bounds (array : list Z) (i v : Z) :
  0 <= i < Z.of_nat (List.length array) ->
  array_write array i v = Some (list_update array (Z.to_nat i) v).
Proof.
  intros [Hlo Hhi]. unfold array_write.
  apply Z.leb_le in Hlo. apply Z.ltb_lt in Hhi. now rewrite Hlo, Hhi.
Qed.

Lemma array_write_inv (array array' : list Z) (i v : Z) :
  array_write array i v = Some array' ->
  0 <= i < Z.of_nat (List.length array)
  /\ array' = list_update array (Z.to_nat i) v.
Proof.
  unfold array_write. intros H.
  destruct (0 <=? i) eqn:Hlo; [|discriminate].
  destruct (i <? Z.of_nat (List.length array)) eqn:Hhi; [|discriminate].
  apply Z.leb_le in Hlo. apply Z.ltb_lt in Hhi. simpl in H.
  inversion H. auto.
Qed.

Lemma array_read_write_same (array array' : list Z) (i v : Z) :
  array_write array i v = Some array' -> array_read array' i = Some v.
Proof.
  intros H. apply array_write_inv in H. destruct H as [[Hlo Hhi] ->].
  unfold array_read. rewrite length_list_update.
  apply Z.leb_le in Hlo. pose proof Hhi as Hhi'. apply Z.ltb_lt in Hhi'.
  rewrite Hlo, Hhi'. simpl. apply nth_error_list_update_same. lia.
Qed.

Lemma array_read_write_other (array array' : list Z) (i j v : Z) :
  array_write array i v = Some array' -> i <> j ->
  array_read array' j = array_read array j.
Proof.
  intros H Hne. apply array_write_inv in H. destruct H as [[Hlo Hhi] ->].
  unfold array_read. rewrite length_list_update.
  destruct ((0 <=? j) && (j <? Z.of_nat (List.length array))) eqn:Hj; [|reflexivity].
  apply andb_true_iff in Hj. destruct Hj as [Hj1 Hj2]. apply Z.leb_le in Hj1.
  apply nth_error_list_update_other. lia.
Qed.

Lemma bind_inv {A B : Type} (c : M A) (k : A -> M B) (m : machine) (r : B * machine) :
  bind c k m = Some r ->
  exists (a : A) (m1 : machine), c m = Some (a, m1) /\ k a m1 = Some r.
Proof.
  unfold bind. destruct (c m) as [[a m1]|]; [|discriminate].
  intros H. exists a, m1. auto.
Qed.

Lemma when_inv (b : bool) (c : M unit) (m : machine) (r : unit * machine) :
  when b c m = Some r ->
  (b = true /\ c m = Some r) \/ (b = false /\ r = (tt, m)).
Proof.
  destruct b; simpl; intros H; [left; auto | right].
  inversion H. auto.
Qed.

Lemma file_get_inv {A : Type} (f : item_file -> A) (m m' : machine) (a : A) :
  file_get f m = Some (a, m') -> a = f (sfile m) /\ m' = m.
Proof. intros H. inversion H. auto. Qed.

Lemma file_set_inv (f : item_file -> item_file) (m m' : machine) (a : unit) :
  file_set f m = Some (a, m') -> m' = set_sfile (f (sfile m)) m.
Proof. intros H. inversion H. reflexivity. Qed.

Lemma ret_inv {A : Type} (a b : A) (m m' : machine) :
  ret a m = Some (b, m') -> b = a /\ m' = m.
Proof. intros H. inversion H. auto. Qed.

Lemma lift_option_inv {A : Type} (o : option A) (a : A) (m m' : machine) :
  lift_option o m = Some (a, m') -> o = Some a /\ m' = m.
Proof. destruct o; intros H; inversion H. auto. Qed.

Lemma exec_bind_inv {A B : Type} (c : M A) (k : M B) (m m' : machine) :
  exec (c ;; k) m = Some m' ->
  exists (a : A) (m1 : machine), c m = Some (a, m1) /\ exec k m1 = Some m'.
Proof.
  unfold exec, bind. destruct (c m) as [[a m1]|]; [|discriminate].
  intros H. exists a, m1. auto.
Qed.

Lemma exec_inv (c : M unit) (m m' : machine) :
  exec c m = Some m' -> c m = Some (tt, m').
Proof.
  unfold exec. destruct (c m) as [[[] m1]|]; [|discriminate].
  intros H. inversion H. reflexivity.
Qed.

Lemma bind_congr {A B : Type} (c : M A) (k1 k2 : A -> M B) (m : machine) :
  (forall a m', c m = Some (a, m') -> k1 a m' = k2 a m') ->
  bind c k1 m = bind c k2 m.
Proof.
  intros H. unfold bind. destruct (c m) as [[a m']|]; [|reflexivity]. now apply H.
Qed.

Lemma bind_assoc {A B C : Type} (c : M A) (f : A -> M B) (g : B -> M C) (m : machine) :
  bind (bind c f) g m = bind c (fun a => bind (f a) g) m.
Proof. unfold bind. destruct (c m) as [[a m']|]; reflexivity. Qed.

(* ================================================================= *)
(** ** Numeric literals, label names, reserved words *)



(** The whole translation of a [.data] line whose operand is a bare
    sign: one data word 0 and no diagnostic. *)
Example data_bare_sign_translation :
  exists m,
    start_assembly_process_on_file (fun _ => 0) (".data -" ++ nl) = Some m
    /\ console m = []
    /\ DC (sfile m) = 1
    /\ array_read (data_array (sfile m)) 0 = Some 0.
Proof. eexists. split; [vm_compute; reflexivity|]. repeat split. Qed.

Lemma label_name_loop_short (rest : string) :
  forall count_chars : nat,
    no_line_end rest = true ->
    (count_chars + String.length rest <= MAX_NAME_LABEL_LENGTH)%nat ->
    label_name_loop rest count_chars
    = if all_alnum rest then Some (count_chars + String.length rest)%nat else None.
Proof.
  induction rest as [|c r IH]; intros count_chars Hle Hlen; simpl.
  - f_equal. lia.
  - simpl in Hle, Hlen. apply andb_true_iff in Hle. destruct Hle as [Hc Hr].
    rewrite Hc. simpl.
    assert (Hcount : (count_chars <=? MAX_NAME_LABEL_LENGTH)%nat = true)
      by (apply Nat.leb_le; lia).
    rewrite Hcount.
    destruct (isalpha c || isdigit c) eqn:Hal.
    + apply orb_true_iff in Hal.
      assert (Hneg : negb (isalpha c) && negb (isdigit c) = false)
        by (destruct Hal as [-> | ->]; simpl; auto using andb_false_r).
      rewrite Hneg, IH by (assumption || lia). simpl.
      destruct (all_alnum r); [f_equal; lia | reflexivity].
    + apply orb_false_iff in Hal. destruct Hal as [-> ->]. reflexivity.
Qed.

Lemma is_name_a_reserved_word_compared (name : string) :
  is_name_a_reserved_word name = in_list name compared_words.
Proof.
  unfold is_name_a_reserved_word, in_list, compared_words. simpl.
  repeat match goal with
         | |- context [str_eq name ?w] => destruct (str_eq name w); [reflexivity|]
         end.
  reflexivity.
Qed.

Lemma in_list_letter_first (name : string) :
  isalpha (char_at name 0) = true ->
  in_list name compared_words
  = in_list name (directive_names ++ register_names ++ opcode_names).
Proof.
  intros Hfirst. unfold in_list, compared_words. simpl.
  destruct (str_eq name "@r1") eqn:Hr1.
  - apply str_eq_true in Hr1. subst name. discriminate.
  - reflexivity.
Qed.

(** C6, as amended.  For a name of at most 32 characters without a line
    end inside, [is_label_name_valid] accepts it exactly when it starts
    with a letter, has only letters and digits, is shorter than 32
    characters and is neither a directive, nor a register name, nor an
    opcode mnemonic. *)
Theorem label_name_validator (name : string) :
  (String.length name <= 32)%nat ->
  no_line_end name = true ->
  is_label_name_valid name
  = label_name_rule (directive_names ++ register_names ++ opcode_names) name.
Proof.
  intros Hlen Hle. unfold is_label_name_valid, label_name_rule.
  destruct (isalpha (char_at name 0)) eqn:Hfirst; cbn [andb negb].
  - rewrite is_name_a_reserved_word_compared, in_list_letter_first by assumption.
    rewrite label_name_loop_short by (assumption || (unfold MAX_NAME_LABEL_LENGTH; lia)).
    destruct (in_list name (directive_names ++ register_names ++ opcode_names));
      cbn [negb]; [now rewrite andb_false_r|].
    rewrite andb_true_r.
    destruct (all_alnum name); [|reflexivity]. cbn [andb Nat.add].
    unfold MAX_NAME_LABEL_LENGTH.
    destruct (Nat.eqb_spec (String.length name) 32) as [Heq|Hne].
    + symmetry. apply Nat.ltb_ge. lia.
    + symmetry. apply Nat.ltb_lt. lia.
  - now destruct (is_name_a_reserved_word name).
Qed.

Lemma label_name_validator_witness :
  is_label_name_valid "LOOP1"
  = label_name_rule (directive_names ++ register_names ++ opcode_names) "LOOP1".
Proof.
  apply (label_name_validator "LOOP1").
  - simpl. lia.
  - reflexivity.
Defined.

(** C6 as claimed fails: the macro keyword [mcro] is a reserved word of
    the claim, and the validator accepts it. *)
Lemma label_name_validator_counterexample :
  ~ (forall name : string,
       is_label_name_valid name = true
       <-> label_name_rule
             (directive_names ++ macro_keywords ++ register_names ++ opcode_names)
             name = true).
Proof.
  intros Hclaim. destruct (Hclaim "mcro"%string) as [Himp _].
  specialize (Himp eq_refl). discriminate.
Qed.

(** The length test of the validator beyond 32 characters: a name of 33
    letters is accepted. *)
Example label_name_of_33_letters :
  let name := "AAAAAAAAAAAAAAAAAAAAAAAAAAAAAAAAA"%string in
  String.length name = 33%nat /\ is_label_name_valid name = true.
Proof. split; reflexivity. Qed.

(* ================================================================= *)
(** ** Macro names that are register names *)

(** The register names other than [@r1] are rejected when the body of
    the macro is sealed: the diagnostic is raised and the macro table is
    unchanged. *)
Lemma macro_named_after_register_rejected (m : machine) :
  In (curr_macro_name m)
     ["@r0"; "@r2"; "@r3"; "@r4"; "@r5"; "@r6"; "@r7"]%string ->
  exists m',
    PreAssembly.add_new_macro_to_list m = Some (tt, m')
    /\ head_macro_list (sfile m') = head_macro_list (sfile m)
    /\ console m'
       = console m ++ [(MACRO_NAME_IS_INSTRUCTION_OR_DIRECTIVE, count_line (sfile m))].
Proof.
  intros Hin. unfold PreAssembly.add_new_macro_to_list, PreAssembly.add_error.
  munfold. cbn.
  assert (Hres : is_name_a_reserved_word (curr_macro_name m) = true).
  { simpl in Hin.
    repeat (destruct Hin as [<-|Hin]; [reflexivity|]). destruct Hin. }
  rewrite Hres. cbn. eexists. split; [reflexivity|]. cbn. split; reflexivity.
Qed.

(** C7 fails for [@r1]: [is_name_a_reserved_word] does not know the
    name, although [is_register] does; sealing a macro of that name adds
    it to the macro table without a diagnostic, and a source file that
    defines and invokes such a macro is translated without a
    diagnostic, the invocation being replaced by the body. *)
Theorem macro_named_r1_is_accepted :
  is_name_a_reserved_word "@r1" = false
  /\ is_register "@r1" = true
  /\ (exists m',
        PreAssembly.add_new_macro_to_list
          (set_curr_macro_text ("stop" ++ nl)
             (set_curr_macro_name "@r1" (initial_machine EmptyString)))
        = Some (tt, m')
        /\ head_macro_list (sfile m') = [mk_macro "@r1" ("stop" ++ nl)]
        /\ console m' = [])
  /\ (exists m,
        start_assembly_process_on_file (fun _ => 0)
          ("mcro @r1" ++ nl ++ "stop" ++ nl ++ "endmcro" ++ nl ++ "@r1" ++ nl)
        = Some m
        /\ console m = []
        /\ file_am (sfile m) = ("stop" ++ nl)%string
        /\ IC (sfile m) = 101).
Proof.
  split; [reflexivity|]. split; [reflexivity|]. split.
  - eexists. split; [vm_compute; reflexivity|]. split; reflexivity.
  - eexists. split; [vm_compute; reflexivity|]. repeat split.
Qed.

(* ================================================================= *)
(** ** Commas in a [.data] line *)

(** A comma where a value should start - before the first value or
    right after another comma - raises [INVALID_COMMA_POSITION]; nothing
    is stored and the line is left. *)
Lemma save_data_loop_comma (fuel : nat) (m : machine) :
  char_at (line_text (sfile m))
    (skip_white_character (pos_in_line (sfile m)) (line_text (sfile m))) = COMMA ->
  exists m',
    FirstPass.save_data_loop fuel m = Some (tt, m')
    /\ console m' = console m ++ [(INVALID_COMMA_POSITION, count_line (sfile m))]
    /\ error_flag (sfile m') = true
    /\ DC (sfile m') = DC (sfile m)
    /\ data_array (sfile m') = data_array (sfile m).
Proof.
  intros Hcomma.
  assert (Hstep : FirstPass.save_data_loop fuel m
                  = FirstPass.add_error INVALID_COMMA_POSITION
                      (set_sfile
                         (set_pos_in_line
                            (skip_white_character (pos_in_line (sfile m))
                               (line_text (sfile m))) (sfile m)) m)).
  { destruct fuel; simpl; munfold; cbn; rewrite Hcomma; reflexivity. }
  rewrite Hstep. unfold FirstPass.add_error. munfold. cbn.
  eexists. split; [reflexivity|]. cbn. repeat split.
Qed.

Example data_leading_comma :
  exists m,
    start_assembly_process_on_file (fun _ => 0) (".data ,1" ++ nl) = Some m
    /\ console m = [(INVALID_COMMA_POSITION, 1)]
    /\ DC (sfile m) = 0.
Proof. eexists. split; [vm_compute; reflexivity|]. split; reflexivity. Qed.

Example data_double_comma :
  exists m,
    start_assembly_process_on_file (fun _ => 0) (".data 1,,2" ++ nl) = Some m
    /\ console m = [(INVALID_COMMA_POSITION, 1)]
    /\ DC (sfile m) = 1.
Proof. eexists. split; [vm_compute; reflexivity|]. split; reflexivity. Qed.

(** C8 fails for a trailing comma: the line [.data 1,] is translated
    without a diagnostic and two words, 1 and 0, are stored. *)
Theorem data_trailing_comma_is_accepted :
  exists m,
    start_assembly_process_on_file (fun _ => 0) (".data 1," ++ nl) = Some m
    /\ console m = []
    /\ error_flag (sfile m) = false
    /\ DC (sfile m) = 2
    /\ firstn 2 (data_array (sfile m)) = [1; 0].
Proof. eexists. split; [vm_compute; reflexivity|]. repeat split. Qed.

(* ================================================================= *)
(** ** Relations that a computation maintains *)

Section Preserves.

Context (R : relation machine) {R_preorder : PreOrder R}.

Lemma preserves_ret {A : Type} (a : A) : preserves R (ret a).
Proof. intros m b m' H. inversion H. reflexivity. Qed.

Lemma preserves_undefined {A : Type} : preserves R (@undefined A).
Proof. intros m b m' H. discriminate. Qed.

Lemma preserves_gets {A : Type} (f : machine -> A) : preserves R (gets f).
Proof. intros m b m' H. inversion H. reflexivity. Qed.

Lemma preserves_file_get {A : Type} (f : item_file -> A) : preserves R (file_get f).
Proof. intros m b m' H. inversion H. reflexivity. Qed.

Lemma preserves_lift_option {A : Type} (o : option A) : preserves R (lift_option o).
Proof. destruct o; [apply preserves_ret | apply preserves_undefined]. Qed.

Lemma preserves_modify (f : machine -> machine) :
  (forall m, R m (f m)) -> preserves R (modify f).
Proof. intros Hf m b m' H. inversion H. apply Hf. Qed.

Lemma preserves_file_set (f : item_file -> item_file) :
  (forall m, R m (set_sfile (f (sfile m)) m)) -> preserves R (file_set f).
Proof. intros Hf m b m' H. inversion H. apply Hf. Qed.

Lemma preserves_bind {A B : Type} (c : M A) (k : A -> M B) :
  preserves R c -> (forall a, preserves R (k a)) -> preserves R (bind c k).
Proof.
  intros Hc Hk m b m' H. unfold bind in H.
  destruct (c m) as [[a m1]|] eqn:Hcm; [|discriminate].
  transitivity m1; [eapply Hc | eapply Hk]; eassumption.
Qed.

Lemma preserves_when (b : bool) (c : M unit) :
  preserves R c -> preserves R (when b c).
Proof. intros Hc. destruct b; [exact Hc | apply preserves_ret]. Qed.

Lemma preserves_for_each_line (body : string -> M unit) (lines : list string) :
  (forall line, preserves R (body line)) -> preserves R (for_each_line body lines).
Proof.
  intros Hbody. induction lines as [|line rest IH]; simpl.
  - apply preserves_ret.
  - apply preserves_bind; [apply Hbody | intros _; exact IH].
Qed.

End Preserves.

(** Decompose a goal [preserves R c] along the structure of [c]. *)
Ltac preserves_structure :=
  repeat
    (match goal with
     | |- PreOrder _ => exact _
     | |- preserves _ (ret _) => apply preserves_ret
     | |- preserves _ undefined => apply preserves_undefined
     | |- preserves _ (gets _) => apply preserves_gets
     | |- preserves _ (file_get _) => apply preserves_file_get
     | |- preserves _ (lift_option _) => apply preserves_lift_option
     | |- preserves _ (bind _ _) => apply preserves_bind
     | |- preserves _ (when _ _) => apply preserves_when
     | |- preserves _ (modify _) => apply preserves_modify; intros ?
     | |- preserves _ (file_set _) => apply preserves_file_set; intros ?
     | |- preserves _ (if ?b then _ else _) => destruct b
     | |- preserves _ (let (_, _) := ?p in _) => destruct p
     | |- preserves _ (match ?x with _ => _ end) => destruct x
     | |- forall _, preserves _ _ => intros ?
     end).

Lemma preserves_weaken {A : Type} (R R' : relation machine) (c : M A) :
  (forall m m', R m m' -> R' m m') -> preserves R c -> preserves R' c.
Proof. intros Himp Hc m a m' H. apply Himp. eapply Hc. eassumption. Qed.

#[local] Instance steady_preorder : PreOrder steady.
Proof.
  split.
  - intros m. unfold steady. intuition lia.
  - intros m1 m2 m3 H12 H23. unfold steady in *.
    destruct H12 as (Ha12 & Ho12 & Hn12 & Hx12 & He12 & Hd12 & Hr12).
    destruct H23 as (Ha23 & Ho23 & Hn23 & Hx23 & He23 & Hd23 & Hr23).
    repeat split; try congruence; try lia; tauto.
Qed.

#[local] Instance quiet_preorder : PreOrder quiet.
Proof.
  split.
  - intros m. unfold quiet. split; [|split; [|split]]; reflexivity.
  - intros m1 m2 m3 H12 H23. unfold quiet in *.
    destruct H12 as (Hi12 & Ha12 & Hx12 & Hs12).
    destruct H23 as (Hi23 & Ha23 & Hx23 & Hs23).
    split; [|split; [|split]]; try congruence. transitivity m2; assumption.
Qed.

Ltac quiet_leaf := solve [unfold quiet, steady, reported; cbn; intuition (auto; lia)].

Lemma app_not_nil {A : Type} (l : list A) (x : A) : l ++ [x] <> [].
Proof. destruct l; discriminate. Qed.

Lemma quiet_add_error_first (code : error_code) :
  preserves quiet (FirstPass.add_error code).
Proof.
  intros m a m' H. unfold FirstPass.add_error in H. munfold_in H.
  inversion H; subst. unfold quiet, steady, reported. cbn.
  repeat split; auto using app_not_nil. lia.
Qed.

(* ================================================================= *)
(** ** The first word of an instruction *)

Lemma bits_div_mod (w low high : Z) :
  0 <= low -> 0 <= high - low + 1 ->
  bits w low high = (w / 2 ^ low) mod 2 ^ (high - low + 1).
Proof.
  intros Hl Hh. unfold bits. now rewrite Z.land_ones, Z.shiftr_div_pow2.
Qed.

Lemma bit_field_range (width value : Z) :
  0 <= width -> 0 <= bit_field width value < 2 ^ width.
Proof.
  intros Hw. unfold bit_field. apply Z.mod_pos_bound. apply Z.pow_pos_nonneg; lia.
Qed.

(** The lowest field of a packed unit. *)
Lemma bits_pack_head (width value rest : Z) :
  0 < width ->
  bits (bit_field width value + 2 ^ width * rest) 0 (width - 1) = value mod 2 ^ width.
Proof.
  intros Hw. rewrite bits_div_mod by lia.
  replace (width - 1 - 0 + 1) with width by lia.
  rewrite Z.pow_0_r, Z.div_1_r.
  replace (bit_field width value + 2 ^ width * rest)
    with (bit_field width value + rest * 2 ^ width) by lia.
  rewrite Z.mod_add by (apply Z.pow_nonzero; lia).
  unfold bit_field. apply Z.mod_mod. apply Z.pow_nonzero; lia.
Qed.

(** The fields above the lowest one. *)
Lemma bits_pack_tail (width value rest low high : Z) :
  0 <= width -> 0 <= low -> 0 <= high - low + 1 ->
  bits (bit_field width value + 2 ^ width * rest) (low + width) (high + width)
  = bits rest low high.
Proof.
  intros Hw Hl Hh. rewrite !bits_div_mod by lia.
  replace (high + width - (low + width) + 1) with (high - low + 1) by lia.
  f_equal.
  rewrite (Z.add_comm low width), Z.pow_add_r by lia.
  rewrite <- Z.div_div by (try apply Z.pow_pos_nonneg; lia).
  f_equal.
  pose proof (bit_field_range width value Hw).
  replace (bit_field width value + 2 ^ width * rest)
    with (bit_field width value + rest * 2 ^ width) by lia.
  rewrite Z.div_add by (apply Z.pow_nonzero; lia).
  rewrite Z.div_small by assumption. lia.
Qed.

Lemma first_word_fields (type : instruction_type) (line : item_line) (padding : Z) :
  let w := FirstPass.first_word_of_instruction type line padding in
  bits w 0 1 = encoding_type_value ABSOLUTE
  /\ bits w 2 4 = addressing_method_value (destination line)
  /\ bits w 5 8 = instruction_type_value type mod 16
  /\ bits w 9 11 = addressing_method_value (source line).
Proof.
  unfold FirstPass.first_word_of_instruction, pack_bit_fields.
  cbv zeta. split; [|split; [|split]].
  - rewrite (bits_pack_head 2) by lia. reflexivity.
  - rewrite (bits_pack_tail 2 _ _ 0 2) by lia.
    rewrite (bits_pack_head 3) by lia.
    destruct (destination line); reflexivity.
  - rewrite (bits_pack_tail 2 _ _ 3 6) by lia.
    rewrite (bits_pack_tail 3 _ _ 0 3) by lia.
    rewrite (bits_pack_head 4) by lia. reflexivity.
  - rewrite (bits_pack_tail 2 _ _ 7 9) by lia.
    rewrite (bits_pack_tail 3 _ _ 4 6) by lia.
    rewrite (bits_pack_tail 4 _ _ 0 2) by lia.
    rewrite (bits_pack_head 3) by lia.
    destruct (source line); reflexivity.
Qed.

(** The opcode number of a mnemonic is its position in the list of the
    sixteen mnemonics. *)
Lemma get_instruction_type_position (word : string) :
  get_instruction_type word <> NOT_INSTRUCTION ->
  nth_error opcode_names (Z.to_nat (instruction_type_value (get_instruction_type word)))
  = Some word
  /\ instruction_type_value (get_instruction_type word) mod 16
     = instruction_type_value (get_instruction_type word).
Proof.
  unfold get_instruction_type.
  repeat match goal with
         | |- context [str_eq word ?w] =>
             let E := fresh "E" in
             destruct (str_eq word w) eqn:E;
             [apply str_eq_true in E; subst word; intros _; split; reflexivity
             |clear E]
         end.
  intros Hne. now elim Hne.
Qed.

#[local] Instance quiet_line_preorder : PreOrder quiet_line.
Proof.
  split.
  - intros m. split; reflexivity.
  - intros m1 m2 m3 [Hq12 Hl12] [Hq23 Hl23]. split; [|congruence].
    transitivity m2; assumption.
Qed.

Ltac quiet_line_leaf := solve [unfold quiet_line, quiet, steady, reported; cbn; intuition (auto; lia)].

Lemma quiet_line_add_error (code : error_code) :
  preserves quiet_line (FirstPass.add_error code).
Proof.
  intros m a m' H. split; [eapply quiet_add_error_first; eassumption|].
  unfold FirstPass.add_error in H. munfold_in H. inversion H; subst. reflexivity.
Qed.

Lemma quiet_line_check_errors (type : instruction_type) :
  preserves quiet_line (FirstPass.check_errors_for_instructions type).
Proof.
  unfold FirstPass.check_errors_for_instructions.
  preserves_structure; first [apply quiet_line_add_error | quiet_line_leaf].
Qed.

Lemma quiet_update_addressing_method_type (type : instruction_type) :
  preserves quiet (FirstPass.update_addressing_method_type type).
Proof.
  unfold FirstPass.update_addressing_method_type, FirstPass.set_methods.
  preserves_structure; quiet_leaf.
Qed.

#[local] Instance keeps_cell_preorder (i : Z) : PreOrder (keeps_cell i).
Proof.
  split.
  - intros m. unfold keeps_cell. auto.
  - intros m1 m2 m3 (Hl12 & He12 & Hc12) (Hl23 & He23 & Hc23).
    unfold keeps_cell. repeat split; try congruence.
    + apply Hc23, Hc12. assumption.
    + destruct (Hc12 H) as [Hlt H12]. destruct (Hc23 Hlt) as [_ H23]. congruence.
Qed.

Lemma keeps_cell_push_instruction (i v : Z) :
  preserves (keeps_cell i) (FirstPass.push_instruction v).
Proof.
  intros m a m' H. unfold FirstPass.push_instruction in H. munfold_in H.
  destruct (array_write (instruction_array (sfile m)) (IC (sfile m)) v)
    as [array'|] eqn:Hw; [|discriminate].
  inversion H; subst; clear H. unfold keeps_cell. cbn.
  repeat split; try lia.
  eapply array_read_write_other; [eassumption|lia].
Qed.

Lemma keeps_cell_add_the_rest (padding_bits : Z -> Z) (i : Z) :
  preserves (keeps_cell i) (FirstPass.add_the_rest_of_the_instruction_to_array padding_bits).
Proof.
  unfold FirstPass.add_the_rest_of_the_instruction_to_array.
  preserves_structure; apply keeps_cell_push_instruction.
Qed.

#[local] Instance keeps_preorder {B : Type} (f : machine -> B) : PreOrder (keeps f).
Proof.
  split.
  - intros m. reflexivity.
  - intros m1 m2 m3 H12 H23. unfold keeps in *. congruence.
Qed.

Lemma keeps_word1_update_addressing_method_type (type : instruction_type) :
  preserves (keeps (fun m => word1 (line_struct (sfile m))))
    (FirstPass.update_addressing_method_type type).
Proof.
  unfold FirstPass.update_addressing_method_type, FirstPass.set_methods.
  preserves_structure; reflexivity.
Qed.

Lemma check_errors_not_instruction (m m' : machine) :
  FirstPass.check_errors_for_instructions NOT_INSTRUCTION m = Some (tt, m') ->
  error_flag (sfile m') = true.
Proof.
  unfold FirstPass.check_errors_for_instructions, FirstPass.add_error.
  munfold. intros H.
  destruct (count_eqb (count (line_struct (sfile m))) TOO_MUCH
            || count_eqb (count (line_struct (sfile m))) FIVE);
    inversion H; reflexivity.
Qed.

Lemma update_addressing_method_type_effect (m m' : machine) :
  FirstPass.update_addressing_method_type
    (get_instruction_type (word1 (line_struct (sfile m)))) m = Some (tt, m') ->
  quiet m m'
  /\ word1 (line_struct (sfile m')) = word1 (line_struct (sfile m))
  /\ source (line_struct (sfile m')) = fst (operand_methods (line_struct (sfile m)))
  /\ destination (line_struct (sfile m')) = snd (operand_methods (line_struct (sfile m))).
Proof.
  intros H. split; [eapply quiet_update_addressing_method_type; eassumption|].
  unfold FirstPass.update_addressing_method_type, FirstPass.set_methods in H.
  unfold operand_methods. munfold_in H.
  destruct (get_instruction_type (word1 (line_struct (sfile m))));
    inversion H; subst; cbn; auto.
Qed.

Lemma is_register_in_list (word : string) :
  is_register word = in_list word register_names.
Proof.
  unfold is_register, in_list, register_names. cbn [existsb].
  destruct (str_eq word "@r0"), (str_eq word "@r1"), (str_eq word "@r2"),
    (str_eq word "@r3"), (str_eq word "@r4"), (str_eq word "@r5"),
    (str_eq word "@r6"), (str_eq word "@r7"); reflexivity.
Qed.

Lemma register_is_not_number (word : string) :
  in_list word register_names = true -> is_number word = false.
Proof.
  unfold in_list, register_names. cbn [existsb]. intros H.
  repeat (apply orb_true_iff in H as [H|H];
          [apply str_eq_true in H; subst word; reflexivity|]).
  discriminate.
Qed.

(** The classifier of the operands gives the method that the
    specification gives a token. *)
Lemma method_value_of_token (word : string) :
  addressing_method_value (get_addressing_method_type word) = method_value word.
Proof.
  unfold get_addressing_method_type, method_value.
  destruct (char_eqb (char_at word 0) NUL); [reflexivity|].
  rewrite is_register_in_list.
  destruct (in_list word register_names) eqn:Hregister.
  - now rewrite (register_is_not_number word Hregister).
  - destruct (is_number word); reflexivity.
Qed.

(** The operands that the code classifies are those of the groups of
    the specification. *)
Lemma operand_methods_of_groups (l : item_line) :
  addressing_method_value (fst (operand_methods l)) = method_value (source_operand l)
  /\ addressing_method_value (snd (operand_methods l))
     = method_value (destination_operand l).
Proof.
  unfold operand_methods, source_operand, destination_operand, get_instruction_type,
    in_list, two_operand_group, one_operand_group.
  cbn [existsb].
  repeat match goal with
         | |- context [if str_eq (word1 l) ?w then _ else _] =>
             let E := fresh "E" in
             destruct (str_eq (word1 l) w) eqn:E;
             [apply str_eq_true in E; rewrite ?E; cbn [str_eq String.eqb Ascii.eqb Bool.eqb orb fst snd];
              split; first [apply method_value_of_token | reflexivity]
             |]
         end.
  cbn [orb fst snd]. split; reflexivity.
Qed.

(** C1.  When [add_instructions] encodes an instruction (no diagnostic
    has been raised so far), the cell at the old value of [IC] holds the
    first word: encoding type [ABSOLUTE] (0) in bits 0-1; in bits 2-4
    the value of the addressing method of the destination operand of
    the line (0 when absent, 1 for an immediate, 3 for a direct, 5 for a
    register operand); in bits 5-8 the position of the mnemonic in the
    list of the sixteen opcodes; and in bits 9-11 the value of the
    addressing method of the source operand of the line.  The methods
    that the line records afterwards are these two. *)
Theorem first_word_layout (padding_bits : Z -> Z) (m m' : machine) :
  FirstPass.add_instructions padding_bits m = Some (tt, m') ->
  error_flag (sfile m') = false ->
  exists first_word : Z,
    array_read (instruction_array (sfile m')) (IC (sfile m)) = Some first_word
    /\ bits first_word 0 1 = 0
    /\ bits first_word 2 4 = method_value (destination_operand (line_struct (sfile m)))
    /\ nth_error opcode_names (Z.to_nat (bits first_word 5 8))
       = Some (word1 (line_struct (sfile m)))
    /\ bits first_word 9 11 = method_value (source_operand (line_struct (sfile m)))
    /\ addressing_method_value (destination (line_struct (sfile m')))
       = method_value (destination_operand (line_struct (sfile m)))
    /\ addressing_method_value (source (line_struct (sfile m')))
       = method_value (source_operand (line_struct (sfile m))).
Proof.
  intros H Herr. unfold FirstPass.add_instructions in H.
  apply bind_inv in H as (line & m0 & Hget & H).
  apply file_get_inv in Hget as [-> ->].
  apply bind_inv in H as ([] & m1 & Hupd & H).
  apply bind_inv in H as ([] & m2 & Hchk & H).
  apply bind_inv in H as (failed & m2' & Hget & H).
  apply file_get_inv in Hget as [-> ->].
  pose proof (update_addressing_method_type_effect _ _ Hupd)
    as ((Hic1 & _) & Hw1 & Hsource & Hdestination).
  pose proof (quiet_line_check_errors _ _ _ _ Hchk) as ((Hic2 & _) & Hline2).
  apply when_inv in H. destruct H as [[Hok H]|[Hfailed H]].
  2:{ inversion H; subst. apply negb_false_iff in Hfailed. congruence. }
  apply bind_inv in H as ([] & m3 & Hfirst & Hrest).
  unfold FirstPass.add_first_word_of_instruction_to_array in Hfirst.
  munfold_in Hfirst. unfold FirstPass.push_instruction in Hfirst. munfold_in Hfirst.
  match type of Hfirst with
  | context [array_write ?a ?i ?v] =>
      destruct (array_write a i v) as [array'|] eqn:Hw; [|discriminate];
      set (w := v) in *
  end.
  inversion Hfirst; subst m3; clear Hfirst.
  pose proof (keeps_cell_add_the_rest padding_bits (IC (sfile m2)) _ _ _ Hrest)
    as (Hline' & Herr' & Hcell).
  cbn in Hline', Herr', Hcell.
  destruct Hcell as [_ Hread]; [lia|].
  destruct (operand_methods_of_groups (line_struct (sfile m))) as [Hsrc Hdst].
  assert (Hdm : addressing_method_value (destination (line_struct (sfile m2)))
                = method_value (destination_operand (line_struct (sfile m))))
    by (rewrite Hline2, Hdestination; exact Hdst).
  assert (Hsm : addressing_method_value (source (line_struct (sfile m2)))
                = method_value (source_operand (line_struct (sfile m))))
    by (rewrite Hline2, Hsource; exact Hsrc).
  exists w. split.
  - rewrite <- Hic1, <- Hic2, Hread. eapply array_read_write_same. eassumption.
  - assert (Htype : get_instruction_type (word1 (line_struct (sfile m))) <> NOT_INSTRUCTION).
    { intros Hni. rewrite Hni in Hchk.
      apply check_errors_not_instruction in Hchk. congruence. }
    destruct (get_instruction_type_position _ Htype) as [Hnth Hmod].
    destruct (first_word_fields
                (get_instruction_type (word1 (line_struct (sfile m))))
                (line_struct (sfile m2)) (padding_bits (IC (sfile m2))))
      as (He & Hd & Ho & Hs).
    fold w in He, Hd, Ho, Hs. rewrite Hline'.
    split; [exact He|]. split; [rewrite Hd; exact Hdm|].
    split; [rewrite Ho, Hmod; exact Hnth|].
    split; [rewrite Hs; exact Hsm|]. split; assumption.
Qed.

Lemma first_word_layout_witness :
  let m := machine_with_line ("mov -1, @r2" ++ nl) in
  let m' := state_after (FirstPass.add_instructions (fun _ => 0)) m in
  exists first_word : Z,
    array_read (instruction_array (sfile m')) (IC (sfile m)) = Some first_word
    /\ bits first_word 0 1 = 0
    /\ bits first_word 2 4 = 5
    /\ nth_error opcode_names (Z.to_nat (bits first_word 5 8)) = Some "mov"%string
    /\ bits first_word 9 11 = 1.
Proof.
  intros m m'.
  destruct (first_word_layout (fun _ => 0) m m')
    as (first_word & Hcell & Hlow & Hdst & Hop & Hsrc & _).
  - vm_compute. reflexivity.
  - reflexivity.
  - exists first_word. split; [exact Hcell|]. split; [exact Hlow|].
    split; [rewrite Hdst; reflexivity|]. split; [exact Hop|].
    rewrite Hsrc. reflexivity.
Defined.

(* ================================================================= *)
(** ** The steps of the first pass that leave the code alone *)

Create HintDb preserves.

#[local] Hint Resolve quiet_add_error_first : preserves.

(** Decompose, then close the goals about known steps with the hint
    database and the remaining goals with [leaf]. *)
Ltac preserves_with leaf :=
  preserves_structure; first [solve [auto with preserves] | leaf].

Lemma quiet_update_error_status_first (code : error_code) :
  preserves quiet (FirstPass.update_error_status code).
Proof. unfold FirstPass.update_error_status. preserves_with quiet_leaf. Qed.

Lemma quiet_get_next_word_first :
  preserves quiet FirstPass.get_next_word_without_comma.
Proof. unfold FirstPass.get_next_word_without_comma. preserves_with quiet_leaf. Qed.

Lemma quiet_check_for_comma_first : preserves quiet FirstPass.check_for_comma.
Proof. unfold FirstPass.check_for_comma. preserves_with quiet_leaf. Qed.

Lemma quiet_push_data (v : Z) : preserves quiet (FirstPass.push_data v).
Proof.
  intros m a m' H. unfold FirstPass.push_data in H. munfold_in H.
  destruct (array_write (data_array (sfile m)) (DC (sfile m)) v); [|discriminate].
  inversion H; subst. quiet_leaf.
Qed.

Lemma quiet_add_label (name : string) (address : Z) (kind : type_of_label) :
  preserves quiet (FirstPass.add_label name address kind).
Proof. unfold FirstPass.add_label. preserves_with quiet_leaf. Qed.

#[local] Hint Resolve quiet_update_error_status_first quiet_get_next_word_first
  quiet_check_for_comma_first quiet_push_data quiet_add_label : preserves.

Lemma quiet_save_data_value : preserves quiet FirstPass.save_data_value.
Proof. unfold FirstPass.save_data_value. preserves_with quiet_leaf. Qed.

#[local] Hint Resolve quiet_save_data_value : preserves.

Lemma quiet_save_data_loop (fuel : nat) : preserves quiet (FirstPass.save_data_loop fuel).
Proof.
  induction fuel as [|fuel IH]; simpl; preserves_with quiet_leaf.
Qed.

Lemma quiet_save_string_loop (rest : string) :
  preserves quiet (FirstPass.save_string_loop rest).
Proof.
  induction rest as [|c rest IH]; simpl; preserves_with quiet_leaf.
Qed.

Lemma quiet_add_extern_labels_loop (fuel : nat) :
  preserves quiet (FirstPass.add_extern_labels_loop fuel).
Proof.
  induction fuel as [|fuel IH]; simpl; preserves_with quiet_leaf.
Qed.

#[local] Hint Resolve quiet_save_data_loop quiet_save_string_loop
  quiet_add_extern_labels_loop : preserves.

Lemma quiet_save_data : preserves quiet FirstPass.save_data.
Proof. unfold FirstPass.save_data. preserves_with quiet_leaf. Qed.

Lemma quiet_save_string : preserves quiet FirstPass.save_string.
Proof. unfold FirstPass.save_string. preserves_with quiet_leaf. Qed.

Lemma quiet_add_new_label_to_list (temp_status : line_status) :
  preserves quiet (FirstPass.add_new_label_to_list temp_status).
Proof. unfold FirstPass.add_new_label_to_list. preserves_with quiet_leaf. Qed.

(* ================================================================= *)
(** ** The number of words a line contributes to the code *)

Lemma operand_words_nonneg (src dst : addressing_method) : 0 <= operand_words src dst.
Proof. destruct src, dst; cbv [operand_words addressing_method_eqb]; lia. Qed.

Lemma line_code_words_nonneg (line : string) : 0 <= line_code_words line.
Proof.
  unfold line_code_words, instruction_words.
  destruct (line_status_of line) as [[[] l]|]; cbv beta iota; try lia.
  pose proof (operand_words_nonneg (fst (operand_methods l)) (snd (operand_methods l))).
  lia.
Qed.

(** ** The instruction encoder of the first pass *)

#[local] Instance coding_preorder : PreOrder coding.
Proof.
  split.
  - intros m. split; reflexivity.
  - intros m1 m2 m3 [Hx12 Hs12] [Hx23 Hs23]. split; [congruence|].
    transitivity m2; assumption.
Qed.

Lemma quiet_coding (m m' : machine) : quiet m m' -> coding m m'.
Proof. unfold quiet, coding. tauto. Qed.

Lemma coding_steady (m m' : machine) : coding m m' -> steady m m'.
Proof. unfold coding. tauto. Qed.

Ltac coding_leaf := solve [unfold coding, steady, reported; cbn; intuition (auto; lia)].

Lemma coding_push_instruction (v : Z) : preserves coding (FirstPass.push_instruction v).
Proof. unfold FirstPass.push_instruction. preserves_with coding_leaf. Qed.

#[local] Hint Resolve coding_push_instruction : preserves.

Lemma push_instruction_IC (v : Z) (m m' : machine) :
  FirstPass.push_instruction v m = Some (tt, m') ->
  IC (sfile m') = IC (sfile m) + 1
  /\ line_struct (sfile m') = line_struct (sfile m).
Proof.
  unfold FirstPass.push_instruction. munfold. intros H.
  destruct (array_write (instruction_array (sfile m)) (IC (sfile m)) v); [|discriminate].
  inversion H; subst. cbn. auto.
Qed.

Lemma add_the_rest_IC (padding_bits : Z -> Z) (m m' : machine) :
  FirstPass.add_the_rest_of_the_instruction_to_array padding_bits m = Some (tt, m') ->
  IC (sfile m')
  = IC (sfile m)
    + operand_words (source (line_struct (sfile m))) (destination (line_struct (sfile m))).
Proof.
  unfold FirstPass.add_the_rest_of_the_instruction_to_array. intros H.
  apply bind_inv in H as (line & m0 & Hget & H). apply file_get_inv in Hget as [-> ->].
  apply bind_inv in H as ([] & m1 & Hsrc & Hdst).
  assert (Hs : IC (sfile m1)
               = IC (sfile m)
                 + match source (line_struct (sfile m)) with NOT_EXIST => 0 | _ => 1 end
               /\ line_struct (sfile m1) = line_struct (sfile m)).
  { destruct (source (line_struct (sfile m))).
    - apply ret_inv in Hsrc as [_ ->]. split; [lia|reflexivity].
    - apply bind_inv in Hsrc as (ic & m0 & Hget & Hsrc).
      apply file_get_inv in Hget as [-> ->].
      apply bind_inv in Hsrc as (value & m0 & Hvalue & Hsrc).
      apply lift_option_inv in Hvalue as [_ ->].
      now apply push_instruction_IC in Hsrc.
    - now apply push_instruction_IC in Hsrc.
    - apply bind_inv in Hsrc as (ic & m0 & Hget & Hsrc).
      apply file_get_inv in Hget as [-> ->].
      now apply push_instruction_IC in Hsrc. }
  destruct Hs as [Hs Hl]. unfold operand_words.
  assert (Hd : IC (sfile m')
               = IC (sfile m1)
                 + match destination (line_struct (sfile m)) with
                   | NOT_EXIST => 0
                   | REGISTER =>
                       if addressing_method_eqb (source (line_struct (sfile m))) REGISTER
                       then 0 else 1
                   | _ => 1
                   end).
  { destruct (destination (line_struct (sfile m))).
    - apply ret_inv in Hdst as [_ ->]. lia.
    - apply bind_inv in Hdst as (ic & m0 & Hget & Hdst).
      apply file_get_inv in Hget as [-> ->].
      apply bind_inv in Hdst as (value & m0 & Hvalue & Hdst).
      apply lift_option_inv in Hvalue as [_ ->].
      apply push_instruction_IC in Hdst. lia.
    - apply push_instruction_IC in Hdst. lia.
    - apply when_inv in Hdst. destruct Hdst as [[Hb Hdst]|[Hb Hdst]].
      + apply negb_true_iff in Hb. rewrite Hb.
        apply bind_inv in Hdst as (ic & m0 & Hget & Hdst).
        apply file_get_inv in Hget as [-> ->].
        apply push_instruction_IC in Hdst. lia.
      + apply negb_false_iff in Hb. rewrite Hb. inversion Hdst; subst. lia. }
  lia.
Qed.

Lemma coding_of_quiet {A : Type} (c : M A) : preserves quiet c -> preserves coding c.
Proof. apply preserves_weaken. exact quiet_coding. Qed.

Lemma coding_add_instructions (padding_bits : Z -> Z) :
  preserves coding (FirstPass.add_instructions padding_bits).
Proof.
  unfold FirstPass.add_instructions,
    FirstPass.add_first_word_of_instruction_to_array,
    FirstPass.add_the_rest_of_the_instruction_to_array.
  preserves_structure; try solve [auto with preserves].
  - apply coding_of_quiet, quiet_update_addressing_method_type.
  - eapply preserves_weaken; [|apply quiet_line_check_errors].
    intros m m' [Hq _]. now apply quiet_coding.
Qed.

Lemma add_instructions_IC (padding_bits : Z -> Z) (m m' : machine) :
  FirstPass.add_instructions padding_bits m = Some (tt, m') ->
  error_flag (sfile m') = false ->
  IC (sfile m') = IC (sfile m) + instruction_words (line_struct (sfile m)).
Proof.
  intros H Herr. unfold FirstPass.add_instructions in H.
  apply bind_inv in H as (line & m0 & Hget & H).
  apply file_get_inv in Hget as [-> ->].
  apply bind_inv in H as ([] & m1 & Hupd & H).
  apply bind_inv in H as ([] & m2 & Hchk & H).
  apply bind_inv in H as (failed & m2' & Hget & H).
  apply file_get_inv in Hget as [-> ->].
  apply update_addressing_method_type_effect in Hupd as ((Hic1 & _) & _ & Hsrc & Hdst).
  pose proof (quiet_line_check_errors _ _ _ _ Hchk) as ((Hic2 & _) & Hline2).
  apply when_inv in H. destruct H as [[Hok H]|[Hfailed H]].
  2:{ inversion H; subst. apply negb_false_iff in Hfailed. congruence. }
  apply bind_inv in H as ([] & m3 & Hfirst & Hrest).
  unfold FirstPass.add_first_word_of_instruction_to_array in Hfirst.
  apply bind_inv in Hfirst as (line & m0 & Hget & Hfirst).
  apply file_get_inv in Hget as [-> ->].
  apply bind_inv in Hfirst as (ic & m0 & Hget & Hfirst).
  apply file_get_inv in Hget as [-> ->].
  apply push_instruction_IC in Hfirst as [Hic3 Hline3].
  apply add_the_rest_IC in Hrest.
  unfold instruction_words. rewrite Hrest, Hline3, Hline2, Hsrc, Hdst. lia.
Qed.

(** ** A line of the first pass *)

Lemma steady_of_quiet {A : Type} (c : M A) : preserves quiet c -> preserves steady c.
Proof. apply preserves_weaken. unfold quiet. tauto. Qed.

Ltac steady_leaf := solve [unfold steady, reported; cbn; intuition (auto; lia)].

Lemma steady_action_by_status (padding_bits : Z -> Z) (status : line_status) :
  preserves steady (FirstPass.action_by_status padding_bits status).
Proof.
  destruct status; cbn [FirstPass.action_by_status].
  - apply steady_of_quiet, quiet_save_data.
  - apply steady_of_quiet, quiet_save_string.
  - eapply preserves_weaken; [exact coding_steady | apply coding_add_instructions].
  - unfold FirstPass.add_extern_labels.
    preserves_structure;
      try solve [apply steady_of_quiet; auto with preserves | steady_leaf].
  - apply preserves_ret. exact _.
Qed.

Lemma steady_actions_on_label : preserves steady FirstPass.actions_on_label.
Proof.
  unfold FirstPass.actions_on_label.
  preserves_structure;
    try solve [apply steady_of_quiet; auto with preserves
              | apply steady_of_quiet, quiet_add_new_label_to_list
              | steady_leaf].
Qed.

Lemma steady_first_pass_on_line (padding_bits : Z -> Z) (line : string) :
  preserves steady (FirstPass.first_pass_on_line padding_bits line).
Proof.
  unfold FirstPass.first_pass_on_line, FirstPass.update_line_to_array.
  preserves_structure;
    try solve [apply steady_action_by_status | apply steady_actions_on_label
              | steady_leaf].
Qed.

Lemma quiet_line_add_new_label_to_list (temp_status : line_status) :
  preserves quiet_line (FirstPass.add_new_label_to_list temp_status).
Proof.
  unfold FirstPass.add_new_label_to_list, FirstPass.add_label,
    FirstPass.update_error_status.
  preserves_structure; first [apply quiet_line_add_error | quiet_line_leaf].
Qed.

Lemma add_extern_labels_effect (m m' : machine) :
  FirstPass.add_extern_labels m = Some (tt, m') ->
  IC (sfile m') = IC (sfile m) /\ extern_flag (sfile m') = true.
Proof.
  unfold FirstPass.add_extern_labels. intros H.
  apply bind_inv in H as ([] & m1 & Hset & H). apply file_set_inv in Hset. subst m1.
  match type of H with
  | ?c _ = _ => assert (Hq : preserves quiet c) by preserves_with quiet_leaf
  end.
  apply Hq in H. destruct H as (Hic & _ & Hx & _). cbn in Hic, Hx. auto.
Qed.

Lemma add_error_sets_flag (code : error_code) (m m' : machine) :
  FirstPass.add_error code m = Some (tt, m') -> error_flag (sfile m') = true.
Proof. unfold FirstPass.add_error. munfold. intros H. inversion H. reflexivity. Qed.

Lemma actions_on_label_effect (m m' : machine) :
  FirstPass.actions_on_label m = Some (tt, m') ->
  error_flag (sfile m') = false ->
  quiet m m'
  /\ exists b l',
       is_label (line_struct (sfile m)) = Some (b, l')
       /\ line_struct (sfile m')
          = if b then delete_label_from_line_struct l' else l'.
Proof.
  intros H Herr. unfold FirstPass.actions_on_label in H.
  apply bind_inv in H as (l & m0 & Hget & H). apply file_get_inv in Hget as [-> ->].
  destruct (is_label (line_struct (sfile m))) as [[b l']|] eqn:Hlab; [|discriminate].
  apply bind_inv in H as (r & m0 & Hret & H). apply ret_inv in Hret as [-> ->].
  apply bind_inv in H as ([] & m0 & Hset & H). apply file_set_inv in Hset. subst m0.
  cbn [fst snd] in H.
  destruct b; cbn [when] in H.
  - apply bind_inv in H as (l0 & m0 & Hget & H). apply file_get_inv in Hget as [-> ->].
    cbn in H.
    assert (Hfail : forall code,
              (FirstPass.add_error code ;;
               file_set (fun f => set_line_struct (set_count ZERO (line_struct f)) f))
                (set_sfile (set_line_struct l' (sfile m)) m) = Some (tt, m') -> False).
    { intros code Hc. apply bind_inv in Hc as ([] & m1 & Hadd & Hset).
      apply add_error_sets_flag in Hadd. apply file_set_inv in Hset. subst m'.
      cbn in Herr. congruence. }
    assert (Hdefault :
              (file_set (fun f =>
                 set_pos_in_line (skip_one_word_in_line (pos_in_line f) (line_text f)) f) ;;
               FirstPass.add_new_label_to_list (FirstPass.get_word_status (word2 l')) ;;
               file_set (fun f =>
                 set_line_struct (delete_label_from_line_struct (line_struct f)) f))
                (set_sfile (set_line_struct l' (sfile m)) m) = Some (tt, m') ->
              quiet m m'
              /\ exists b l'0, Some (true, l') = Some (b, l'0)
                   /\ line_struct (sfile m')
                      = if b then delete_label_from_line_struct l'0 else l'0).
    { intros Hc.
      apply bind_inv in Hc as ([] & m1 & Hset & Hc). apply file_set_inv in Hset. subst m1.
      apply bind_inv in Hc as ([] & m2 & Hadd & Hset). apply file_set_inv in Hset. subst m'.
      apply quiet_line_add_new_label_to_list in Hadd. destruct Hadd as [Hq Hl].
      cbn in Hl. split.
      - unfold quiet, steady in *. cbn in *. intuition (auto; lia).
      - exists true, l'. cbn. rewrite Hl. auto. }
    destruct (FirstPass.get_word_status (word2 l')); eauto; exfalso; eauto.
  - apply ret_inv in H as [_ ->]. split.
    + quiet_leaf.
    + exists false, l'. auto.
Qed.

Lemma action_by_status_effect (padding_bits : Z -> Z) (status : line_status)
    (m m' : machine) :
  FirstPass.action_by_status padding_bits status m = Some (tt, m') ->
  error_flag (sfile m') = false ->
  IC (sfile m')
  = IC (sfile m)
    + match status with
      | STATUS_CODE => instruction_words (line_struct (sfile m))
      | _ => 0
      end
  /\ extern_flag (sfile m')
     = extern_flag (sfile m)
       || match status with STATUS_EXTERN => true | _ => false end.
Proof.
  intros H Herr. destruct status; cbn [FirstPass.action_by_status] in H.
  - apply quiet_save_data in H. destruct H as (-> & _ & -> & _).
    rewrite orb_false_r. split; [lia|reflexivity].
  - apply quiet_save_string in H. destruct H as (-> & _ & -> & _).
    rewrite orb_false_r. split; [lia|reflexivity].
  - pose proof (coding_add_instructions _ _ _ _ H) as [Hx _].
    apply add_instructions_IC in H; [|assumption].
    rewrite Hx, orb_false_r. auto.
  - apply add_extern_labels_effect in H. destruct H as [-> ->].
    rewrite orb_true_r. split; [lia|reflexivity].
  - apply ret_inv in H as [_ ->]. rewrite orb_false_r. split; [lia|reflexivity].
Qed.

(** The effect of a line of the first pass on the instruction counter
    and on the extern flag, when no diagnostic has been raised by the
    end of the line. *)
Lemma first_pass_on_line_effect (padding_bits : Z -> Z) (line : string)
    (m m' : machine) :
  FirstPass.first_pass_on_line padding_bits line m = Some (tt, m') ->
  error_flag (sfile m') = false ->
  IC (sfile m') = IC (sfile m) + line_code_words line
  /\ extern_flag (sfile m') = extern_flag (sfile m) || line_declares_extern line.
Proof.
  intros H Herr. unfold FirstPass.first_pass_on_line in H.
  apply bind_inv in H as ([] & m0 & Hset & H). apply file_set_inv in Hset. subst m0.
  apply bind_inv in H as ([] & m0 & Hset & H). apply file_set_inv in Hset. subst m0.
  apply bind_inv in H as (text & m0 & Hget & H). apply file_get_inv in Hget as [-> ->].
  cbn in H.
  unfold line_code_words, line_declares_extern, line_status_of. cbv zeta.
  destruct (is_line_empty (c_str line)) eqn:Hempty.
  { apply ret_inv in H as [_ ->]. cbn. rewrite orb_false_r. split; [lia|reflexivity]. }
  apply bind_inv in H as ([] & m0 & Hset & H). apply file_set_inv in Hset. subst m0.
  apply bind_inv in H as ([] & m2 & Hline & H).
  unfold FirstPass.update_line_to_array in Hline.
  apply bind_inv in Hline as (text & m0 & Hget & Hline).
  apply file_get_inv in Hget as [-> ->]. cbn in Hline.
  destruct (create_new_line_struct (c_str line)) as [l|] eqn:Hcreate;
    [|discriminate].
  apply bind_inv in Hline as (l0 & m0 & Hret & Hline). apply ret_inv in Hret as [-> ->].
  apply file_set_inv in Hline. subst m2.
  apply bind_inv in H as ([] & m3 & Hlabel & H).
  apply bind_inv in H as (pl & m0 & Hget & H). apply file_get_inv in Hget as [-> ->].
  unfold parsed_line. rewrite Hcreate.
  assert (Herr3 : error_flag (sfile m3) = false).
  { destruct (error_flag (sfile m3)) eqn:He; [|reflexivity].
    destruct (count_eqb (count (line_struct (sfile m3))) ZERO).
    - apply ret_inv in H as [_ ->]. congruence.
    - apply steady_action_by_status in H. destruct H as (_ & _ & _ & _ & Hmono & _).
      rewrite Hmono in Herr by assumption. discriminate. }
  destruct (actions_on_label_effect _ _ Hlabel Herr3)
    as ((Hic3 & _ & Hx3 & _) & b & l' & Hlab & Hl3).
  cbn in Hic3, Hx3, Hlab.
  rewrite Hlab.
  assert (Hpl : (if b then Some (delete_label_from_line_struct l') else Some l')
                = Some (line_struct (sfile m3)))
    by (rewrite Hl3; destruct b; reflexivity).
  replace (match (if b then Some (delete_label_from_line_struct l') else Some l') with
           | Some l0 => _ | None => _ end) with
    (if count_eqb (count (line_struct (sfile m3))) ZERO then None
     else Some (FirstPass.get_word_status (word1 (line_struct (sfile m3))),
                line_struct (sfile m3))) by (destruct b; rewrite Hl3; reflexivity).
  clear Hpl Hlabel.
  destruct (count_eqb (count (line_struct (sfile m3))) ZERO).
  - apply ret_inv in H as [_ ->]. rewrite orb_false_r. split; [lia|assumption].
  - apply action_by_status_effect in H; [|assumption]. destruct H as [Hic Hx].
    rewrite Hic, Hx, Hic3, Hx3.
    destruct (FirstPass.get_word_status (word1 (line_struct (sfile m3)))); auto.
Qed.

Lemma code_words_nonneg (lines : list string) : 0 <= code_words lines.
Proof.
  induction lines as [|line rest IH]; simpl; [lia|].
  pose proof (line_code_words_nonneg line). lia.
Qed.

Lemma first_pass_lines_effect (padding_bits : Z -> Z) (lines : list string) :
  forall m m' : machine,
    for_each_line (FirstPass.first_pass_on_line padding_bits) lines m = Some (tt, m') ->
    error_flag (sfile m') = false ->
    IC (sfile m') = IC (sfile m) + code_words lines
    /\ extern_flag (sfile m')
       = extern_flag (sfile m) || existsb line_declares_extern lines
    /\ error_flag (sfile m) = false.
Proof.
  induction lines as [|line rest IH]; intros m m' H Herr; simpl in H.
  - apply ret_inv in H as [_ ->]. simpl. rewrite orb_false_r.
    repeat split; (lia || assumption).
  - apply bind_inv in H as ([] & m1 & Hline & Hrest).
    destruct (IH _ _ Hrest Herr) as (Hic & Hx & Herr1).
    destruct (first_pass_on_line_effect _ _ _ _ Hline Herr1) as (Hic1 & Hx1).
    simpl. rewrite Hic, Hx, Hic1, Hx1, orb_assoc. repeat split; try lia.
    pose proof (steady_first_pass_on_line _ _ _ _ _ Hline) as (_ & _ & _ & _ & Hmono & _).
    destruct (error_flag (sfile m)); [|reflexivity].
    rewrite Hmono in Herr1 by reflexivity. discriminate.
Qed.

(* ================================================================= *)
(** ** The second pass *)

#[local] Instance still_preorder : PreOrder still.
Proof.
  split.
  - intros m. unfold still. split; [|split; [|split]]; reflexivity.
  - intros m1 m2 m3 (Hd12 & Ha12 & Hx12 & Hs12) (Hd23 & Ha23 & Hx23 & Hs23).
    unfold still. split; [|split; [|split]]; try congruence.
    transitivity m2; assumption.
Qed.

#[local] Instance hushed_preorder : PreOrder hushed.
Proof.
  split.
  - intros m. unfold hushed. split; [|split]; reflexivity.
  - intros m1 m2 m3 (Hi12 & Hl12 & Hs12) (Hi23 & Hl23 & Hs23).
    unfold hushed. split; [|split]; try congruence.
    transitivity m2; assumption.
Qed.

Ltac still_leaf := solve [unfold still, steady, reported; cbn; intuition (auto; lia)].

Ltac hushed_leaf := solve [unfold hushed, still, steady, reported; cbn; intuition (auto; lia)].

Lemma still_of_hushed {A : Type} (c : M A) : preserves hushed c -> preserves still c.
Proof. apply preserves_weaken. unfold hushed. tauto. Qed.

Lemma hushed_add_error (code : error_code) : preserves hushed (SecondPass.add_error code).
Proof.
  intros m a m' H. unfold SecondPass.add_error in H. munfold_in H.
  inversion H; subst. unfold hushed, still, steady, reported. cbn.
  repeat split; auto using app_not_nil. lia.
Qed.

#[local] Hint Resolve hushed_add_error : preserves.

Lemma hushed_update_error_status (code : error_code) :
  preserves hushed (SecondPass.update_error_status code).
Proof. unfold SecondPass.update_error_status. preserves_with hushed_leaf. Qed.

Lemma hushed_get_next_word : preserves hushed SecondPass.get_next_word_without_comma.
Proof. unfold SecondPass.get_next_word_without_comma. preserves_with hushed_leaf. Qed.

Lemma hushed_check_for_comma : preserves hushed SecondPass.check_for_comma.
Proof. unfold SecondPass.check_for_comma. preserves_with hushed_leaf. Qed.

Lemma hushed_mark_entry (name : string) : preserves hushed (SecondPass.mark_entry name).
Proof. unfold SecondPass.mark_entry. preserves_with hushed_leaf. Qed.

#[local] Hint Resolve hushed_update_error_status hushed_get_next_word
  hushed_check_for_comma hushed_mark_entry : preserves.

Lemma hushed_mark_entry_labels_loop (fuel : nat) :
  preserves hushed (SecondPass.mark_entry_labels_loop fuel).
Proof.
  induction fuel as [|fuel IH]; simpl; preserves_with hushed_leaf.
Qed.

#[local] Hint Resolve hushed_mark_entry_labels_loop : preserves.

Lemma hushed_mark_entry_labels : preserves hushed SecondPass.mark_entry_labels.
Proof. unfold SecondPass.mark_entry_labels. preserves_with hushed_leaf. Qed.

Lemma still_complete_direct_operand (padding_bits : Z -> Z) (operand : string) :
  preserves still (SecondPass.complete_direct_operand padding_bits operand).
Proof.
  unfold SecondPass.complete_direct_operand, SecondPass.add_extern_label_to_array,
    SecondPass.increment_IC.
  preserves_structure;
    try solve [apply still_of_hushed; auto with preserves | still_leaf].
Qed.

Lemma still_complete_missing_instructions (padding_bits : Z -> Z) :
  preserves still (SecondPass.complete_missing_instructions padding_bits).
Proof.
  unfold SecondPass.complete_missing_instructions,
    SecondPass.update_the_rest_of_the_instruction_to_array,
    SecondPass.update_addressing_method_type, SecondPass.set_methods,
    SecondPass.increment_IC.
  preserves_structure;
    try solve [apply still_complete_direct_operand | still_leaf].
Qed.

Lemma still_action_by_status (padding_bits : Z -> Z) (status : line_status) :
  preserves still (SecondPass.action_by_status padding_bits status).
Proof.
  destruct status; cbn [SecondPass.action_by_status];
    try (apply preserves_ret; exact _).
  - apply still_complete_missing_instructions.
  - apply still_of_hushed, hushed_mark_entry_labels.
Qed.

Lemma still_second_pass_on_line (padding_bits : Z -> Z) (line : string) :
  preserves still (SecondPass.second_pass_on_line padding_bits line).
Proof.
  unfold SecondPass.second_pass_on_line, SecondPass.update_line_to_array,
    SecondPass.skip_on_label.
  preserves_structure; try solve [apply still_action_by_status | still_leaf].
Qed.

Lemma second_add_error_sets_flag (code : error_code) (m m' : machine) :
  SecondPass.add_error code m = Some (tt, m') -> error_flag (sfile m') = true.
Proof. unfold SecondPass.add_error. munfold. intros H. inversion H. reflexivity. Qed.

Lemma second_update_addressing_method_type_effect (m m' : machine) :
  SecondPass.update_addressing_method_type
    (get_instruction_type (word1 (line_struct (sfile m)))) m = Some (tt, m') ->
  IC (sfile m') = IC (sfile m)
  /\ source (line_struct (sfile m')) = fst (operand_methods (line_struct (sfile m)))
  /\ destination (line_struct (sfile m')) = snd (operand_methods (line_struct (sfile m))).
Proof.
  intros H.
  unfold SecondPass.update_addressing_method_type, SecondPass.set_methods in H.
  unfold operand_methods. munfold_in H.
  destruct (get_instruction_type (word1 (line_struct (sfile m))));
    inversion H; subst; cbn; auto.
Qed.

Lemma increment_IC_effect (m m' : machine) :
  SecondPass.increment_IC m = Some (tt, m') ->
  IC (sfile m') = IC (sfile m) + 1
  /\ line_struct (sfile m') = line_struct (sfile m)
  /\ error_flag (sfile m') = error_flag (sfile m).
Proof.
  unfold SecondPass.increment_IC. intros H. apply file_set_inv in H. subst m'.
  cbn. auto.
Qed.

Lemma complete_direct_operand_IC (padding_bits : Z -> Z) (operand : string)
    (m m' : machine) :
  SecondPass.complete_direct_operand padding_bits operand m = Some (tt, m') ->
  error_flag (sfile m') = false ->
  IC (sfile m') = IC (sfile m) + 1
  /\ line_struct (sfile m') = line_struct (sfile m).
Proof.
  intros H Herr. unfold SecondPass.complete_direct_operand in H.
  apply bind_inv in H as (head & m0 & Hget & H). apply file_get_inv in Hget as [-> ->].
  destruct (search_in_list_label (head_label_list (sfile m)) operand) as [label_node|].
  - apply bind_inv in H as ([] & m1 & Hext & H).
    assert (Hm1 : IC (sfile m1) = IC (sfile m)
                  /\ line_struct (sfile m1) = line_struct (sfile m)).
    { destruct (type_of_label_eqb (type label_node) EXTERN).
      - unfold SecondPass.add_extern_label_to_array in Hext.
        apply bind_inv in Hext as (ic & m0 & Hget & Hext).
        apply file_get_inv in Hget as [-> ->].
        apply bind_inv in Hext as (list & m0 & Hget & Hext).
        inversion Hget; subst; clear Hget.
        match type of Hext with
        | (if ?b then _ else _) _ = _ => destruct b; [|discriminate]
        end.
        inversion Hext; subst. cbn. auto.
      - apply ret_inv in Hext as [_ ->]. auto. }
    destruct Hm1 as [Hic1 Hl1].
    apply bind_inv in H as (ic & m0 & Hget & H). apply file_get_inv in Hget as [-> ->].
    apply bind_inv in H as (array & m0 & Hget & H). apply file_get_inv in Hget as [-> ->].
    apply bind_inv in H as (array' & m2 & Hw & H).
    match type of Hw with
    | lift_option ?o _ = _ => destruct o; [|discriminate]
    end.
    apply ret_inv in Hw as [-> ->].
    apply bind_inv in H as ([] & m3 & Hset & H). apply file_set_inv in Hset. subst m3.
    apply increment_IC_effect in H. destruct H as (Hic & Hl & _).
    cbn in Hic, Hl. split; congruence.
  - apply second_add_error_sets_flag in H. congruence.
Qed.

Lemma update_the_rest_IC (padding_bits : Z -> Z) (m m' : machine) :
  SecondPass.update_the_rest_of_the_instruction_to_array padding_bits m = Some (tt, m') ->
  error_flag (sfile m') = false ->
  IC (sfile m')
  = IC (sfile m)
    + operand_words (source (line_struct (sfile m))) (destination (line_struct (sfile m))).
Proof.
  unfold SecondPass.update_the_rest_of_the_instruction_to_array. intros H Herr.
  apply bind_inv in H as (line & m0 & Hget & H). apply file_get_inv in Hget as [-> ->].
  apply bind_inv in H as ([] & m1 & Hsrc & Hdst).
  assert (Herr1 : error_flag (sfile m1) = false).
  { assert (Hs : preserves still
                   (match destination (line_struct (sfile m)) with
                    | NOT_EXIST => ret tt
                    | IMMEDIATE => SecondPass.increment_IC
                    | DIRECT =>
                        SecondPass.complete_direct_operand padding_bits
                          (word4 (line_struct (sfile m)))
                    | REGISTER =>
                        when (negb (addressing_method_eqb
                                      (source (line_struct (sfile m))) REGISTER))
                          SecondPass.increment_IC
                    end)).
    { unfold SecondPass.increment_IC.
      preserves_structure;
        try solve [apply still_complete_direct_operand | still_leaf]. }
    apply Hs in Hdst. destruct Hdst as (_ & _ & _ & _ & _ & _ & _ & Hmono & _).
    destruct (error_flag (sfile m1)); [|reflexivity].
    rewrite Hmono in Herr by reflexivity. discriminate. }
  assert (Hs : IC (sfile m1)
               = IC (sfile m)
                 + match source (line_struct (sfile m)) with NOT_EXIST => 0 | _ => 1 end).
  { destruct (source (line_struct (sfile m))).
    - apply ret_inv in Hsrc as [_ ->]. lia.
    - now apply increment_IC_effect in Hsrc.
    - now apply complete_direct_operand_IC in Hsrc.
    - now apply increment_IC_effect in Hsrc. }
  unfold operand_words.
  assert (Hd : IC (sfile m')
               = IC (sfile m1)
                 + match destination (line_struct (sfile m)) with
                   | NOT_EXIST => 0
                   | REGISTER =>
                       if addressing_method_eqb (source (line_struct (sfile m))) REGISTER
                       then 0 else 1
                   | _ => 1
                   end).
  { destruct (destination (line_struct (sfile m))).
    - apply ret_inv in Hdst as [_ ->]. lia.
    - now apply increment_IC_effect in Hdst.
    - now apply complete_direct_operand_IC in Hdst.
    - apply when_inv in Hdst. destruct Hdst as [[Hb Hdst]|[Hb Hdst]].
      + apply negb_true_iff in Hb. rewrite Hb. now apply increment_IC_effect in Hdst.
      + apply negb_false_iff in Hb. rewrite Hb. inversion Hdst; subst. lia. }
  lia.
Qed.

Lemma complete_missing_instructions_IC (padding_bits : Z -> Z) (m m' : machine) :
  SecondPass.complete_missing_instructions padding_bits m = Some (tt, m') ->
  error_flag (sfile m') = false ->
  IC (sfile m') = IC (sfile m) + instruction_words (line_struct (sfile m)).
Proof.
  intros H Herr. unfold SecondPass.complete_missing_instructions in H.
  apply bind_inv in H as (line & m0 & Hget & H). apply file_get_inv in Hget as [-> ->].
  apply bind_inv in H as ([] & m1 & Hupd & H).
  apply bind_inv in H as ([] & m2 & Hinc & Hrest).
  apply second_update_addressing_method_type_effect in Hupd as (Hic1 & Hsrc & Hdst).
  apply increment_IC_effect in Hinc as (Hic2 & Hl2 & _).
  apply update_the_rest_IC in Hrest; [|assumption].
  unfold instruction_words. rewrite Hrest, Hl2, Hsrc, Hdst. lia.
Qed.

Lemma skip_on_label_effect (m m' : machine) :
  SecondPass.skip_on_label m = Some (tt, m') ->
  IC (sfile m') = IC (sfile m)
  /\ exists b l',
       is_label (line_struct (sfile m)) = Some (b, l')
       /\ line_struct (sfile m')
          = if b then delete_label_from_line_struct l' else l'.
Proof.
  intros H. unfold SecondPass.skip_on_label in H.
  apply bind_inv in H as (l & m0 & Hget & H). apply file_get_inv in Hget as [-> ->].
  destruct (is_label (line_struct (sfile m))) as [[b l']|] eqn:Hlab; [|discriminate].
  apply bind_inv in H as (r & m0 & Hret & H). apply ret_inv in Hret as [-> ->].
  apply bind_inv in H as ([] & m0 & Hset & H). apply file_set_inv in Hset. subst m0.
  cbn [fst snd] in H. destruct b; cbn [when] in H.
  - apply bind_inv in H as ([] & m1 & Hset & H). apply file_set_inv in Hset. subst m1.
    apply file_set_inv in H. subst m'. cbn. split; [reflexivity|].
    exists true, l'. auto.
  - apply ret_inv in H as [_ ->]. cbn. split; [reflexivity|]. exists false, l'. auto.
Qed.

Lemma second_action_by_status_IC (padding_bits : Z -> Z) (status : line_status)
    (m m' : machine) :
  SecondPass.action_by_status padding_bits status m = Some (tt, m') ->
  error_flag (sfile m') = false ->
  IC (sfile m')
  = IC (sfile m)
    + match status with
      | STATUS_CODE => instruction_words (line_struct (sfile m))
      | _ => 0
      end.
Proof.
  intros H Herr. destruct status; cbn [SecondPass.action_by_status] in H;
    try (apply ret_inv in H as [_ ->]; lia).
  - now apply complete_missing_instructions_IC in H.
  - apply hushed_mark_entry_labels in H. destruct H as (-> & _). lia.
Qed.

Lemma second_pass_on_line_effect (padding_bits : Z -> Z) (line : string)
    (m m' : machine) :
  SecondPass.second_pass_on_line padding_bits line m = Some (tt, m') ->
  error_flag (sfile m') = false ->
  IC (sfile m') = IC (sfile m) + line_code_words line.
Proof.
  intros H Herr. unfold SecondPass.second_pass_on_line in H.
  apply bind_inv in H as ([] & m0 & Hset & H). apply file_set_inv in Hset. subst m0.
  apply bind_inv in H as ([] & m0 & Hset & H). apply file_set_inv in Hset. subst m0.
  apply bind_inv in H as (text & m0 & Hget & H). apply file_get_inv in Hget as [-> ->].
  cbn in H.
  unfold line_code_words, line_status_of. cbv zeta.
  destruct (is_line_empty (c_str line)) eqn:Hempty.
  { apply ret_inv in H as [_ ->]. cbn. lia. }
  apply bind_inv in H as ([] & m0 & Hset & H). apply file_set_inv in Hset. subst m0.
  apply bind_inv in H as ([] & m2 & Hline & H).
  unfold SecondPass.update_line_to_array in Hline.
  apply bind_inv in Hline as (text & m0 & Hget & Hline).
  apply file_get_inv in Hget as [-> ->]. cbn in Hline.
  destruct (create_new_line_struct (c_str line)) as [l|] eqn:Hcreate;
    [|discriminate].
  apply bind_inv in Hline as (l0 & m0 & Hret & Hline). apply ret_inv in Hret as [-> ->].
  apply file_set_inv in Hline. subst m2.
  apply bind_inv in H as ([] & m3 & Hlabel & H).
  apply bind_inv in H as (pl & m0 & Hget & H). apply file_get_inv in Hget as [-> ->].
  unfold parsed_line. rewrite Hcreate.
  destruct (skip_on_label_effect _ _ Hlabel) as (Hic3 & b & l' & Hlab & Hl3).
  cbn in Hic3, Hlab. rewrite Hlab.
  replace (match (if b then Some (delete_label_from_line_struct l') else Some l') with
           | Some l0 => _ | None => _ end) with
    (if count_eqb (count (line_struct (sfile m3))) ZERO then None
     else Some (FirstPass.get_word_status (word1 (line_struct (sfile m3))),
                line_struct (sfile m3))) by (destruct b; rewrite Hl3; reflexivity).
  clear Hlabel.
  destruct (count_eqb (count (line_struct (sfile m3))) ZERO).
  - apply ret_inv in H as [_ ->]. lia.
  - apply second_action_by_status_IC in H; [|assumption].
    rewrite H, Hic3.
    change (SecondPass.get_word_status (word1 (line_struct (sfile m3))))
      with (FirstPass.get_word_status (word1 (line_struct (sfile m3)))).
    destruct (FirstPass.get_word_status (word1 (line_struct (sfile m3)))); auto.
Qed.

Lemma second_pass_lines_effect (padding_bits : Z -> Z) (lines : list string) :
  forall m m' : machine,
    for_each_line (SecondPass.second_pass_on_line padding_bits) lines m = Some (tt, m') ->
    error_flag (sfile m') = false ->
    IC (sfile m') = IC (sfile m) + code_words lines
    /\ error_flag (sfile m) = false.
Proof.
  induction lines as [|line rest IH]; intros m m' H Herr; simpl in H.
  - apply ret_inv in H as [_ ->]. simpl. split; (lia || assumption).
  - apply bind_inv in H as ([] & m1 & Hline & Hrest).
    destruct (IH _ _ Hrest Herr) as (Hic & Herr1).
    pose proof (second_pass_on_line_effect _ _ _ _ Hline Herr1) as Hic1.
    simpl. split; [lia|].
    pose proof (still_second_pass_on_line _ _ _ _ _ Hline)
      as (_ & _ & _ & _ & _ & _ & _ & Hmono & _).
    destruct (error_flag (sfile m)); [|reflexivity].
    rewrite Hmono in Herr1 by reflexivity. discriminate.
Qed.

(* ================================================================= *)
(** ** The lines of the object file *)

Lemma count_newlines_app (a b : string) :
  count_newlines (a ++ b) = count_newlines a + count_newlines b.
Proof. induction a as [|c a IH]; simpl; [reflexivity|]. rewrite IH. lia. Qed.

Lemma digit_is_not_newline (d : Z) :
  0 <= d < 10 -> char_eqb (ascii_of_nat (Z.to_nat (48 + d))) LF = false.
Proof.
  intros Hd.
  assert (Hcases : d = 0 \/ d = 1 \/ d = 2 \/ d = 3 \/ d = 4 \/ d = 5 \/ d = 6
                   \/ d = 7 \/ d = 8 \/ d = 9) by lia.
  repeat (destruct Hcases as [->|Hcases]; [reflexivity|]). subst d. reflexivity.
Qed.

Lemma count_newlines_decimal_digits (fuel : nat) :
  forall (n : Z) (acc : string),
    count_newlines (decimal_digits fuel n acc) = count_newlines acc.
Proof.
  induction fuel as [|fuel IH]; intros n acc; cbn [decimal_digits]; [reflexivity|].
  assert (Hd : char_eqb (ascii_of_nat (Z.to_nat (48 + n mod 10))) LF = false)
    by (apply digit_is_not_newline, Z.mod_pos_bound; lia).
  cbv zeta.
  destruct (n / 10 =? 0); [|rewrite IH]; cbn [count_newlines]; rewrite Hd; reflexivity.
Qed.

Lemma count_newlines_print_int (n : Z) : count_newlines (print_int n) = 0.
Proof.
  unfold print_int. destruct (n <? 0).
  - cbn [count_newlines]. now rewrite count_newlines_decimal_digits.
  - now rewrite count_newlines_decimal_digits.
Qed.

Lemma char_at_no_newline (text : string) :
  no_newline text = true -> forall i, char_eqb (char_at text i) LF = false.
Proof.
  induction text as [|c rest IH]; intros Hno i.
  - destruct i; reflexivity.
  - simpl in Hno. apply andb_true_iff in Hno. destruct Hno as [Hc Hrest].
    destruct i as [|i].
    + now apply negb_true_iff in Hc.
    + apply (IH Hrest i).
Qed.

Lemma count_newlines_convert (word : Z) :
  count_newlines (convert_binary_to_64base word) = 1.
Proof.
  unfold convert_binary_to_64base. cbn [count_newlines].
  rewrite !(char_at_no_newline base64_table) by reflexivity. reflexivity.
Qed.

Lemma count_newlines_object_words (array : list Z) (n : nat) :
  forall (first : Z) (text : string),
    SecondPass.object_words array first n = Some text ->
    count_newlines text = Z.of_nat n.
Proof.
  induction n as [|n IH]; intros first text H; cbn [SecondPass.object_words] in H.
  - inversion H. reflexivity.
  - destruct (array_read array first) as [word|]; [|discriminate].
    destruct (SecondPass.object_words array (first + 1) n) as [tail|] eqn:Htail;
      [|discriminate].
    injection H as <-.
    change (count_newlines (convert_binary_to_64base word ++ tail) = Z.of_nat (S n)).
    rewrite count_newlines_app, count_newlines_convert, (IH _ _ Htail). lia.
Qed.

(** What [create_all_files] writes. *)
Lemma create_all_files_effect (m m' : machine) :
  SecondPass.create_all_files m = Some (tt, m') ->
  IC (sfile m') = IC (sfile m)
  /\ DC (sfile m') = DC (sfile m)
  /\ error_flag (sfile m') = error_flag (sfile m)
  /\ console m' = console m
  /\ extern_list m' = extern_list m
  /\ file_ext (sfile m')
     = (if extern_flag (sfile m) then Some (extern_list m) else file_ext (sfile m))
  /\ exists code_text data_text,
       file_ob (sfile m')
       = Some (SecondPass.object_header (IC (sfile m) - FIRST_CELL_IN_MEMORY)
                 (DC (sfile m)) ++ code_text ++ data_text)%string
       /\ count_newlines code_text = Z.of_nat (Z.to_nat (IC (sfile m) - FIRST_CELL_IN_MEMORY))
       /\ count_newlines data_text = Z.of_nat (Z.to_nat (DC (sfile m))).
Proof.
  intros H. unfold SecondPass.create_all_files in H.
  apply bind_inv in H as (has_entries & m0 & Hget & H).
  apply file_get_inv in Hget as [-> ->].
  apply bind_inv in H as ([] & m1 & Hent & H).
  assert (H1 : IC (sfile m1) = IC (sfile m) /\ DC (sfile m1) = DC (sfile m)
               /\ error_flag (sfile m1) = error_flag (sfile m)
               /\ console m1 = console m /\ extern_list m1 = extern_list m
               /\ extern_flag (sfile m1) = extern_flag (sfile m)
               /\ file_ext (sfile m1) = file_ext (sfile m)
               /\ instruction_array (sfile m1) = instruction_array (sfile m)
               /\ data_array (sfile m1) = data_array (sfile m)).
  { apply when_inv in Hent. destruct Hent as [[_ Hent]|[_ Hent]].
    - apply bind_inv in Hent as (head & m0 & Hget & Hent).
      apply file_get_inv in Hget as [-> ->].
      apply bind_inv in Hent as (list & m0 & Hlist & Hent).
      destruct (get_entry_list (head_label_list (sfile m))); [|discriminate].
      apply ret_inv in Hlist as [-> ->].
      apply file_set_inv in Hent. subst m1. cbn. repeat split.
    - inversion Hent; subst. repeat split. }
  destruct H1 as (Hic1 & Hdc1 & He1 & Hc1 & Hl1 & Hx1 & Hf1 & Hia1 & Hda1).
  apply bind_inv in H as (has_externs & m0 & Hget & H).
  apply file_get_inv in Hget as [-> ->].
  apply bind_inv in H as ([] & m2 & Hext & H).
  assert (H2 : IC (sfile m2) = IC (sfile m) /\ DC (sfile m2) = DC (sfile m)
               /\ error_flag (sfile m2) = error_flag (sfile m)
               /\ console m2 = console m /\ extern_list m2 = extern_list m
               /\ file_ext (sfile m2)
                  = (if extern_flag (sfile m) then Some (extern_list m)
                     else file_ext (sfile m))
               /\ instruction_array (sfile m2) = instruction_array (sfile m)
               /\ data_array (sfile m2) = data_array (sfile m)).
  { rewrite Hx1 in Hext. destruct (extern_flag (sfile m)); cbn [when] in Hext.
    - apply bind_inv in Hext as (list & m0 & Hget & Hext).
      inversion Hget; subst; clear Hget.
      apply file_set_inv in Hext. subst m2. cbn.
      repeat split; try assumption. now rewrite Hl1.
    - apply ret_inv in Hext as [_ ->]. repeat split; assumption. }
  destruct H2 as (Hic2 & Hdc2 & He2 & Hc2 & Hl2 & Hf2 & Hia2 & Hda2).
  unfold SecondPass.create_object_file in H.
  apply bind_inv in H as (ic & m0 & Hget & H). apply file_get_inv in Hget as [-> ->].
  apply bind_inv in H as (dc & m0 & Hget & H). apply file_get_inv in Hget as [-> ->].
  apply bind_inv in H as (code & m0 & Hget & H). apply file_get_inv in Hget as [-> ->].
  apply bind_inv in H as (data & m0 & Hget & H). apply file_get_inv in Hget as [-> ->].
  cbv zeta in H.
  apply bind_inv in H as (code_text & m0 & Hcode & H).
  destruct (SecondPass.object_words (instruction_array (sfile m2)) FIRST_CELL_IN_MEMORY
              (Z.to_nat (IC (sfile m2) - FIRST_CELL_IN_MEMORY))) as [ct|] eqn:Hct;
    [|discriminate].
  apply ret_inv in Hcode as [-> ->].
  apply bind_inv in H as (data_text & m0 & Hdata & H).
  destruct (SecondPass.object_words (data_array (sfile m2)) 0 (Z.to_nat (DC (sfile m2))))
    as [dt|] eqn:Hdt; [|discriminate].
  apply ret_inv in Hdata as [-> ->].
  apply file_set_inv in H. subst m'.
  cbn [sfile set_sfile IC DC error_flag console extern_list file_ext file_ob
       set_file_ob].
  apply count_newlines_object_words in Hct, Hdt.
  rewrite Hic2 in *. rewrite Hdc2 in *.
  do 2 (split; [reflexivity|]). do 4 (split; [assumption|]).
  exists ct, dt. split; [reflexivity|]. split; assumption.
Qed.

(* ================================================================= *)
(** ** The three passes on a file *)

#[local] Instance preparing_preorder : PreOrder preparing.
Proof.
  split.
  - intros m. unfold preparing. tauto.
  - intros m1 m2 m3 (Hi12 & Hd12 & Hx12 & Ho12 & Hf12 & He12 & Hr12)
                    (Hi23 & Hd23 & Hx23 & Ho23 & Hf23 & He23 & Hr23).
    unfold preparing. repeat split; try congruence; tauto.
Qed.

Ltac preparing_leaf := solve [unfold preparing, reported; cbn; intuition auto].

Lemma preparing_add_error (code : error_code) :
  preserves preparing (PreAssembly.add_error code).
Proof.
  intros m a m' H. unfold PreAssembly.add_error in H. munfold_in H.
  inversion H; subst. unfold preparing, reported. cbn.
  repeat split; auto using app_not_nil.
Qed.

Lemma preparing_pre_assembly : preserves preparing PreAssembly.start_pre_assembly.
Proof.
  unfold PreAssembly.start_pre_assembly, PreAssembly.pre_assembly_on_curr_file,
    PreAssembly.update_files.
  preserves_structure; try preparing_leaf.
  apply preserves_for_each_line; [exact _|]. intros line.
  unfold PreAssembly.pre_assembly_on_line, PreAssembly.update_line_to_array,
    PreAssembly.get_first_word_status, PreAssembly.action_by_status,
    PreAssembly.paste_macro_text, PreAssembly.update_name_of_macro,
    PreAssembly.add_new_macro_to_list, PreAssembly.add_text_to_macro,
    PreAssembly.paste_code_text, PreAssembly.fputs_am,
    PreAssembly.update_error_status, PreAssembly.update_files.
  preserves_structure; first [apply preparing_add_error | preparing_leaf].
Qed.

Lemma steady_first_pass (padding_bits : Z -> Z) :
  preserves steady (FirstPass.start_first_pass padding_bits).
Proof.
  unfold FirstPass.start_first_pass, FirstPass.first_pass_on_curr_file,
    FirstPass.update_address_label_of_data.
  preserves_structure; try steady_leaf.
  apply preserves_for_each_line; [exact _|]. apply steady_first_pass_on_line.
Qed.

(** The first pass on the expanded file, when it ends without a
    diagnostic. *)
Lemma first_pass_effect (padding_bits : Z -> Z) (m m' : machine) :
  FirstPass.start_first_pass padding_bits m = Some (tt, m') ->
  error_flag (sfile m') = false ->
  IC (sfile m') = IC (sfile m) + code_words (read_lines (file_am (sfile m)))
  /\ extern_flag (sfile m')
     = extern_flag (sfile m)
       || existsb line_declares_extern (read_lines (file_am (sfile m))).
Proof.
  intros H Herr.
  unfold FirstPass.start_first_pass, FirstPass.first_pass_on_curr_file in H.
  apply bind_inv in H as ([] & m0 & Hset & H). apply file_set_inv in Hset. subst m0.
  apply bind_inv in H as (expanded & m0 & Hget & H).
  apply file_get_inv in Hget as [-> ->]. state_cbn_in H.
  apply bind_inv in H as ([] & m1 & Hlines & H).
  apply bind_inv in H as (failed & m0 & Hget & H).
  apply file_get_inv in Hget as [-> ->].
  assert (Hm' : IC (sfile m') = IC (sfile m1)
                /\ extern_flag (sfile m') = extern_flag (sfile m1)
                /\ error_flag (sfile m') = error_flag (sfile m1)).
  { apply when_inv in H. destruct H as [[_ H]|[_ H]].
    - unfold FirstPass.update_address_label_of_data in H.
      apply bind_inv in H as (ic & m0 & Hget & H).
      apply file_get_inv in Hget as [-> ->].
      apply bind_inv in H as (head & m0 & Hget & H).
      apply file_get_inv in Hget as [-> ->].
      apply bind_inv in H as (head' & m0 & Hhead & H).
      apply lift_option_inv in Hhead as [_ ->].
      apply file_set_inv in H. subst m'. cbn. auto.
    - inversion H; subst. auto. }
  destruct Hm' as (-> & -> & Herr1). rewrite Herr1 in Herr.
  apply first_pass_lines_effect in Hlines; [|assumption].
  destruct Hlines as (Hic & Hx & _). state_cbn_in Hic. state_cbn_in Hx. auto.
Qed.

(** The second pass, when it ends without a diagnostic. *)
Lemma second_pass_effect (padding_bits : Z -> Z) (m m' : machine) :
  SecondPass.start_second_pass padding_bits m = Some (tt, m') ->
  error_flag (sfile m') = false ->
  error_flag (sfile m) = false
  /\ IC (sfile m')
     = FIRST_CELL_IN_MEMORY + code_words (read_lines (file_am (sfile m)))
  /\ DC (sfile m') = DC (sfile m)
  /\ file_ext (sfile m')
     = (if extern_flag (sfile m) then Some (extern_list m') else file_ext (sfile m))
  /\ exists code_text data_text,
       file_ob (sfile m')
       = Some (SecondPass.object_header (IC (sfile m') - FIRST_CELL_IN_MEMORY)
                 (DC (sfile m')) ++ code_text ++ data_text)%string
       /\ count_newlines code_text
          = Z.of_nat (Z.to_nat (IC (sfile m') - FIRST_CELL_IN_MEMORY))
       /\ count_newlines data_text = Z.of_nat (Z.to_nat (DC (sfile m'))).
Proof.
  intros H Herr.
  unfold SecondPass.start_second_pass, SecondPass.second_pass_on_curr_file in H.
  apply bind_inv in H as ([] & m0 & Hset & H). apply file_set_inv in Hset. subst m0.
  apply bind_inv in H as ([] & m0 & Hset & H). inversion Hset; subst m0; clear Hset.
  apply bind_inv in H as ([] & m0 & Hset & H). apply file_set_inv in Hset. subst m0.
  apply bind_inv in H as (expanded & m0 & Hget & H).
  apply file_get_inv in Hget as [-> ->]. state_cbn_in H.
  apply bind_inv in H as ([] & m1 & Hlines & H).
  apply bind_inv in H as (failed & m0 & Hget & H).
  apply file_get_inv in Hget as [-> ->].
  apply bind_inv in H as ([] & m2 & Hfiles & H).
  apply file_set_inv in H. subst m'. state_cbn_in Herr. state_cbn.
  pose proof (preserves_for_each_line still _ _
                (still_second_pass_on_line padding_bits) _ _ _ Hlines)
    as (Hdc & _ & Hx & (_ & _ & _ & Hfx & _)).
  state_cbn_in Hdc. state_cbn_in Hx. state_cbn_in Hfx.
  apply when_inv in Hfiles. destruct Hfiles as [[Hok Hfiles]|[Hfailed Hfiles]].
  2:{ inversion Hfiles; subst. apply negb_false_iff in Hfailed. congruence. }
  apply create_all_files_effect in Hfiles.
  destruct Hfiles as (Hic2 & Hdc2 & He2 & _ & Hl2 & Hf2 & code_text & data_text & Hob & Hct & Hdt).
  rewrite He2 in Herr.
  apply second_pass_lines_effect in Hlines; [|assumption].
  destruct Hlines as (Hic & Herr0). state_cbn_in Hic. state_cbn_in Herr0.
  split; [assumption|]. split; [congruence|]. split; [congruence|].
  split; [rewrite Hf2, Hx, Hfx, Hl2; reflexivity|].
  exists code_text, data_text. rewrite Hic2, Hdc2. auto.
Qed.

(** The second pass keeps the link between the error flag and the
    console. *)
Lemma second_pass_reported (padding_bits : Z -> Z) (m m' : machine) :
  SecondPass.start_second_pass padding_bits m = Some (tt, m') ->
  reported m -> reported m'.
Proof.
  intros H Hrep.
  unfold SecondPass.start_second_pass, SecondPass.second_pass_on_curr_file in H.
  apply bind_inv in H as ([] & m0 & Hset & H). apply file_set_inv in Hset. subst m0.
  apply bind_inv in H as ([] & m0 & Hset & H). inversion Hset; subst m0; clear Hset.
  apply bind_inv in H as ([] & m0 & Hset & H). apply file_set_inv in Hset. subst m0.
  apply bind_inv in H as (expanded & m0 & Hget & H).
  apply file_get_inv in Hget as [-> ->]. state_cbn_in H.
  apply bind_inv in H as ([] & m1 & Hlines & H).
  apply bind_inv in H as (failed & m0 & Hget & H).
  apply file_get_inv in Hget as [-> ->].
  apply bind_inv in H as ([] & m2 & Hfiles & H).
  apply file_set_inv in H. subst m'.
  pose proof (preserves_for_each_line still _ _
                (still_second_pass_on_line padding_bits) _ _ _ Hlines)
    as (_ & _ & _ & (_ & _ & _ & _ & _ & _ & Hr)).
  assert (Hrep1 : reported m1) by (apply Hr; exact Hrep).
  unfold reported in *. state_cbn.
  apply when_inv in Hfiles. destruct Hfiles as [[_ Hfiles]|[_ Hfiles]].
  - apply create_all_files_effect in Hfiles.
    destruct Hfiles as (_ & _ & He2 & Hc2 & _). rewrite He2, Hc2. exact Hrep1.
  - inversion Hfiles; subst. exact Hrep1.
Qed.

Lemma count_newlines_object_header (code_word_count data_word_count : Z) :
  count_newlines (SecondPass.object_header code_word_count data_word_count) = 1.
Proof.
  unfold SecondPass.object_header.
  rewrite !count_newlines_app, !count_newlines_print_int. reflexivity.
Qed.

(** The facts about a translation without a diagnostic that the
    properties of the artefacts rest on. *)
Lemma translation_without_diagnostic (padding_bits : Z -> Z) (source_text : string)
    (m : machine) :
  start_assembly_process_on_file padding_bits source_text = Some m ->
  console m = [] ->
  exists m1 : machine,
    first_pass_result padding_bits source_text = Some m1
    /\ error_flag (sfile m1) = false
    /\ IC (sfile m) = IC (sfile m1)
    /\ DC (sfile m) = DC (sfile m1)
    /\ 0 <= IC (sfile m1) - FIRST_CELL_IN_MEMORY
    /\ 0 <= DC (sfile m1)
    /\ file_ext (sfile m)
       = (if existsb line_declares_extern (read_lines (file_am (sfile m)))
          then Some (extern_list m) else None)
    /\ exists code_text data_text,
         file_ob (sfile m)
         = Some (SecondPass.object_header (IC (sfile m) - FIRST_CELL_IN_MEMORY)
                   (DC (sfile m)) ++ code_text ++ data_text)%string
         /\ count_newlines code_text
            = Z.of_nat (Z.to_nat (IC (sfile m) - FIRST_CELL_IN_MEMORY))
         /\ count_newlines data_text = Z.of_nat (Z.to_nat (DC (sfile m))).
Proof.
  intros Hrun Hconsole. unfold start_assembly_process_on_file in Hrun.
  apply exec_bind_inv in Hrun as ([] & m0 & Hpre & Hrun).
  apply exec_bind_inv in Hrun as ([] & m1 & Hfirst & Hsecond).
  apply exec_inv in Hsecond.
  exists m1.
  pose proof (preparing_pre_assembly _ _ _ Hpre)
    as (Hic0 & Hdc0 & Hx0 & _ & Hf0 & _ & Hr0).
  pose proof (steady_first_pass _ _ _ _ Hfirst)
    as (Ham1 & _ & _ & Hf1 & _ & Hdc1 & Hr1).
  assert (Hrep : reported m).
  { eapply second_pass_reported; [eassumption|]. apply Hr1, Hr0.
    unfold reported. cbn. discriminate. }
  assert (Herr : error_flag (sfile m) = false).
  { destruct (error_flag (sfile m)) eqn:He; [|reflexivity].
    exfalso. apply Hrep; [exact He | assumption]. }
  assert (Ham : file_am (sfile m) = file_am (sfile m1)).
  { unfold SecondPass.start_second_pass, SecondPass.second_pass_on_curr_file in Hsecond.
    clear - Hsecond Herr.
    apply bind_inv in Hsecond as ([] & m0 & Hset & H). apply file_set_inv in Hset. subst m0.
    apply bind_inv in H as ([] & m0 & Hset & H). inversion Hset; subst m0; clear Hset.
    apply bind_inv in H as ([] & m0 & Hset & H). apply file_set_inv in Hset. subst m0.
    apply bind_inv in H as (expanded & m0 & Hget & H).
    apply file_get_inv in Hget as [-> ->]. state_cbn_in H.
    apply bind_inv in H as ([] & m2 & Hlines & H).
    apply bind_inv in H as (failed & m0 & Hget & H).
    apply file_get_inv in Hget as [-> ->].
    apply bind_inv in H as ([] & m3 & Hfiles & H).
    apply file_set_inv in H. subst m. state_cbn.
    pose proof (preserves_for_each_line still _ _
                  (still_second_pass_on_line padding_bits) _ _ _ Hlines)
      as (_ & _ & _ & (Ham & _)).
    state_cbn_in Ham. rewrite <- Ham.
    apply when_inv in Hfiles. destruct Hfiles as [[_ Hfiles]|[_ Hfiles]].
    - unfold SecondPass.create_all_files, SecondPass.create_object_file in Hfiles.
      assert (Hk : preserves (fun a b => file_am (sfile b) = file_am (sfile a))
                     (SecondPass.create_all_files)).
      { unfold SecondPass.create_all_files, SecondPass.create_object_file.
        assert (PreOrder (fun a b : machine => file_am (sfile b) = file_am (sfile a))).
        { split; [intros x; reflexivity | intros x y z Hxy Hyz; congruence]. }
        preserves_structure; reflexivity. }
      eapply Hk. unfold SecondPass.create_all_files, SecondPass.create_object_file.
      eassumption.
    - inversion Hfiles; subst. reflexivity. }
  apply second_pass_effect in Hsecond; [|assumption].
  destruct Hsecond as (Herr1 & Hic & Hdc & Hext & Hob).
  pose proof Hfirst as Hfirst'.
  apply first_pass_effect in Hfirst'; [|assumption].
  destruct Hfirst' as (Hic1 & Hx1).
  cbn in Hic0, Hdc0, Hx0, Hf0.
  pose proof (code_words_nonneg (read_lines (file_am (sfile m0)))) as Hnonneg.
  split.
  { unfold first_pass_result, exec, bind. rewrite Hpre, Hfirst. reflexivity. }
  split; [assumption|].
  split; [rewrite Hic, Hic1, Hic0, Ham1; reflexivity|].
  split; [assumption|].
  split; [rewrite Hic1, Hic0; unfold FIRST_CELL_IN_MEMORY; lia|].
  split; [lia|].
  split.
  { rewrite Hext, Hx1, Hx0, Hf1, Hf0, Ham, Ham1. cbn [orb]. reflexivity. }
  exact Hob.
Qed.

(* ================================================================= *)
(** ** The bound on the repetitions of the comma loops *)

Lemma skip_white_loop_ge (rest : string) :
  forall pos : nat, (pos <= skip_white_loop rest pos)%nat.
Proof.
  induction rest as [|c rest IH]; intros pos; simpl; [lia|].
  destruct (is_blank c); [|lia]. specialize (IH (S pos)). lia.
Qed.

Lemma skip_white_character_ge (pos : nat) (text : string) :
  (pos <= skip_white_character pos text)%nat.
Proof. apply skip_white_loop_ge. Qed.

Lemma char_at_beyond (text : string) :
  forall pos : nat, (String.length text <= pos)%nat -> char_at text pos = NUL.
Proof.
  unfold char_at. induction text as [|c text IH]; intros pos Hlen.
  - destruct pos; reflexivity.
  - destruct pos as [|pos]; simpl in *; [lia|]. apply IH. lia.
Qed.

Lemma comma_is_inside (text : string) (pos : nat) :
  char_eqb (char_at text pos) COMMA = true -> (pos < String.length text)%nat.
Proof.
  intros H. destruct (Nat.lt_ge_cases pos (String.length text)) as [|Hge]; [assumption|].
  rewrite (char_at_beyond _ _ Hge) in H. discriminate.
Qed.

#[local] Instance advancing_preorder : PreOrder advancing.
Proof.
  split.
  - intros m. unfold advancing. auto.
  - intros m1 m2 m3 [Ht12 Hp12] [Ht23 Hp23]. unfold advancing.
    split; [congruence | lia].
Qed.

Ltac advancing_leaf := solve [unfold advancing; cbn; auto].

Section NextWord.

Variable next_word_loop : string -> nat -> string * nat.

Hypothesis next_word_loop_ge :
  forall rest pos, (pos <= snd (next_word_loop rest pos))%nat.

Lemma advancing_next_word (m m' : machine) (w : string) :
  (text <- file_get line_text ;;
   pos <- file_get pos_in_line ;;
   let (temp_word, pos) := next_word_loop (string_from pos text) pos in
   file_set (set_pos_in_line (skip_white_character pos text)) ;;
   ret temp_word) m = Some (w, m') ->
  advancing m m'.
Proof.
  munfold. intros H.
  pose proof (next_word_loop_ge
                (string_from (pos_in_line (sfile m)) (line_text (sfile m)))
                (pos_in_line (sfile m))) as Hge.
  destruct (next_word_loop
              (string_from (pos_in_line (sfile m)) (line_text (sfile m)))
              (pos_in_line (sfile m))) as [temp_word pos].
  inversion H; subst. unfold advancing. cbn. split; [reflexivity|].
  pose proof (skip_white_character_ge pos (line_text (sfile m))). simpl in Hge. lia.
Qed.

End NextWord.

Lemma first_next_word_loop_ge (rest : string) :
  forall pos : nat, (pos <= snd (FirstPass.next_word_loop rest pos))%nat.
Proof.
  induction rest as [|c rest IH]; intros pos; simpl; [lia|].
  destruct (is_blank c || char_eqb c LF || char_eqb c COMMA || char_eqb c NUL);
    simpl; [lia|].
  specialize (IH (S pos)). destruct (FirstPass.next_word_loop rest (S pos)). simpl in *. lia.
Qed.

Lemma second_next_word_loop_ge (rest : string) :
  forall pos : nat, (pos <= snd (SecondPass.next_word_loop rest pos))%nat.
Proof.
  induction rest as [|c rest IH]; intros pos; simpl; [lia|].
  destruct (is_blank c || char_eqb c LF || char_eqb c COMMA || char_eqb c NUL);
    simpl; [lia|].
  specialize (IH (S pos)). destruct (SecondPass.next_word_loop rest (S pos)). simpl in *. lia.
Qed.

Lemma advancing_get_next_word_first :
  preserves advancing FirstPass.get_next_word_without_comma.
Proof.
  intros m w m' H. eapply advancing_next_word; [|exact H].
  exact first_next_word_loop_ge.
Qed.

Lemma advancing_get_next_word_second :
  preserves advancing SecondPass.get_next_word_without_comma.
Proof.
  intros m w m' H. eapply advancing_next_word; [|exact H].
  exact second_next_word_loop_ge.
Qed.

Lemma advancing_add_error_first (code : error_code) :
  preserves advancing (FirstPass.add_error code).
Proof. unfold FirstPass.add_error. preserves_structure; advancing_leaf. Qed.

Lemma advancing_add_error_second (code : error_code) :
  preserves advancing (SecondPass.add_error code).
Proof. unfold SecondPass.add_error. preserves_structure; advancing_leaf. Qed.

#[local] Hint Resolve advancing_get_next_word_first advancing_get_next_word_second
  advancing_add_error_first advancing_add_error_second : preserves.

Lemma advancing_save_data_value : preserves advancing FirstPass.save_data_value.
Proof.
  unfold FirstPass.save_data_value, FirstPass.push_data.
  preserves_with advancing_leaf.
Qed.

Lemma advancing_extern_item (temp_word : string) :
  preserves advancing
    (if is_label_name_valid temp_word
     then code <- FirstPass.add_label temp_word 0 EXTERN ;;
          FirstPass.update_error_status code
     else FirstPass.add_error INVALID_LABEL_NAME).
Proof.
  unfold FirstPass.add_label, FirstPass.update_error_status.
  preserves_with advancing_leaf.
Qed.

Lemma advancing_entry_item (temp_word : string) :
  preserves advancing
    (if is_label_name_valid temp_word
     then code <- SecondPass.mark_entry temp_word ;;
          SecondPass.update_error_status code
     else SecondPass.add_error INVALID_LABEL_NAME).
Proof.
  unfold SecondPass.mark_entry, SecondPass.update_error_status.
  preserves_with advancing_leaf.
Qed.

Lemma check_for_comma_first_true (m m' : machine) :
  FirstPass.check_for_comma m = Some (true, m') ->
  line_text (sfile m') = line_text (sfile m)
  /\ pos_in_line (sfile m') = S (pos_in_line (sfile m))
  /\ (pos_in_line (sfile m) < String.length (line_text (sfile m)))%nat.
Proof.
  unfold FirstPass.check_for_comma. munfold. intros H.
  destruct (char_eqb (char_at (line_text (sfile m)) (pos_in_line (sfile m))) COMMA)
    eqn:Hc.
  - inversion H; subst. cbn. repeat split. now apply comma_is_inside.
  - destruct (negb (is_line_end (char_at (line_text (sfile m)) (pos_in_line (sfile m)))));
      [unfold FirstPass.add_error in H; munfold_in H|]; discriminate.
Qed.

Lemma check_for_comma_second_true (m m' : machine) :
  SecondPass.check_for_comma m = Some (true, m') ->
  line_text (sfile m') = line_text (sfile m)
  /\ pos_in_line (sfile m') = S (pos_in_line (sfile m))
  /\ (pos_in_line (sfile m) < String.length (line_text (sfile m)))%nat.
Proof.
  unfold SecondPass.check_for_comma. munfold. intros H.
  destruct (char_eqb (char_at (line_text (sfile m)) (pos_in_line (sfile m))) COMMA)
    eqn:Hc.
  - inversion H; subst. cbn. repeat split. now apply comma_is_inside.
  - destruct (negb (is_line_end (char_at (line_text (sfile m)) (pos_in_line (sfile m)))));
      [unfold SecondPass.add_error in H; munfold_in H|]; discriminate.
Qed.

Section CommaLoop.

(** The three [do ... while] loops over a comma separated list have one
    shape: [stop] reports the misplaced comma, [item] reads and handles
    one element, [check] is the module's [check_for_comma]. *)
Variable stop : M unit.

Variable item : M unit.

Variable check : M bool.

Variable loop : nat -> M unit.

Hypothesis item_advancing : preserves advancing item.

Hypothesis check_true :
  forall m m' : machine,
    check m = Some (true, m') ->
    line_text (sfile m') = line_text (sfile m)
    /\ pos_in_line (sfile m') = S (pos_in_line (sfile m))
    /\ (pos_in_line (sfile m) < String.length (line_text (sfile m)))%nat.

Hypothesis loop_step :
  forall (fuel : nat) (m : machine),
    loop fuel m =
    (file_set (fun f =>
       set_pos_in_line (skip_white_character (pos_in_line f) (line_text f)) f) ;;
     text <- file_get line_text ;;
     pos <- file_get pos_in_line ;;
     if char_eqb (char_at text pos) COMMA then stop
     else
       item ;;
       again <- check ;;
       if again then
         match fuel with
         | S fuel' => loop fuel'
         | O => undefined
         end
       else ret tt) m.

(** Every repetition but the last consumes a comma of the line, so with
    [fuel] at least the number of characters left in the line the case of
    exhausted fuel is not reached, and more fuel changes nothing. *)
Lemma comma_loop_fuel (fuel : nat) :
  forall (extra : nat) (m : machine),
    (String.length (line_text (sfile m)) <= pos_in_line (sfile m) + fuel)%nat ->
    loop (fuel + extra) m = loop fuel m.
Proof.
  induction fuel as [|fuel IH]; intros extra m Hlen;
    match goal with
    | |- loop ?more m = loop ?less m => rewrite (loop_step more m), (loop_step less m)
    end;
    (apply bind_congr; intros [] m1 H1; apply file_set_inv in H1;
     apply bind_congr; intros text m2 H2; apply file_get_inv in H2 as [-> ->];
     apply bind_congr; intros pos m2 H2; apply file_get_inv in H2 as [-> ->];
     destruct (char_eqb (char_at (line_text (sfile m1)) (pos_in_line (sfile m1))) COMMA);
       [reflexivity|];
     apply bind_congr; intros [] m2 H2; apply item_advancing in H2;
     apply bind_congr; intros again m3 H3; destruct again; [|reflexivity];
     apply check_true in H3; destruct H3 as (Ht & Hp & Hlt);
     destruct H2 as [Ht2 Hp2]; subst m1; cbn in Ht2, Hp2;
     pose proof (skip_white_character_ge (pos_in_line (sfile m)) (line_text (sfile m)))).
  - exfalso. rewrite Ht2 in Hlt. lia.
  - cbn [Nat.add]. apply IH. rewrite Ht, Ht2, Hp. lia.
Qed.

(** In particular the length of the line, which is the fuel the three
    callers give, is enough from any position. *)
Lemma comma_loop_enough_fuel (fuel : nat) (m : machine) :
  (String.length (line_text (sfile m)) <= fuel)%nat ->
  loop fuel m = loop (String.length (line_text (sfile m))) m.
Proof.
  intros Hle.
  replace fuel
    with (String.length (line_text (sfile m))
          + (fuel - String.length (line_text (sfile m))))%nat by lia.
  apply comma_loop_fuel. lia.
Qed.

(** [ready] holds of the states in which an element can be handled. *)
Variable ready : machine -> Prop.

Hypothesis ready_skip :
  forall m : machine,
    ready m ->
    ready (set_sfile
             (set_pos_in_line
                (skip_white_character (pos_in_line (sfile m)) (line_text (sfile m)))
                (sfile m)) m).

Hypothesis stop_returns : forall m : machine, exists m', stop m = Some (tt, m').

Hypothesis item_returns :
  forall m : machine, ready m -> exists m', item m = Some (tt, m').

Hypothesis check_returns :
  forall m : machine, exists again m', check m = Some (again, m').

Hypothesis ready_again :
  forall m m2 m3 : machine,
    ready m -> item m = Some (tt, m2) -> check m2 = Some (true, m3) -> ready m3.

(** With enough fuel the loop returns from every state in which its
    elements can be handled. *)
Lemma comma_loop_returns (fuel : nat) :
  forall m : machine,
    (String.length (line_text (sfile m)) <= pos_in_line (sfile m) + fuel)%nat ->
    ready m ->
    exists m', loop fuel m = Some (tt, m').
Proof.
  induction fuel as [|fuel IH]; intros m Hlen Hready;
    rewrite loop_step; apply ready_skip in Hready;
    cbv beta iota delta [bind file_set file_get gets modify];
    state_cbn;
    pose proof (skip_white_character_ge (pos_in_line (sfile m)) (line_text (sfile m)))
      as Hskip;
    (match goal with
     | Hr : ready ?m1 |- _ =>
         destruct (char_eqb (char_at (line_text (sfile m))
                              (skip_white_character (pos_in_line (sfile m))
                                 (line_text (sfile m)))) COMMA);
           [apply stop_returns|];
         destruct (item_returns m1 Hr) as [m2 Hitem];
         rewrite Hitem;
         destruct (check_returns m2) as (again & m3 & Hcheck);
         rewrite Hcheck;
         destruct again; [|eexists; reflexivity];
         pose proof (ready_again _ _ _ Hr Hitem Hcheck) as Hready3;
         apply item_advancing in Hitem; destruct Hitem as [Ht2 Hp2];
         state_cbn_in Ht2; state_cbn_in Hp2;
         destruct (check_true _ _ Hcheck) as (Ht3 & Hp3 & Hlt)
     end).
  - exfalso. rewrite Ht2 in Hlt. lia.
  - apply IH; [|exact Hready3]. rewrite Ht3, Ht2, Hp3. lia.
Qed.

End CommaLoop.

(** [save_data_loop] never runs out of the fuel [save_data] gives it. *)
Lemma save_data_loop_enough_fuel (fuel : nat) (m : machine) :
  (String.length (line_text (sfile m)) <= fuel)%nat ->
  FirstPass.save_data_loop fuel m
  = FirstPass.save_data_loop (String.length (line_text (sfile m))) m.
Proof.
  apply (comma_loop_enough_fuel
           (FirstPass.add_error INVALID_COMMA_POSITION) FirstPass.save_data_value
           FirstPass.check_for_comma).
  - exact advancing_save_data_value.
  - exact check_for_comma_first_true.
  - intros [|fuel'] m0; reflexivity.
Qed.

(** [add_extern_labels_loop] never runs out of the fuel
    [add_extern_labels] gives it. *)
Lemma add_extern_labels_loop_enough_fuel (fuel : nat) (m : machine) :
  (String.length (line_text (sfile m)) <= fuel)%nat ->
  FirstPass.add_extern_labels_loop fuel m
  = FirstPass.add_extern_labels_loop (String.length (line_text (sfile m))) m.
Proof.
  apply (comma_loop_enough_fuel
           (FirstPass.add_error INVALID_COMMA_POSITION)
           (temp_word <- FirstPass.get_next_word_without_comma ;;
            if is_label_name_valid temp_word
            then code <- FirstPass.add_label temp_word 0 EXTERN ;;
                 FirstPass.update_error_status code
            else FirstPass.add_error INVALID_LABEL_NAME)
           FirstPass.check_for_comma).
  - apply preserves_bind; [exact _ | exact advancing_get_next_word_first |].
    intros temp_word. apply advancing_extern_item.
  - exact check_for_comma_first_true.
  - intros fuel' m0.
    destruct fuel';
      (cbn [FirstPass.add_extern_labels_loop];
       apply bind_congr; intros [] m1 _;
       apply bind_congr; intros text m2 _;
       apply bind_congr; intros pos m3 _;
       destruct (char_eqb (char_at text pos) COMMA); [reflexivity|];
       symmetry; rewrite bind_assoc; reflexivity).
Qed.

(** [mark_entry_labels_loop] never runs out of the fuel
    [mark_entry_labels] gives it. *)
Lemma mark_entry_labels_loop_enough_fuel (fuel : nat) (m : machine) :
  (String.length (line_text (sfile m)) <= fuel)%nat ->
  SecondPass.mark_entry_labels_loop fuel m
  = SecondPass.mark_entry_labels_loop (String.length (line_text (sfile m))) m.
Proof.
  apply (comma_loop_enough_fuel
           (SecondPass.add_error INVALID_COMMA_POSITION)
           (temp_word <- SecondPass.get_next_word_without_comma ;;
            if is_label_name_valid temp_word
            then code <- SecondPass.mark_entry temp_word ;;
                 SecondPass.update_error_status code
            else SecondPass.add_error INVALID_LABEL_NAME)
           SecondPass.check_for_comma).
  - apply preserves_bind; [exact _ | exact advancing_get_next_word_second |].
    intros temp_word. apply advancing_entry_item.
  - exact check_for_comma_second_true.
  - intros fuel' m0.
    destruct fuel';
      (cbn [SecondPass.mark_entry_labels_loop];
       apply bind_congr; intros [] m1 _;
       apply bind_congr; intros text m2 _;
       apply bind_congr; intros pos m3 _;
       destruct (char_eqb (char_at text pos) COMMA); [reflexivity|];
       symmetry; rewrite bind_assoc; reflexivity).
Qed.

Lemma add_error_first_returns (code : error_code) (m : machine) :
  exists m', FirstPass.add_error code m = Some (tt, m').
Proof. eexists. reflexivity. Qed.

Lemma add_error_second_returns (code : error_code) (m : machine) :
  exists m', SecondPass.add_error code m = Some (tt, m').
Proof. eexists. reflexivity. Qed.

Lemma check_for_comma_first_returns (m : machine) :
  exists again m', FirstPass.check_for_comma m = Some (again, m').
Proof.
  unfold FirstPass.check_for_comma. munfold.
  destruct (char_eqb (char_at (line_text (sfile m)) (pos_in_line (sfile m))) COMMA);
    [|destruct (negb (is_line_end (char_at (line_text (sfile m))
                                     (pos_in_line (sfile m)))))];
    eexists; eexists; reflexivity.
Qed.

Lemma check_for_comma_second_returns (m : machine) :
  exists again m', SecondPass.check_for_comma m = Some (again, m').
Proof.
  unfold SecondPass.check_for_comma. munfold.
  destruct (char_eqb (char_at (line_text (sfile m)) (pos_in_line (sfile m))) COMMA);
    [|destruct (negb (is_line_end (char_at (line_text (sfile m))
                                     (pos_in_line (sfile m)))))];
    eexists; eexists; reflexivity.
Qed.

(** [check_for_comma] that finds a comma steps over it and does nothing
    else. *)
Lemma check_for_comma_first_step (m m' : machine) :
  FirstPass.check_for_comma m = Some (true, m') ->
  m' = set_sfile (set_pos_in_line (S (pos_in_line (sfile m))) (sfile m)) m.
Proof.
  unfold FirstPass.check_for_comma. munfold. intros H.
  destruct (char_eqb (char_at (line_text (sfile m)) (pos_in_line (sfile m))) COMMA).
  - inversion H. reflexivity.
  - destruct (negb (is_line_end (char_at (line_text (sfile m)) (pos_in_line (sfile m)))));
      [unfold FirstPass.add_error in H; munfold_in H|]; discriminate.
Qed.

(** The entries of an [.entry] line: [mark_entry_labels_loop] returns
    from every state, with the fuel that [mark_entry_labels] gives it. *)
Lemma mark_entry_labels_loop_returns (fuel : nat) (m : machine) :
  (String.length (line_text (sfile m)) <= pos_in_line (sfile m) + fuel)%nat ->
  exists m', SecondPass.mark_entry_labels_loop fuel m = Some (tt, m').
Proof.
  intros Hlen.
  apply (comma_loop_returns
           (SecondPass.add_error INVALID_COMMA_POSITION)
           (temp_word <- SecondPass.get_next_word_without_comma ;;
            if is_label_name_valid temp_word
            then code <- SecondPass.mark_entry temp_word ;;
                 SecondPass.update_error_status code
            else SecondPass.add_error INVALID_LABEL_NAME)
           SecondPass.check_for_comma
           SecondPass.mark_entry_labels_loop) with (ready := fun _ => True);
    try exact I; try assumption; try (intros; exact I).
  - apply preserves_bind; [exact _ | exact advancing_get_next_word_second |].
    intros temp_word. apply advancing_entry_item.
  - exact check_for_comma_second_true.
  - intros fuel' m0.
    destruct fuel';
      (cbn [SecondPass.mark_entry_labels_loop];
       apply bind_congr; intros [] m1 _;
       apply bind_congr; intros text m2 _;
       apply bind_congr; intros pos m3 _;
       destruct (char_eqb (char_at text pos) COMMA); [reflexivity|];
       symmetry; rewrite bind_assoc; reflexivity).
  - intros m0. apply add_error_second_returns.
  - intros m0 _.
    unfold SecondPass.get_next_word_without_comma, SecondPass.mark_entry,
      SecondPass.update_error_status, SecondPass.add_error.
    munfold.
    destruct (SecondPass.next_word_loop _ _) as [temp_word pos].
    destruct (is_label_name_valid temp_word); [|eexists; reflexivity].
    state_cbn.
    destruct (error_code_eq_dec _ NO_ERROR); eexists; reflexivity.
  - exact check_for_comma_second_returns.
Qed.

(** What reading one value does to the data array: at most one value is
    stored and the size of the array is kept. *)
Lemma save_data_value_room (m m' : machine) :
  FirstPass.save_data_value m = Some (tt, m') ->
  DC (sfile m) <= DC (sfile m') <= DC (sfile m) + 1
  /\ List.length (data_array (sfile m')) = List.length (data_array (sfile m)).
Proof.
  unfold FirstPass.save_data_value, FirstPass.get_next_word_without_comma,
    FirstPass.push_data, FirstPass.add_error.
  munfold.
  destruct (FirstPass.next_word_loop _ _) as [temp_word pos].
  destruct (is_number temp_word); state_cbn.
  - destruct (atoi temp_word) as [value|]; state_cbn; [|discriminate].
    destruct (array_write _ _ _) as [array'|] eqn:Hwrite; [|discriminate].
    apply array_write_inv in Hwrite as [_ ->].
    intros H. inversion H. state_cbn. rewrite length_list_update. lia.
  - intros H. inversion H. state_cbn. lia.
Qed.

Lemma save_data_value_returns (m : machine) :
  0 <= DC (sfile m) < Z.of_nat (List.length (data_array (sfile m))) ->
  int_values m ->
  exists m', FirstPass.save_data_value m = Some (tt, m').
Proof.
  intros Hroom Hint.
  specialize (Hint (pos_in_line (sfile m))). cbv zeta in Hint.
  unfold FirstPass.save_data_value, FirstPass.get_next_word_without_comma,
    FirstPass.push_data, FirstPass.add_error.
  munfold.
  destruct (FirstPass.next_word_loop _ _) as [temp_word pos].
  cbn [fst] in Hint.
  destruct (is_number temp_word); state_cbn; [|eexists; reflexivity].
  unfold atoi. cbv zeta. rewrite Hint by reflexivity. state_cbn.
  rewrite array_write_in_bounds by assumption. eexists. reflexivity.
Qed.

Lemma int_values_same_line (m m' : machine) :
  line_text (sfile m') = line_text (sfile m) -> int_values m -> int_values m'.
Proof. unfold int_values. intros ->. auto. Qed.

(** The values of a [.data] line: [save_data_loop] returns, with the
    fuel that [save_data] gives it, when the data array has room and an
    [int] holds every number of the line. *)
Lemma save_data_loop_returns (fuel : nat) (m : machine) :
  (String.length (line_text (sfile m)) <= pos_in_line (sfile m) + fuel)%nat ->
  data_room m ->
  int_values m ->
  exists m', FirstPass.save_data_loop fuel m = Some (tt, m').
Proof.
  intros Hlen Hroom Hint.
  apply (comma_loop_returns
           (FirstPass.add_error INVALID_COMMA_POSITION) FirstPass.save_data_value
           FirstPass.check_for_comma FirstPass.save_data_loop)
    with (ready := fun m => data_room m /\ int_values m);
    try assumption; try (split; assumption).
  - exact advancing_save_data_value.
  - exact check_for_comma_first_true.
  - intros [|fuel'] m0; reflexivity.
  - intros m0 [[Hdc Hfit] Hint0]. split.
    + unfold data_room, characters_left in *. state_cbn.
      pose proof (skip_white_character_ge (pos_in_line (sfile m0)) (line_text (sfile m0))).
      split; [assumption | lia].
    + apply (int_values_same_line m0); [reflexivity | assumption].
  - intros m0. apply add_error_first_returns.
  - intros m0 [[Hdc Hfit] Hint0]. apply save_data_value_returns; [lia | assumption].
  - exact check_for_comma_first_returns.
  - intros m0 m2 m3 [[Hdc Hfit] Hint0] Hitem Hcheck.
    pose proof (advancing_save_data_value _ _ _ Hitem) as [Htext Hpos].
    apply save_data_value_room in Hitem as [Hgrow Hsize].
    destruct (check_for_comma_first_true _ _ Hcheck) as (_ & _ & Hinside).
    apply check_for_comma_first_step in Hcheck. subst m3. split.
    + unfold data_room, characters_left in *. state_cbn.
      rewrite Hsize, Htext. rewrite Htext in Hinside. split; lia.
    + apply (int_values_same_line m0); [state_cbn; exact Htext | assumption].
Qed.

Lemma short_words_same_line (m m' : machine) :
  line_text (sfile m') = line_text (sfile m) -> short_words m -> short_words m'.
Proof. unfold short_words. intros ->. auto. Qed.

(** The names of an [.extern] line: [add_extern_labels_loop] returns,
    with the fuel that [add_extern_labels] gives it, when every word of
    the line fits the name field of a label. *)
Lemma add_extern_labels_loop_returns (fuel : nat) (m : machine) :
  (String.length (line_text (sfile m)) <= pos_in_line (sfile m) + fuel)%nat ->
  short_words m ->
  exists m', FirstPass.add_extern_labels_loop fuel m = Some (tt, m').
Proof.
  intros Hlen Hshort.
  assert (Hitem : preserves advancing
            (temp_word <- FirstPass.get_next_word_without_comma ;;
             if is_label_name_valid temp_word
             then code <- FirstPass.add_label temp_word 0 EXTERN ;;
                  FirstPass.update_error_status code
             else FirstPass.add_error INVALID_LABEL_NAME)).
  { apply preserves_bind; [exact _ | exact advancing_get_next_word_first |].
    intros temp_word. apply advancing_extern_item. }
  apply (comma_loop_returns
           (FirstPass.add_error INVALID_COMMA_POSITION)
           (temp_word <- FirstPass.get_next_word_without_comma ;;
            if is_label_name_valid temp_word
            then code <- FirstPass.add_label temp_word 0 EXTERN ;;
                 FirstPass.update_error_status code
            else FirstPass.add_error INVALID_LABEL_NAME)
           FirstPass.check_for_comma FirstPass.add_extern_labels_loop)
    with (ready := short_words); try assumption.
  - exact check_for_comma_first_true.
  - intros fuel' m0.
    destruct fuel';
      (cbn [FirstPass.add_extern_labels_loop];
       apply bind_congr; intros [] m1 _;
       apply bind_congr; intros text m2 _;
       apply bind_congr; intros pos m3 _;
       destruct (char_eqb (char_at text pos) COMMA); [reflexivity|];
       symmetry; rewrite bind_assoc; reflexivity).
  - intros m0. apply short_words_same_line. reflexivity.
  - intros m0. apply add_error_first_returns.
  - intros m0 Hwords. specialize (Hwords (pos_in_line (sfile m0))).
    unfold FirstPass.get_next_word_without_comma, FirstPass.add_label,
      FirstPass.update_error_status, FirstPass.add_error.
    munfold.
    destruct (FirstPass.next_word_loop _ _) as [temp_word pos].
    cbn [fst] in Hwords. apply Nat.ltb_lt in Hwords.
    destruct (is_label_name_valid temp_word); [|eexists; reflexivity].
    state_cbn. unfold add_to_list_label, create_node_label. rewrite Hwords.
    destruct (head_label_list (sfile m0)) as [|temp_node rest]; state_cbn.
    + eexists. reflexivity.
    + destruct (add_to_list_label_loop temp_node rest temp_word _) as [code head'].
      cbn [fst snd].
      destruct (error_code_eq_dec code NO_ERROR); eexists; reflexivity.
  - exact check_for_comma_first_returns.
  - intros m0 m2 m3 Hwords Hrun Hcheck.
    apply Hitem in Hrun as [Htext _].
    destruct (check_for_comma_first_true _ _ Hcheck) as (Htext3 & _ & _).
    apply (short_words_same_line m0); [congruence | assumption].
Qed.

Lemma skip_word_loop_ge (rest : string) :
  forall pos : nat, (pos <= skip_word_loop rest pos)%nat.
Proof.
  induction rest as [|c rest IH]; intros pos; simpl; [lia|].
  destruct (is_blank c || char_eqb c NUL); [lia|]. specialize (IH (S pos)). lia.
Qed.

Lemma skip_one_word_in_line_ge (pos : nat) (text : string) :
  (pos <= skip_one_word_in_line pos text)%nat.
Proof.
  unfold skip_one_word_in_line.
  pose proof (skip_white_character_ge pos text).
  pose proof (skip_word_loop_ge
                (string_from (skip_white_character pos text) text)
                (skip_white_character pos text)).
  lia.
Qed.

(** [save_data] returns when the data array has room and an [int]
    holds every number of the line. *)
Lemma save_data_returns (m : machine) :
  data_room m -> int_values m -> exists m', FirstPass.save_data m = Some (tt, m').
Proof.
  intros [Hdc Hfit] Hint. unfold FirstPass.save_data. munfold. state_cbn.
  destruct (is_end_line _ _); [apply add_error_first_returns|].
  apply save_data_loop_returns; state_cbn; [lia| |].
  - unfold data_room, characters_left in *. state_cbn.
    pose proof (skip_one_word_in_line_ge (pos_in_line (sfile m)) (line_text (sfile m))).
    split; [assumption | lia].
  - apply (int_values_same_line m); [reflexivity | assumption].
Qed.

(** [add_extern_labels] returns when every word of the line fits the
    name field of a label. *)
Lemma add_extern_labels_returns (m : machine) :
  short_words m -> exists m', FirstPass.add_extern_labels m = Some (tt, m').
Proof.
  intros Hwords. unfold FirstPass.add_extern_labels. munfold. state_cbn.
  destruct (is_end_line _ _); [apply add_error_first_returns|].
  apply add_extern_labels_loop_returns; state_cbn; [lia|].
  apply (short_words_same_line m); [reflexivity | assumption].
Qed.

(** [mark_entry_labels] returns. *)
Lemma mark_entry_labels_returns (m : machine) :
  exists m', SecondPass.mark_entry_labels m = Some (tt, m').
Proof.
  unfold SecondPass.mark_entry_labels. munfold. state_cbn.
  destruct (is_end_line _ _); [apply add_error_second_returns|].
  apply mark_entry_labels_loop_returns; state_cbn. lia.
Qed.

(* ================================================================= *)
(** ** The artefacts of a translation without a diagnostic *)

(** C3, as amended.  When a source file is translated without a
    diagnostic, the object file is written and the number of its word
    lines - the lines after the header - is the final instruction
    counter minus the base address 100, plus the final data counter;
    this is the figure [print_end_of_file] reports.  The counters at the
    end of the second pass are those at the end of the first pass. *)
Theorem object_file_word_lines (padding_bits : Z -> Z) (source_text : string)
    (m : machine) :
  start_assembly_process_on_file padding_bits source_text = Some m ->
  console m = [] ->
  exists (m1 : machine) (object_file : string),
    first_pass_result padding_bits source_text = Some m1
    /\ file_ob (sfile m) = Some object_file
    /\ word_lines object_file
       = (IC (sfile m1) - FIRST_CELL_IN_MEMORY) + DC (sfile m1)
    /\ word_lines object_file = lines_parsed_into_file (sfile m)
    /\ IC (sfile m) = IC (sfile m1)
    /\ DC (sfile m) = DC (sfile m1).
Proof.
  intros Hrun Hconsole.
  destruct (translation_without_diagnostic _ _ _ Hrun Hconsole)
    as (m1 & Hfirst & _ & Hic & Hdc & Hcode & Hdata & _ & code_text & data_text
        & Hob & Hct & Hdt).
  exists m1. eexists. split; [exact Hfirst|]. split; [exact Hob|].
  assert (Hlines : word_lines
                     (SecondPass.object_header (IC (sfile m) - FIRST_CELL_IN_MEMORY)
                        (DC (sfile m)) ++ code_text ++ data_text)
                   = IC (sfile m1) - FIRST_CELL_IN_MEMORY + DC (sfile m1)).
  { unfold word_lines.
    rewrite !count_newlines_app, count_newlines_object_header, Hct, Hdt, Hic, Hdc.
    lia. }
  split; [exact Hlines|]. split; [|split; assumption].
  rewrite Hlines. unfold lines_parsed_into_file. lia.
Qed.

Lemma object_file_word_lines_witness :
  let m := translated sample_program in
  exists (m1 : machine) (object_file : string),
    first_pass_result (fun _ => 0) sample_program = Some m1
    /\ file_ob (sfile m) = Some object_file
    /\ word_lines object_file
       = (IC (sfile m1) - FIRST_CELL_IN_MEMORY) + DC (sfile m1)
    /\ word_lines object_file = lines_parsed_into_file (sfile m)
    /\ IC (sfile m) = IC (sfile m1)
    /\ DC (sfile m) = DC (sfile m1).
Proof.
  intros m.
  apply (object_file_word_lines (fun _ => 0) sample_program m).
  - vm_compute. reflexivity.
  - vm_compute. reflexivity.
Defined.

(** C3 as claimed fails: an empty source file is translated without a
    diagnostic into an object file without word lines, while the final
    instruction counter is 100. *)
Lemma object_file_word_lines_counterexample :
  ~ (forall (padding_bits : Z -> Z) (source_text : string) (m : machine),
       start_assembly_process_on_file padding_bits source_text = Some m ->
       console m = [] ->
       exists (m1 : machine) (object_file : string),
         first_pass_result padding_bits source_text = Some m1
         /\ file_ob (sfile m) = Some object_file
         /\ word_lines object_file = IC (sfile m1) + DC (sfile m1)).
Proof.
  intros Hclaim.
  destruct (Hclaim (fun _ => 0) EmptyString (translated EmptyString))
    as (m1 & object_file & Hfirst & Hob & Hlines).
  - vm_compute. reflexivity.
  - vm_compute. reflexivity.
  - vm_compute in Hfirst. injection Hfirst as <-.
    vm_compute in Hob. injection Hob as <-.
    vm_compute in Hlines. discriminate.
Qed.

(** C9, as amended.  When a source file is translated without a
    diagnostic, the extern listing file is written if and only if the
    expanded source has a line that is an [.extern] directive.  No use
    site needs to have been recorded: the file is written with the
    records of [extern_list], whatever they are, and so also when there
    is none.  (How [open_file] builds the name of the file is left
    aside here.) *)
Theorem extern_listing_written (padding_bits : Z -> Z) (source_text : string)
    (m : machine) :
  start_assembly_process_on_file padding_bits source_text = Some m ->
  console m = [] ->
  (file_ext (sfile m) <> None
   <-> existsb line_declares_extern (read_lines (file_am (sfile m))) = true)
  /\ file_ext (sfile m)
     = (if existsb line_declares_extern (read_lines (file_am (sfile m)))
        then Some (extern_list m) else None)
  /\ (existsb line_declares_extern (read_lines (file_am (sfile m))) = true ->
      extern_list m = EmptyString ->
      file_ext (sfile m) = Some EmptyString).
Proof.
  intros Hrun Hconsole.
  destruct (translation_without_diagnostic _ _ _ Hrun Hconsole)
    as (m1 & _ & _ & _ & _ & _ & _ & Hext & _).
  split; [|split].
  - rewrite Hext.
    destruct (existsb line_declares_extern (read_lines (file_am (sfile m))));
      split; intros H; try discriminate; try reflexivity.
    now elim H.
  - exact Hext.
  - intros Hdeclared Hempty. now rewrite Hext, Hdeclared, Hempty.
Qed.

Lemma extern_listing_written_witness :
  (let m := translated (".extern K" ++ nl ++ "jmp K" ++ nl) in
   file_ext (sfile m) = Some ("K" ++ String TAB "101" ++ nl)%string)
  /\ (let m := translated (".extern K" ++ nl) in
      file_ext (sfile m) = Some EmptyString).
Proof.
  split; intros m.
  - destruct (extern_listing_written (fun _ => 0)
                (".extern K" ++ nl ++ "jmp K" ++ nl) m) as (_ & Hfile & _).
    + vm_compute. reflexivity.
    + vm_compute. reflexivity.
    + rewrite Hfile. vm_compute. reflexivity.
  - destruct (extern_listing_written (fun _ => 0) (".extern K" ++ nl) m)
      as (_ & _ & Hempty).
    + vm_compute. reflexivity.
    + vm_compute. reflexivity.
    + apply Hempty; vm_compute; reflexivity.
Defined.

(** C9 as claimed fails: a file that declares an external label and
    never refers to it is translated without a diagnostic, no use site
    is collected, and the extern listing file is written (empty). *)
Lemma extern_listing_counterexample :
  ~ (forall (padding_bits : Z -> Z) (source_text : string) (m : machine),
       start_assembly_process_on_file padding_bits source_text = Some m ->
       console m = [] ->
       (file_ext (sfile m) <> None
        <-> existsb line_declares_extern (read_lines (file_am (sfile m))) = true
            /\ extern_list m <> EmptyString)).
Proof.
  intros Hclaim.
  destruct (Hclaim (fun _ => 0) (".extern K" ++ nl)%string
              (translated (".extern K" ++ nl)))
    as [Hwritten _].
  - vm_compute. reflexivity.
  - vm_compute. reflexivity.
  - destruct Hwritten as [_ Hused].
    + vm_compute. discriminate.
    + apply Hused. vm_compute. reflexivity.
Qed.

(* ================================================================= *)
(** ** Powers of two and bit ranges *)

Lemma pow_math_loop_spec (fuel : nat) :
  forall exp base result : Z,
    0 <= exp < 2 ^ Z.of_nat fuel ->
    pow_math_loop fuel exp base result = result * base ^ exp.
Proof.
  induction fuel as [|fuel IH]; intros exp base result Hexp.
  - simpl in Hexp. assert (exp = 0) by lia. subst exp. simpl. lia.
  - cbn [pow_math_loop].
    destruct (Z.eqb_spec exp 0) as [->|Hne]; [rewrite Z.pow_0_r; lia|].
    rewrite Nat2Z.inj_succ, Z.pow_succ_r in Hexp by lia.
    rewrite Z.shiftr_div_pow2 by lia. change (2 ^ 1) with 2.
    rewrite IH by (split; [apply Z.div_pos; lia | apply Z.div_lt_upper_bound; lia]).
    assert (Hland : Z.land exp 1 = exp mod 2).
    { change 1 with (Z.ones 1). rewrite Z.land_ones by lia. reflexivity. }
    rewrite Hland.
    assert (Hsplit : exp = 2 * (exp / 2) + exp mod 2) by (apply Z.div_mod; lia).
    assert (Hsquare : (base * base) ^ (exp / 2) = base ^ (2 * (exp / 2))).
    { rewrite Z.pow_mul_r by (try apply Z.div_pos; lia).
      f_equal. lia. }
    rewrite Hsquare.
    pose proof (Z.mod_pos_bound exp 2 ltac:(lia)) as Hbit.
    assert (Hhalf : 0 <= exp / 2) by (apply Z.div_pos; lia).
    rewrite Hsplit at 3.
    rewrite Z.pow_add_r by lia.
    destruct (Z.eqb_spec (exp mod 2) 0) as [Hzero|Hone].
    + rewrite Hzero, Z.pow_0_r. lia.
    + assert (Hmod : exp mod 2 = 1) by lia. rewrite Hmod, Z.pow_1_r. lia.
Qed.

(** X1.  [pow_math] returns -1 for a negative exponent and the power of
    two for an exponent from 0 to 15, the exponents up to which the
    squaring of [base] stays within [int]. *)
Theorem pow_math_power_of_two (exp : Z) :
  (exp < 0 -> pow_math exp = -1)
  /\ (0 <= exp <= 15 -> pow_math exp = 2 ^ exp).
Proof.
  unfold pow_math. split; intros Hexp.
  - assert (H : (exp <? 0) = true) by (apply Z.ltb_lt; lia). now rewrite H.
  - assert (H : (exp <? 0) = false) by (apply Z.ltb_ge; lia). rewrite H.
    rewrite pow_math_loop_spec; [unfold BASE_POW; lia|].
    split; [lia|].
    rewrite Nat2Z.inj_succ, Z2Nat.id by apply Z.log2_nonneg.
    destruct (Z.eq_dec exp 0) as [->|Hne]; [reflexivity|].
    apply Z.log2_spec. lia.
Qed.

Lemma pow_math_power_of_two_witness :
  pow_math (-3) = -1 /\ pow_math 6 = 2 ^ 6.
Proof.
  destruct (pow_math_power_of_two (-3)) as [Hneg _].
  destruct (pow_math_power_of_two 6) as [_ Hpos].
  split; [apply Hneg; lia | apply Hpos; lia].
Defined.

(** X2.  [get_specific_bits] returns the bits [start .. end_] of a
    32-bit word, for a range of at most 15 bits inside the word. *)
Theorem get_specific_bits_range (word start end_ : Z) :
  0 <= word < 2 ^ 32 ->
  0 <= start <= end_ ->
  end_ <= 31 ->
  end_ - start + 1 <= 15 ->
  get_specific_bits word start end_ = (word / 2 ^ start) mod 2 ^ (end_ - start + 1).
Proof.
  intros Hword Hstart Hend Hlen.
  unfold get_specific_bits.
  destruct (pow_math_power_of_two (end_ - start + 1)) as [_ Hpow].
  rewrite Hpow by lia.
  set (len := end_ - start + 1).
  assert (Hlen0 : 0 < len) by (unfold len; lia).
  assert (Hones : 2 ^ len - 1 = Z.ones len) by (rewrite Z.ones_equiv; lia).
  assert (Hsmall : 0 <= Z.ones len < 2 ^ 32).
  { rewrite Z.ones_equiv. split; [pose proof (Z.pow_pos_nonneg 2 len); lia|].
    assert (2 ^ len <= 2 ^ 32) by (apply Z.pow_le_mono_r; unfold len; lia). lia. }
  rewrite Hones. unfold to_unsigned at 2. rewrite Z.mod_small by assumption.
  assert (Hshift : 0 <= Z.shiftl (Z.ones len) start < 2 ^ 32).
  { rewrite Z.shiftl_mul_pow2, Z.ones_equiv by lia.
    assert (Hsum : 2 ^ len * 2 ^ start <= 2 ^ 32).
    { rewrite <- Z.pow_add_r by lia. apply Z.pow_le_mono_r; unfold len; lia. }
    pose proof (Z.pow_pos_nonneg 2 start). pose proof (Z.pow_pos_nonneg 2 len).
    split; nia. }
  unfold to_unsigned. rewrite Z.mod_small by assumption.
  rewrite Z.shiftr_land, Z.shiftr_shiftl_l by lia.
  rewrite Z.sub_diag, Z.shiftl_0_r, Z.land_ones, Z.shiftr_div_pow2 by lia.
  reflexivity.
Qed.

Lemma get_specific_bits_range_witness :
  get_specific_bits 2580 2 4 = (2580 / 2 ^ 2) mod 2 ^ (4 - 2 + 1).
Proof. apply get_specific_bits_range; lia. Defined.

(* ================================================================= *)
(** ** Scanning a line *)

Lemma char_at_head (c : ascii) (rest : string) : char_at (String c rest) 0 = c.
Proof. reflexivity. Qed.

Lemma char_at_tail (c : ascii) (rest : string) (i : nat) :
  char_at (String c rest) (S i) = char_at rest i.
Proof. reflexivity. Qed.

Lemma char_at_string_from (text : string) :
  forall pos k : nat, char_at (string_from pos text) k = char_at text (pos + k).
Proof.
  induction text as [|c text IH]; intros pos k.
  - destruct pos; simpl; [reflexivity|]. now destruct k.
  - destruct pos as [|pos]; [reflexivity|].
    cbn [string_from Nat.add]. rewrite char_at_tail. apply IH.
Qed.

Lemma skip_white_loop_spec (rest : string) :
  forall pos : nat,
    let p := skip_white_loop rest pos in
    (pos <= p)%nat
    /\ is_blank (char_at rest (p - pos)) = false
    /\ (forall k : nat, (k < p - pos)%nat -> is_blank (char_at rest k) = true).
Proof.
  induction rest as [|c rest IH]; intros pos; cbn [skip_white_loop].
  - rewrite Nat.sub_diag. repeat split; [lia|]. intros k Hk. lia.
  - destruct (is_blank c) eqn:Hc.
    + destruct (IH (S pos)) as (Hle & Hstop & Hblank).
      split; [lia|]. split.
      * replace (skip_white_loop rest (S pos) - pos)%nat
          with (S (skip_white_loop rest (S pos) - S pos)) by lia.
        rewrite char_at_tail. exact Hstop.
      * intros [|k] Hk; [exact Hc|]. rewrite char_at_tail. apply Hblank. lia.
    + rewrite Nat.sub_diag. repeat split; [lia | exact Hc|]. intros k Hk. lia.
Qed.

(** X3.  [skip_white_character] never moves backwards, stops at a
    character that is neither a space nor a tab, and passes over spaces
    and tabs only. *)
Theorem skip_white_character_stops (pos : nat) (text : string) :
  let p := skip_white_character pos text in
  (pos <= p)%nat
  /\ is_blank (char_at text p) = false
  /\ (forall i : nat, (pos <= i < p)%nat -> is_blank (char_at text i) = true)
  /\ skip_white_character p text = p.
Proof.
  intros p.
  destruct (skip_white_loop_spec (string_from pos text) pos) as (Hle & Hstop & Hblank).
  fold (skip_white_character pos text) in Hle, Hstop, Hblank. fold p in Hle, Hstop, Hblank.
  rewrite char_at_string_from in Hstop.
  replace (pos + (p - pos))%nat with p in Hstop by lia.
  split; [exact Hle|]. split; [exact Hstop|]. split.
  - intros i Hi. specialize (Hblank (i - pos)%nat ltac:(lia)).
    rewrite char_at_string_from in Hblank.
    now replace (pos + (i - pos))%nat with i in Hblank by lia.
  - unfold skip_white_character.
    destruct (string_from p text) as [|c rest] eqn:Hfrom; [reflexivity|].
    cbn [skip_white_loop].
    assert (Hc : char_at text p = c).
    { rewrite <- (Nat.add_0_r p), <- char_at_string_from, Hfrom. reflexivity. }
    rewrite <- Hc, Hstop. reflexivity.
Qed.

Lemma is_end_line_loop_spec (rest : string) :
  forall pos : nat,
    is_end_line_loop rest = is_line_end (char_at rest (skip_white_loop rest pos - pos)).
Proof.
  induction rest as [|c rest IH]; intros pos; cbn [is_end_line_loop skip_white_loop].
  - rewrite Nat.sub_diag. reflexivity.
  - destruct (is_line_end c) eqn:Hend.
    + assert (Hblank : is_blank c = false).
      { unfold is_line_end, is_blank, char_eqb in *.
        apply orb_true_iff in Hend as [H|H]; apply Ascii.eqb_eq in H; subst c; reflexivity. }
      rewrite Hblank, Nat.sub_diag, char_at_head. now rewrite Hend.
    + destruct (is_blank c) eqn:Hblank.
      * rewrite (IH (S pos)).
        pose proof (skip_white_loop_ge rest (S pos)).
        replace (skip_white_loop rest (S pos) - pos)%nat
          with (S (skip_white_loop rest (S pos) - S pos)) by lia.
        now rewrite char_at_tail.
      * rewrite Nat.sub_diag, char_at_head. now rewrite Hend.
Qed.

(** X4.  The rest of a line is empty for [is_end_line] exactly when the
    first character after the spaces and tabs is a newline or the NUL;
    a line is empty for [is_line_empty] exactly when its first such
    character is a newline, the NUL or the semicolon of a comment. *)
Theorem line_end_tests (pos : nat) (text : string) :
  is_end_line pos text = is_line_end (char_at text (skip_white_character pos text))
  /\ is_line_empty text
     = (char_eqb (char_at text (skip_white_character 0 text)) ";"
        || is_line_end (char_at text (skip_white_character 0 text))).
Proof.
  split.
  - unfold is_end_line. rewrite (is_end_line_loop_spec _ pos), char_at_string_from.
    fold (skip_white_character pos text).
    pose proof (skip_white_character_ge pos text).
    now replace (pos + (skip_white_character pos text - pos))%nat
      with (skip_white_character pos text) by lia.
  - unfold is_line_empty.
    set (i := skip_white_character 0 text).
    destruct (char_eqb (char_at text i) ";"); [reflexivity|]. cbn [orb].
    assert (Hstop : is_blank (char_at text i) = false)
      by apply (skip_white_character_stops 0 text).
    assert (Hat : char_at text i = char_at (string_from i text) 0)
      by (now rewrite char_at_string_from, Nat.add_0_r).
    rewrite Hat in Hstop |- *.
    destruct (string_from i text) as [|c rest]; [reflexivity|].
    rewrite char_at_head in Hstop |- *. cbn [is_line_empty_loop].
    rewrite Hstop. now destruct (is_line_end c).
Qed.

(* ================================================================= *)
(** ** The tokenizer *)

Lemma fix_comma_loop_length (line : string) :
  String.length (fix_comma_loop line)
  = (String.length (line_body line) + 2 * count_commas (line_body line) + 1)%nat.
Proof.
  induction line as [|c line IH]; [reflexivity|].
  cbn [fix_comma_loop line_body].
  destruct (is_line_end c); [reflexivity|].
  cbn [count_commas String.length].
  destruct (char_eqb c COMMA); cbn [String.length]; rewrite IH; lia.
Qed.

(** X5.  [create_new_line_struct] stays inside the buffer in which
    [fix_comma_in_line] spaces the commas out exactly when the line,
    up to its end, has at most 80 characters with every comma counted
    three times. *)
Theorem line_fits_comma_buffer (text_line : string) :
  (String.length (line_body text_line) + 2 * count_commas (line_body text_line) <= 80)%nat
  <-> exists line : item_line, create_new_line_struct text_line = Some line.
Proof.
  unfold create_new_line_struct, fix_comma_in_line.
  rewrite fix_comma_loop_length. unfold MAX_ASSEMBLY_LINE_LENGTH.
  destruct (Nat.leb_spec
              (String.length (line_body text_line)
               + 2 * count_commas (line_body text_line) + 1 + 1) 82) as [Hfit|Hover].
  - split; [intros _ | lia].
    repeat match goal with
           | |- context [GET_WORD ?t ?i] =>
               let w := fresh "w" in let j := fresh "j" in let stop := fresh "stop" in
               destruct (GET_WORD t i) as [[w j] stop]; destruct stop
           | |- context [if ?b then _ else _] => destruct b
           end;
      eexists; reflexivity.
  - split; [lia | intros [line Hline]; discriminate].
Qed.

Lemma no_nul_app (a b : string) :
  no_nul (a ++ b) = no_nul a && no_nul b.
Proof.
  induction a as [|c a IH]; [reflexivity|].
  cbn [append no_nul]. rewrite IH. now rewrite andb_assoc.
Qed.

Lemma last_char_loop_no_nul (tail : string) :
  forall i : nat,
    no_nul tail = true -> last_char_loop tail i = (i + String.length tail)%nat.
Proof.
  induction tail as [|c tail IH]; intros i Hnul; cbn [last_char_loop String.length].
  - lia.
  - cbn [no_nul] in Hnul. apply andb_true_iff in Hnul as [Hc Htail].
    apply negb_true_iff in Hc. rewrite Hc, IH by assumption. lia.
Qed.

Lemma char_at_app_end (w : string) (c : ascii) (rest : string) :
  char_at (w ++ String c rest) (String.length w) = c.
Proof.
  induction w as [|d w IH]; [reflexivity|].
  cbn [append String.length]. now rewrite char_at_tail.
Qed.

Lemma string_take_app (w rest : string) :
  string_take (String.length w) (w ++ rest) = w.
Proof.
  induction w as [|d w IH]; cbn [append String.length string_take].
  - now destruct rest.
  - now rewrite IH.
Qed.

Lemma string_take_last (w : string) (c : ascii) :
  (String c w
   = string_take (String.length w) (String c w)
     ++ String (char_at (String c w) (String.length w)) EmptyString)%string.
Proof.
  revert c. induction w as [|d w IH]; intros c; [reflexivity|].
  cbn [String.length string_take append]. rewrite char_at_tail.
  f_equal. apply IH.
Qed.

(** X6.  [is_label] recognises a first word that ends with a colon and
    removes the colon; a first word that does not end with a colon is
    left as it is; for an empty first word the function reads the byte
    after the terminator of its local copy, which was never written. *)
Theorem is_label_strips_colon (line_struct : item_line) (w : string) :
  no_nul w = true ->
  (word1 line_struct = (w ++ ":")%string ->
   is_label line_struct = Some (true, set_word1 w line_struct))
  /\ (word1 line_struct = w -> w <> EmptyString ->
      (forall v : string, w <> (v ++ ":")%string) ->
      is_label line_struct = Some (false, line_struct))
  /\ (word1 line_struct = EmptyString -> is_label line_struct = None).
Proof.
  intros Hnul. unfold is_label. repeat split.
  - intros Hword. rewrite Hword.
    destruct w as [|c w]; [reflexivity|].
    cbn [append]. cbn [no_nul] in Hnul. apply andb_true_iff in Hnul as [_ Hnul].
    rewrite last_char_loop_no_nul by (rewrite no_nul_app, Hnul; reflexivity).
    cbn [Nat.add].
    assert (Hlen : String.length (w ++ ":") = String.length (String c w)).
    { clear. induction w as [|d w IH]; [reflexivity|].
      cbn [append String.length] in *. now rewrite IH. }
    rewrite Hlen.
    change (String c (w ++ ":")) with (String c w ++ ":")%string.
    now rewrite char_at_app_end, string_take_app.
  - intros Hword Hne Hcolon. rewrite Hword.
    destruct w as [|c w]; [now elim Hne|].
    cbn [no_nul] in Hnul. apply andb_true_iff in Hnul as [_ Hnul].
    rewrite last_char_loop_no_nul by assumption. cbn [Nat.add].
    destruct (char_eqb (char_at (String c w) (String.length w)) ":") eqn:Hlast;
      [|reflexivity].
    apply Ascii.eqb_eq in Hlast.
    exfalso. apply (Hcolon (string_take (String.length w) (String c w))).
    rewrite (string_take_last w c) at 1. now rewrite Hlast.
  - intros Hword. now rewrite Hword.
Qed.

Lemma is_label_strips_colon_witness :
  is_label (mk_line "LOOP:" "inc" "@r1" "" "" NOT_EXIST NOT_EXIST TREE)
  = Some (true, mk_line "LOOP" "inc" "@r1" "" "" NOT_EXIST NOT_EXIST TREE).
Proof.
  destruct (is_label_strips_colon
              (mk_line "LOOP:" "inc" "@r1" "" "" NOT_EXIST NOT_EXIST TREE) "LOOP")
    as [Hcolon _]; [reflexivity|].
  apply Hcolon. reflexivity.
Defined.

(* ================================================================= *)
(** ** Mnemonics, registers and operands *)

(** X7.  [get_instruction_type] maps each of the sixteen mnemonics to
    the enumerator whose value is the position of the mnemonic in the
    list, and every other word, and only those, to [NOT_INSTRUCTION]. *)
Theorem get_instruction_type_table (word : string) :
  (forall i : nat,
     nth_error opcode_names i = Some word ->
     instruction_type_value (get_instruction_type word) = Z.of_nat i)
  /\ (get_instruction_type word = NOT_INSTRUCTION <-> ~ In word opcode_names).
Proof.
  split.
  - intros i Hnth.
    do 16 (destruct i as [|i]; [inversion Hnth; subst word; reflexivity|]).
    destruct i; discriminate.
  - unfold get_instruction_type.
    repeat match goal with
           | |- context [str_eq word ?w] =>
               let E := fresh "E" in
               destruct (str_eq word w) eqn:E;
               [apply str_eq_true in E; subst word;
                split; [discriminate | intros Hout; elim Hout; simpl; tauto]
               |apply str_eq_false in E]
           end.
    split; [|reflexivity]. intros _ Hin. simpl in Hin.
    repeat (destruct Hin as [Hin|Hin]; [congruence|]). exact Hin.
Qed.

Lemma get_instruction_type_table_witness :
  instruction_type_value (get_instruction_type "lea") = 6
  /\ get_instruction_type "load" = NOT_INSTRUCTION.
Proof.
  split.
  - apply (proj1 (get_instruction_type_table "lea") 6%nat). reflexivity.
  - apply (proj2 (get_instruction_type_table "load")).
    simpl. intuition discriminate.
Defined.

Lemma is_register_names (word : string) :
  is_register word = true <-> In word register_names.
Proof.
  unfold is_register, register_names. split.
  - intros H.
    repeat (apply orb_true_iff in H as [H|H];
            [|apply str_eq_true in H; subst word; simpl; tauto]).
    apply str_eq_true in H. subst word. simpl. tauto.
  - intros Hin. simpl in Hin.
    repeat (destruct Hin as [<-|Hin]; [reflexivity|]). destruct Hin.
Qed.

(** X8.  [get_addressing_method_type] classifies the empty operand as
    [NOT_EXIST]; an operand is classified as [REGISTER] exactly when it
    is one of the eight register names, and [get_number_of_register]
    then gives the number of the register; an operand is [IMMEDIATE]
    exactly when it is not empty and [is_number] accepts it; every
    other operand is [DIRECT]. *)
Theorem operand_classification (word : string) :
  (get_addressing_method_type word = NOT_EXIST <-> char_at word 0 = NUL)
  /\ (get_addressing_method_type word = REGISTER <-> In word register_names)
  /\ (In word register_names ->
      nth_error register_names (Z.to_nat (get_number_of_register word)) = Some word)
  /\ (get_addressing_method_type word = IMMEDIATE
      <-> char_at word 0 <> NUL /\ is_number word = true)
  /\ (get_addressing_method_type word = DIRECT
      <-> char_at word 0 <> NUL /\ is_number word = false
          /\ ~ In word register_names).
Proof.
  assert (Hreg : In word register_names ->
                 char_eqb (char_at word 0) NUL = false /\ is_number word = false).
  { intros Hin. simpl in Hin.
    repeat (destruct Hin as [<-|Hin]; [split; reflexivity|]). destruct Hin. }
  unfold get_addressing_method_type.
  destruct (char_eqb (char_at word 0) NUL) eqn:Hnul.
  - apply Ascii.eqb_eq in Hnul.
    repeat split; try discriminate; try tauto; try (intros [H _]; now elim H).
    + intros Hin. apply Hreg in Hin as [H _]. discriminate.
    + intros Hin. apply Hreg in Hin as [H _]. discriminate.
  - apply Ascii.eqb_neq in Hnul.
    destruct (is_number word) eqn:Hnum.
    + repeat split; try discriminate; try tauto; try congruence.
      * intros Hin. apply Hreg in Hin as [_ H]. discriminate.
      * intros Hin. apply Hreg in Hin as [_ H]. discriminate.
      * intros (_ & H & _). discriminate.
    + destruct (is_register word) eqn:Hisreg.
      * apply is_register_names in Hisreg.
        repeat split; try discriminate; try tauto; try congruence.
        -- intros _. simpl in Hisreg.
           repeat (destruct Hisreg as [<-|Hisreg]; [reflexivity|]). destruct Hisreg.
        -- intros [_ H]. discriminate.
      * assert (Hout : ~ In word register_names).
        { intros Hin. apply is_register_names in Hin. congruence. }
        repeat split; try discriminate; try tauto; try congruence.
        intros [_ H]. discriminate.
Qed.

(* ================================================================= *)
(** ** Looking labels up *)

Lemma add_to_list_label_cases (head head' : list item_label) (name : string)
    (address : Z) (kind : type_of_label) (code : error_code) :
  add_to_list_label head name address kind = Some (code, head') ->
  (In name (map name_label head) /\ code = LABEL_ALREADY_EXISTS /\ head' = head)
  \/ (~ In name (map name_label head) /\ code = NO_ERROR
      /\ head' = head ++ [mk_label name address kind]).
Proof.
  unfold add_to_list_label, create_node_label.
  destruct (String.length name <? MAX_NAME_LABEL_LENGTH)%nat; [|discriminate].
  destruct (in_dec string_dec name (map name_label head)) as [Hin|Hout].
  - destruct head as [|temp_node rest]; [destruct Hin|].
    rewrite add_to_list_label_loop_present by assumption.
    intros H. inversion H. left. auto.
  - destruct head as [|temp_node rest].
    + intros H. inversion H. right. auto.
    + rewrite add_to_list_label_loop_absent by assumption.
      intros H. inversion H. right. auto.
Qed.

Lemma search_in_list_label_none (head : list item_label) (name : string) :
  search_in_list_label head name = None <-> ~ In name (map name_label head).
Proof.
  induction head as [|r head IH]; cbn [search_in_list_label map In].
  - tauto.
  - destruct (str_eq name (name_label r)) eqn:Hcmp.
    + apply str_eq_true in Hcmp. split; [discriminate|]. intros H. elim H. auto.
    + apply str_eq_false in Hcmp. rewrite IH. intuition congruence.
Qed.

Lemma search_in_list_label_some (head : list item_label) (name : string)
    (r : item_label) :
  search_in_list_label head name = Some r -> In r head /\ name_label r = name.
Proof.
  induction head as [|t head IH]; cbn [search_in_list_label]; [discriminate|].
  destruct (str_eq name (name_label t)) eqn:Hcmp.
  - apply str_eq_true in Hcmp. intros H. inversion H. subst. split; [now left | auto].
  - intros H. apply IH in H as [Hin Hname]. split; [now right | assumption].
Qed.

Lemma search_in_list_label_app (head tail : list item_label) (name : string) :
  search_in_list_label (head ++ tail) name
  = match search_in_list_label head name with
    | Some r => Some r
    | None => search_in_list_label tail name
    end.
Proof.
  induction head as [|t head IH]; [reflexivity|].
  cbn [app search_in_list_label].
  destruct (str_eq name (name_label t)); [reflexivity | exact IH].
Qed.

(** X9.  After [add_to_list_label] has added a name, [search_in_list_label]
    finds the new record under that name; after it has refused a name,
    the table is the one before, in which the search finds the earlier
    record of the name; in both cases the search for any other name
    gives what it gave before, and names that were distinct stay
    distinct. *)
Theorem label_lookup_after_insert (head head' : list item_label) (name : string)
    (address : Z) (kind : type_of_label) (code : error_code) :
  add_to_list_label head name address kind = Some (code, head') ->
  (code = NO_ERROR ->
     search_in_list_label head name = None
     /\ search_in_list_label head' name = Some (mk_label name address kind))
  /\ (code = LABEL_ALREADY_EXISTS ->
        head' = head
        /\ exists r, search_in_list_label head name = Some r /\ name_label r = name)
  /\ (code = NO_ERROR \/ code = LABEL_ALREADY_EXISTS)
  /\ (forall other : string,
        other <> name ->
        search_in_list_label head' other = search_in_list_label head other)
  /\ (NoDup (map name_label head) -> NoDup (map name_label head')).
Proof.
  intros Hadd.
  pose proof (add_to_list_label_NoDup head head' name address kind code) as Hnodup.
  apply add_to_list_label_cases in Hadd as Hcases.
  destruct Hcases as [(Hin & -> & ->) | (Hout & -> & ->)].
  - split; [discriminate|]. split.
    + intros _. split; [reflexivity|].
      destruct (search_in_list_label head name) as [r|] eqn:Hsearch.
      * exists r. split; [reflexivity|]. now apply search_in_list_label_some in Hsearch.
      * apply search_in_list_label_none in Hsearch. contradiction.
    + split; [now right|]. split; [reflexivity|]. intros Hnd. now apply Hnodup.
  - split.
    + intros _. apply search_in_list_label_none in Hout as Hnone.
      split; [exact Hnone|].
      rewrite search_in_list_label_app, Hnone. cbn [search_in_list_label name_label].
      assert (Hrefl : str_eq name name = true) by now apply str_eq_true.
      now rewrite Hrefl.
    + split; [discriminate|]. split; [now left|]. split.
      * intros other Hother. rewrite search_in_list_label_app.
        destruct (search_in_list_label head other); [reflexivity|].
        cbn [search_in_list_label name_label].
        apply str_eq_false in Hother. now rewrite Hother.
      * intros Hnd. now apply Hnodup.
Qed.

Lemma label_lookup_after_insert_witness :
  search_in_list_label [mk_label "MAIN" 100 CODE] "LEN" = None
  /\ search_in_list_label [mk_label "MAIN" 100 CODE; mk_label "LEN" 4 DATA] "LEN"
     = Some (mk_label "LEN" 4 DATA).
Proof.
  apply (label_lookup_after_insert [mk_label "MAIN" 100 CODE]
           [mk_label "MAIN" 100 CODE; mk_label "LEN" 4 DATA] "LEN" 4 DATA NO_ERROR);
    reflexivity.
Defined.

Lemma mark_label_as_entry_names (head : list item_label) (name : string) :
  map name_label (snd (mark_label_as_entry head name)) = map name_label head
  /\ map address_label (snd (mark_label_as_entry head name)) = map address_label head.
Proof.
  induction head as [|t head [IHn IHa]]; [split; reflexivity|].
  cbn [mark_label_as_entry].
  destruct (str_eq name (name_label t)); [split; reflexivity|].
  destruct (mark_label_as_entry head name) as [code rest].
  cbn [snd map] in *. now rewrite IHn, IHa.
Qed.

(** X10.  [mark_label_as_entry] for a name that the table does not hold
    returns [CANT_FIND_LABEL_TO_ENTRY] and leaves the table as it was;
    for a name that the table holds it makes the first record of the
    name an [ENTRY] record of the same address.  The names and the
    addresses of the table, in their order, are kept, and so is the
    record found under any other name. *)
Theorem mark_label_as_entry_effect (head : list item_label) (name : string) :
  (search_in_list_label head name = None ->
     mark_label_as_entry head name = (CANT_FIND_LABEL_TO_ENTRY, head))
  /\ (forall r : item_label,
        search_in_list_label head name = Some r ->
        fst (mark_label_as_entry head name) = NO_ERROR
        /\ search_in_list_label (snd (mark_label_as_entry head name)) name
           = Some (mk_label (name_label r) (address_label r) ENTRY))
  /\ map name_label (snd (mark_label_as_entry head name)) = map name_label head
  /\ map address_label (snd (mark_label_as_entry head name)) = map address_label head
  /\ (forall other : string,
        other <> name ->
        search_in_list_label (snd (mark_label_as_entry head name)) other
        = search_in_list_label head other).
Proof.
  split; [|split; [|split; [|split]]];
    try apply mark_label_as_entry_names.
  - induction head as [|t head IH]; cbn [search_in_list_label mark_label_as_entry];
      [reflexivity|].
    destruct (str_eq name (name_label t)); [discriminate|].
    intros Hnone. now rewrite IH.
  - induction head as [|t head IH]; intros r;
      cbn [search_in_list_label mark_label_as_entry]; [discriminate|].
    destruct (str_eq name (name_label t)) eqn:Hcmp.
    + intros H. inversion H. subst r. cbn [fst snd search_in_list_label name_label].
      now rewrite Hcmp.
    + intros Hfound. destruct (IH r Hfound) as [Hcode Hsearch].
      destruct (mark_label_as_entry head name) as [code rest].
      cbn [fst snd search_in_list_label] in *. now rewrite Hcmp.
  - intros other Hother.
    induction head as [|t head IH]; cbn [search_in_list_label mark_label_as_entry];
      [reflexivity|].
    destruct (str_eq name (name_label t)) eqn:Hcmp.
    + apply str_eq_true in Hcmp. cbn [snd search_in_list_label name_label].
      assert (Hne : str_eq other (name_label t) = false)
        by (apply str_eq_false; congruence).
      now rewrite Hne.
    + destruct (mark_label_as_entry head name) as [code rest].
      cbn [snd search_in_list_label] in *.
      destruct (str_eq other (name_label t)); [reflexivity | exact IH].
Qed.

(** X11.  When [update_address_of_data] has rebased a table by [a], a
    second rebasing by [b] gives what one rebasing of the first table
    by [a + b] gives, for offsets whose sum an [int] holds; the record
    found under a name in the rebased table is the rebased record found
    before; and a rebasing by 0 returns the table as it was. *)
Theorem update_address_of_data_composes (head h1 : list item_label) (a : Z) :
  update_address_of_data head a = Some h1 ->
  (forall (b : Z) (h2 : list item_label),
     INT_MIN <= a + b <= INT_MAX ->
     update_address_of_data h1 b = Some h2 ->
     update_address_of_data head (a + b) = Some h2)
  /\ (forall name : string,
        search_in_list_label h1 name
        = match search_in_list_label head name with
          | Some r =>
              Some (mk_label (name_label r)
                      (match type r with
                       | DATA => address_label r + a
                       | _ => address_label r
                       end) (type r))
          | None => None
          end)
  /\ (a = 0 -> h1 = head).
Proof.
  intros Hfirst. split; [|split].
  - intros b h2 _. revert h1 h2 Hfirst.
    induction head as [|[n addr k] head IH]; intros h1 h2 Hfirst Hsecond;
      cbn [update_address_of_data] in Hfirst |- *.
    + injection Hfirst as <-. exact Hsecond.
    + cbn [type name_label address_label] in Hfirst |- *.
      destruct (type_of_label_eqb k DATA) eqn:Hdata.
      * destruct (int_range (addr + a)); [|discriminate].
        destruct (update_address_of_data head a) as [rest1|]; [|discriminate].
        injection Hfirst as <-.
        cbn [update_address_of_data type name_label address_label] in Hsecond.
        rewrite Hdata in Hsecond. rewrite <- Z.add_assoc in Hsecond.
        destruct (int_range (addr + (a + b))); [|discriminate].
        destruct (update_address_of_data rest1 b) as [rest2|] eqn:Hrest; [|discriminate].
        injection Hsecond as <-.
        now rewrite (IH rest1 rest2 eq_refl Hrest).
      * destruct (update_address_of_data head a) as [rest1|]; [|discriminate].
        injection Hfirst as <-.
        cbn [update_address_of_data type] in Hsecond. rewrite Hdata in Hsecond.
        destruct (update_address_of_data rest1 b) as [rest2|] eqn:Hrest; [|discriminate].
        injection Hsecond as <-.
        now rewrite (IH rest1 rest2 eq_refl Hrest).
  - intros name. revert h1 Hfirst.
    induction head as [|[n addr k] head IH]; intros h1 Hfirst;
      cbn [update_address_of_data] in Hfirst.
    + injection Hfirst as <-. reflexivity.
    + cbn [type name_label address_label] in Hfirst.
      destruct (type_of_label_eqb k DATA) eqn:Hdata.
      * destruct (int_range (addr + a)); [|discriminate].
        destruct (update_address_of_data head a) as [rest1|]; [|discriminate].
        injection Hfirst as <-.
        cbn [search_in_list_label name_label].
        destruct (str_eq name n); [|now apply IH].
        destruct k; try discriminate. reflexivity.
      * destruct (update_address_of_data head a) as [rest1|]; [|discriminate].
        injection Hfirst as <-.
        cbn [search_in_list_label name_label].
        destruct (str_eq name n); [|now apply IH].
        destruct k; try discriminate; reflexivity.
  - intros ->. revert h1 Hfirst.
    induction head as [|[n addr k] head IH]; intros h1 Hfirst;
      cbn [update_address_of_data] in Hfirst.
    + now injection Hfirst as <-.
    + cbn [type name_label address_label] in Hfirst.
      destruct (type_of_label_eqb k DATA).
      * destruct (int_range (addr + 0)); [|discriminate].
        destruct (update_address_of_data head 0) as [rest1|]; [|discriminate].
        injection Hfirst as <-. rewrite Z.add_0_r. f_equal. now apply IH.
      * destruct (update_address_of_data head 0) as [rest1|]; [|discriminate].
        injection Hfirst as <-. f_equal. now apply IH.
Qed.

Lemma update_address_of_data_composes_witness :
  let head := [mk_label "LIST" 0 DATA; mk_label "MAIN" 100 CODE; mk_label "STR" 4 DATA] in
  let h1 := [mk_label "LIST" 100 DATA; mk_label "MAIN" 100 CODE; mk_label "STR" 104 DATA] in
  let h2 := [mk_label "LIST" 103 DATA; mk_label "MAIN" 100 CODE; mk_label "STR" 107 DATA] in
  update_address_of_data head (100 + 3) = Some h2
  /\ search_in_list_label h1 "STR" = Some (mk_label "STR" 104 DATA).
Proof.
  intros head h1 h2.
  destruct (update_address_of_data_composes head h1 100) as (Hcompose & Hsearch & _);
    [reflexivity|].
  split.
  - apply Hcompose; [vm_compute; split; discriminate | reflexivity].
  - exact (Hsearch "STR"%string).
Defined.

(* ================================================================= *)
(** ** The listing of the entries *)

Lemma string_app_assoc (a b c : string) :
  ((a ++ b) ++ c = a ++ (b ++ c))%string.
Proof. induction a as [|d a IH]; [reflexivity|]. cbn [append]. now rewrite IH. Qed.

Lemma decimal_digits_grows (fuel : nat) :
  forall (n : Z) (acc : string),
    (String.length acc <= String.length (decimal_digits fuel n acc))%nat.
Proof.
  induction fuel as [|fuel IH]; intros n acc; cbn [decimal_digits]; [lia|].
  destruct (n / 10 =? 0); [cbn [String.length]; lia|].
  etransitivity; [|apply IH]. cbn [String.length]. lia.
Qed.

Lemma decimal_digits_long (k : nat) :
  forall (fuel : nat) (n : Z) (acc : string),
    10 ^ Z.of_nat k <= n -> (k < fuel)%nat ->
    (String.length acc + k + 1 <= String.length (decimal_digits fuel n acc))%nat.
Proof.
  induction k as [|k IH]; intros fuel n acc Hn Hfuel;
    (destruct fuel as [|fuel]; [lia|]); cbn [decimal_digits].
  - destruct (n / 10 =? 0); [cbn [String.length]; lia|].
    etransitivity; [|apply decimal_digits_grows]. cbn [String.length]. lia.
  - rewrite Nat2Z.inj_succ, Z.pow_succ_r in Hn by lia.
    assert (Hdiv : 10 ^ Z.of_nat k <= n / 10) by (apply Z.div_le_lower_bound; lia).
    assert (Hpos : 0 < 10 ^ Z.of_nat k) by (apply Z.pow_pos_nonneg; lia).
    destruct (Z.eqb_spec (n / 10) 0) as [Hzero|_]; [lia|].
    etransitivity; [|apply IH; [exact Hdiv | lia]]. cbn [String.length]. lia.
Qed.

Lemma print_int_short (n : Z) :
  0 <= n < 1000 -> (String.length (print_int n) + 1 <=? MAX_DIGITS_FOR_ADDRESS)%nat = true.
Proof.
  intros Hn.
  assert (Hall : forallb
                   (fun k => (String.length (print_int (Z.of_nat k)) + 1
                              <=? MAX_DIGITS_FOR_ADDRESS)%nat)
                   (seq 0 1000) = true) by (vm_compute; reflexivity).
  rewrite forallb_forall in Hall.
  specialize (Hall (Z.to_nat n)). rewrite Z2Nat.id in Hall by lia.
  apply Hall. apply in_seq. lia.
Qed.

Lemma print_int_long (n : Z) :
  1000 <= n -> (String.length (print_int n) + 1 <=? MAX_DIGITS_FOR_ADDRESS)%nat = false.
Proof.
  intros Hn. apply Nat.leb_gt. unfold print_int, MAX_DIGITS_FOR_ADDRESS.
  assert (Hpos : (n <? 0) = false) by (apply Z.ltb_ge; lia). rewrite Hpos.
  pose proof (decimal_digits_long 3 (S (Z.to_nat n)) n EmptyString) as Hlong.
  cbn [String.length] in Hlong.
  assert (3 < S (Z.to_nat n))%nat by lia.
  specialize (Hlong ltac:(simpl; lia) ltac:(assumption)). lia.
Qed.

(** X12.  [get_entry_list] writes the line of every [ENTRY] record, in
    the order of the table, when the address of each of them is below
    1000; an [ENTRY] record with an address of 1000 or more does not fit
    the buffer into which its address is printed.  Addresses are not
    negative. *)
Theorem get_entry_list_content (head : list item_label) :
  Forall (fun r => 0 <= address_label r) head ->
  (Forall (fun r => type r = ENTRY -> address_label r < 1000) head ->
   get_entry_list head = Some (entry_lines head))
  /\ (Exists (fun r => type r = ENTRY /\ 1000 <= address_label r) head ->
      get_entry_list head = None).
Proof.
  intros Hpos. split.
  - intros Hsmall. induction head as [|r head IH]; [reflexivity|].
    inversion Hpos as [|? ? Hr Hrest]. inversion Hsmall as [|? ? Hs Hsrest]. subst.
    cbn [get_entry_list entry_lines]. rewrite IH by assumption.
    destruct (type_of_label_eqb (type r) ENTRY) eqn:Hentry; [|reflexivity].
    assert (Htype : type r = ENTRY) by (now destruct (type r)).
    rewrite print_int_short by (split; [assumption | auto]).
    unfold entry_line. now rewrite !string_app_assoc.
  - intros Hbig. induction head as [|r head IH]; [inversion Hbig|].
    inversion Hpos as [|? ? Hr Hrest]. subst.
    cbn [get_entry_list].
    destruct (get_entry_list head) as [tail|] eqn:Htail; [|reflexivity].
    inversion Hbig as [? ? [Htype Haddr]|? ? Hlater]; subst.
    + rewrite Htype. cbn [type_of_label_eqb]. now rewrite print_int_long.
    + specialize (IH Hrest Hlater). discriminate.
Qed.

Lemma get_entry_list_content_witness :
  get_entry_list [mk_label "MAIN" 100 ENTRY; mk_label "K" 0 EXTERN; mk_label "LEN" 104 ENTRY]
  = Some (entry_lines
            [mk_label "MAIN" 100 ENTRY; mk_label "K" 0 EXTERN; mk_label "LEN" 104 ENTRY]).
Proof.
  apply get_entry_list_content.
  - repeat constructor; simpl; lia.
  - repeat constructor; simpl; intros; lia.
Defined.

(* ================================================================= *)
(** ** Looking macros up *)

Lemma add_to_list_macro_loop_present (rest : list item_macro) :
  forall (temp_node new_node : item_macro) (name : string),
    In name (map name_macro (temp_node :: rest)) ->
    add_to_list_macro_loop temp_node rest name new_node
    = (MACRO_ALREADY_EXISTS, temp_node :: rest).
Proof.
  induction rest as [|next rest IH]; intros temp_node new_node name Hin;
    cbn [add_to_list_macro_loop].
  - destruct Hin as [Heq|[]]. apply str_eq_true in Heq. now rewrite Heq.
  - destruct (str_eq (name_macro temp_node) name) eqn:Hcmp; cbn [negb]; [reflexivity|].
    rewrite IH; [reflexivity|].
    destruct Hin as [Heq|Hin]; [|exact Hin].
    apply str_eq_true in Heq. congruence.
Qed.

Lemma add_to_list_macro_loop_absent (rest : list item_macro) :
  forall (temp_node new_node : item_macro) (name : string),
    ~ In name (map name_macro (temp_node :: rest)) ->
    add_to_list_macro_loop temp_node rest name new_node
    = (NO_ERROR, (temp_node :: rest) ++ [new_node]).
Proof.
  induction rest as [|next rest IH]; intros temp_node new_node name Hout;
    cbn [add_to_list_macro_loop].
  - destruct (str_eq (name_macro temp_node) name) eqn:Hcmp; [|reflexivity].
    apply str_eq_true in Hcmp. exfalso. apply Hout. now left.
  - destruct (str_eq (name_macro temp_node) name) eqn:Hcmp; cbn [negb].
    + apply str_eq_true in Hcmp. exfalso. apply Hout. now left.
    + rewrite IH; [reflexivity|]. intros Hin. apply Hout. now right.
Qed.

Lemma search_in_list_macro_none (head : list item_macro) (name : string) :
  search_in_list_macro head name = None <-> ~ In name (map name_macro head).
Proof.
  induction head as [|r head IH]; cbn [search_in_list_macro map In].
  - tauto.
  - destruct (str_eq name (name_macro r)) eqn:Hcmp.
    + apply str_eq_true in Hcmp. split; [discriminate|]. intros H. elim H. auto.
    + apply str_eq_false in Hcmp. rewrite IH. intuition congruence.
Qed.

Lemma search_in_list_macro_app (head tail : list item_macro) (name : string) :
  search_in_list_macro (head ++ tail) name
  = match search_in_list_macro head name with
    | Some r => Some r
    | None => search_in_list_macro tail name
    end.
Proof.
  induction head as [|t head IH]; [reflexivity|].
  cbn [app search_in_list_macro].
  destruct (str_eq name (name_macro t)); [reflexivity | exact IH].
Qed.

(** X13.  [add_to_list_macro] adds a macro whose name is new, after
    which [search_in_list_macro] finds its text under the name; it
    refuses a name that the table holds with [MACRO_ALREADY_EXISTS] and
    leaves the table, and so the earlier text of the name, as it was.
    What is found under any other name does not change.  The name and
    the text are ones that fit the fields of a node. *)
Theorem macro_lookup_after_insert (head : list item_macro) (name text : string) :
  (String.length name < MAX_ASSEMBLY_LINE_LENGTH)%nat ->
  Z.of_nat (String.length text) < MAX_CHARACTERS_ASSEMBLY_FILE ->
  (search_in_list_macro head name = None ->
     add_to_list_macro head name text = Some (NO_ERROR, head ++ [mk_macro name text])
     /\ search_in_list_macro (head ++ [mk_macro name text]) name
        = Some (mk_macro name text))
  /\ (forall r : item_macro,
        search_in_list_macro head name = Some r ->
        add_to_list_macro head name text = Some (MACRO_ALREADY_EXISTS, head))
  /\ (forall other : string,
        other <> name ->
        search_in_list_macro (head ++ [mk_macro name text]) other
        = search_in_list_macro head other).
Proof.
  intros Hname Htext.
  apply Nat.ltb_lt in Hname. apply Z.ltb_lt in Htext.
  unfold add_to_list_macro, create_node_macro. rewrite Hname, Htext. cbn [andb].
  repeat split.
  - apply search_in_list_macro_none in H.
    destruct head as [|temp_node rest]; [reflexivity|].
    now rewrite add_to_list_macro_loop_absent.
  - rewrite search_in_list_macro_app, H. cbn [search_in_list_macro name_macro].
    assert (Hrefl : str_eq name name = true) by now apply str_eq_true.
    now rewrite Hrefl.
  - intros r Hfound.
    assert (Hin : In name (map name_macro head)).
    { destruct (in_dec string_dec name (map name_macro head)) as [Hin|Hout];
        [exact Hin|].
      apply search_in_list_macro_none in Hout. congruence. }
    destruct head as [|temp_node rest]; [destruct Hin|].
    now rewrite add_to_list_macro_loop_present.
  - intros other Hother. rewrite search_in_list_macro_app.
    destruct (search_in_list_macro head other); [reflexivity|].
    cbn [search_in_list_macro name_macro].
    apply str_eq_false in Hother. now rewrite Hother.
Qed.

Lemma macro_lookup_after_insert_witness :
  add_to_list_macro [mk_macro "m1" "stop"] "m1" "rts"
  = Some (MACRO_ALREADY_EXISTS, [mk_macro "m1" "stop"]).
Proof.
  destruct (macro_lookup_after_insert [mk_macro "m1" "stop"] "m1" "rts")
    as (_ & Hrefused & _).
  - simpl. unfold MAX_ASSEMBLY_LINE_LENGTH. lia.
  - simpl. unfold MAX_CHARACTERS_ASSEMBLY_FILE. lia.
  - apply (Hrefused (mk_macro "m1" "stop")). reflexivity.
Defined.

(* ================================================================= *)
(** ** Reading a file line by line *)

Lemma string_rev_append_app (line : list ascii) :
  forall acc : string,
    string_rev_append line acc = (string_rev_append line EmptyString ++ acc)%string.
Proof.
  induction line as [|c line IH]; intros acc; [reflexivity|].
  cbn [string_rev_append]. rewrite (IH (String c acc)), (IH (String c EmptyString)).
  now rewrite string_app_assoc.
Qed.

Lemma string_rev_append_length (line : list ascii) :
  forall acc : string,
    String.length (string_rev_append line acc)
    = (List.length line + String.length acc)%nat.
Proof.
  induction line as [|c line IH]; intros acc; [reflexivity|].
  cbn [string_rev_append List.length]. rewrite IH. cbn [String.length]. lia.
Qed.

Lemma single_line_rev_append (line : list ascii) :
  forall (c : ascii) (acc : string),
    Forall (fun d => char_eqb d LF = false) line ->
    single_line (String c acc) = true ->
    single_line (string_rev_append line (String c acc)) = true.
Proof.
  induction line as [|d line IH]; intros c acc Hline Hacc; [exact Hacc|].
  inversion Hline as [|? ? Hd Hrest]. subst.
  cbn [string_rev_append]. apply IH; [assumption|].
  change (single_line (String d (String c acc)))
    with (negb (char_eqb d LF) && single_line (String c acc)).
  now rewrite Hd, Hacc.
Qed.

Lemma read_lines_loop_join (stream : string) :
  forall (room : nat) (line : list ascii),
    join_lines (read_lines_loop stream room line)
    = (string_rev_append line EmptyString ++ stream)%string.
Proof.
  induction stream as [|c stream IH]; intros room line; cbn [read_lines_loop].
  - destruct line as [|d line]; [reflexivity|].
    reflexivity.
  - destruct (char_eqb c LF || (room =? 1)%nat).
    + cbn [join_lines]. rewrite IH. cbn [string_rev_append append].
      now rewrite (string_rev_append_app line (String c EmptyString)), string_app_assoc.
    + rewrite IH. cbn [string_rev_append].
      now rewrite (string_rev_append_app line (String c EmptyString)), string_app_assoc.
Qed.

Lemma read_lines_join (stream : string) : join_lines (read_lines stream) = stream.
Proof. unfold read_lines. now rewrite read_lines_loop_join. Qed.

Lemma read_lines_loop_lines (stream : string) :
  forall (room : nat) (line : list ascii),
    (1 <= room)%nat ->
    (List.length line + room <= MAX_ASSEMBLY_LINE_LENGTH - 1)%nat ->
    Forall (fun d => char_eqb d LF = false) line ->
    Forall (fun l => (1 <= String.length l <= MAX_ASSEMBLY_LINE_LENGTH - 1)%nat
                     /\ single_line l = true)
           (read_lines_loop stream room line).
Proof.
  unfold MAX_ASSEMBLY_LINE_LENGTH.
  induction stream as [|c stream IH]; intros room line Hroom Hlen Hline;
    cbn [read_lines_loop].
  - destruct line as [|d line]; constructor; [|constructor].
    cbn [string_rev_append]. rewrite string_rev_append_length.
    cbn [String.length List.length] in *. split; [lia|].
    inversion Hline. subst. now apply single_line_rev_append.
  - destruct (char_eqb c LF || (room =? 1)%nat) eqn:Hcut.
    + constructor.
      * cbn [string_rev_append]. rewrite string_rev_append_length.
        cbn [String.length]. split; [lia|]. now apply single_line_rev_append.
      * apply IH; unfold MAX_ASSEMBLY_LINE_LENGTH;
          [lia | cbn [List.length]; lia | constructor].
    + apply orb_false_iff in Hcut as [Hc Hone]. apply Nat.eqb_neq in Hone.
      apply IH; [lia | cbn [List.length]; lia | now constructor].
Qed.

(** X14.  The lines that the passes read from a file, one [fgets] at a
    time, are the file cut into pieces: joined again they give the file;
    every line has from 1 to 81 characters, and a newline only as its
    last character. *)
Theorem read_lines_partition (stream : string) :
  join_lines (read_lines stream) = stream
  /\ Forall (fun l => (1 <= String.length l <= 81)%nat /\ single_line l = true)
            (read_lines stream).
Proof.
  split.
  - apply read_lines_join.
  - unfold read_lines. apply (read_lines_loop_lines stream (MAX_ASSEMBLY_LINE_LENGTH - 1) []);
      [unfold MAX_ASSEMBLY_LINE_LENGTH; lia | simpl; lia | constructor].
Qed.

(* ================================================================= *)
(** ** The macro expander on a source without macros *)

Lemma pre_assembly_plain_line (line : string) (m : machine) :
  macro_flag m = false ->
  head_macro_list (sfile m) = [] ->
  plain_line line = true ->
  exists m',
    PreAssembly.pre_assembly_on_line line m = Some (tt, m')
    /\ file_am (sfile m') = (file_am (sfile m) ++ c_str line)%string
    /\ macro_flag m' = false
    /\ head_macro_list (sfile m') = []
    /\ console m' = console m
    /\ error_flag (sfile m') = error_flag (sfile m)
    /\ count_macro (sfile m') = count_macro (sfile m).
Proof.
  intros Hflag Hhead Hplain. unfold plain_line in Hplain.
  destruct (create_new_line_struct (c_str line)) as [l|] eqn:Hline; [|discriminate].
  apply andb_true_iff in Hplain as [Hstart Hend].
  apply negb_true_iff in Hstart. apply negb_true_iff in Hend.
  unfold PreAssembly.pre_assembly_on_line, PreAssembly.update_line_to_array,
    PreAssembly.get_first_word_status.
  munfold. state_cbn. rewrite Hline. state_cbn. rewrite Hhead.
  cbn [search_in_list_macro]. rewrite Hstart, Hend. state_cbn. rewrite Hflag.
  eexists. split; [reflexivity|]. state_cbn. auto 10.
Qed.

Lemma pre_assembly_plain_lines (lines : list string) :
  forall m : machine,
    macro_flag m = false ->
    head_macro_list (sfile m) = [] ->
    forallb plain_line lines = true ->
    exists m',
      for_each_line PreAssembly.pre_assembly_on_line lines m = Some (tt, m')
      /\ file_am (sfile m') = (file_am (sfile m) ++ join_lines (map c_str lines))%string
      /\ head_macro_list (sfile m') = []
      /\ console m' = console m
      /\ error_flag (sfile m') = error_flag (sfile m)
      /\ count_macro (sfile m') = count_macro (sfile m).
Proof.
  induction lines as [|line lines IH]; intros m Hflag Hhead Hplain.
  - exists m. cbn [for_each_line map join_lines].
    split; [reflexivity|]. split; [|auto].
    generalize (file_am (sfile m)). intros s.
    induction s as [|c s IHs]; [reflexivity|]. cbn [append]. now rewrite <- IHs.
  - cbn [forallb] in Hplain. apply andb_true_iff in Hplain as [Hline Hrest].
    destruct (pre_assembly_plain_line line m Hflag Hhead Hline)
      as (m1 & Hrun & Ham & Hflag1 & Hhead1 & Hcon & Herr & Hcount).
    destruct (IH m1 Hflag1 Hhead1 Hrest)
      as (m' & Hrun' & Ham' & Hhead' & Hcon' & Herr' & Hcount').
    exists m'. cbn [for_each_line]. unfold bind at 1. rewrite Hrun.
    split; [exact Hrun'|].
    cbn [map join_lines]. rewrite Ham', Ham, string_app_assoc.
    repeat split; congruence.
Qed.

Lemma c_str_no_nul (text : string) : no_nul text = true -> c_str text = text.
Proof.
  induction text as [|c text IH]; [reflexivity|].
  cbn [no_nul c_str]. intros H. apply andb_true_iff in H as [Hc Htext].
  apply negb_true_iff in Hc. now rewrite Hc, IH.
Qed.

Lemma join_lines_no_nul (lines : list string) :
  no_nul (join_lines lines) = true -> map c_str lines = lines.
Proof.
  induction lines as [|line lines IH]; [reflexivity|].
  cbn [join_lines map]. rewrite no_nul_app. intros H.
  apply andb_true_iff in H as [Hline Hrest].
  now rewrite c_str_no_nul, IH.
Qed.

(** X15.  A source file in which no line starts with [mcro] or
    [endmcro], and every line fits the tokenizer, goes through the
    macro expander without a diagnostic and without a macro counted:
    the expanded file is the lines of the source, each up to its first
    NUL, and so the source itself when the source has no NUL. *)
Theorem pre_assembly_copies_plain_source (source_text : string) :
  forallb plain_line (read_lines source_text) = true ->
  exists m : machine,
    exec PreAssembly.start_pre_assembly (initial_machine source_text) = Some m
    /\ file_am (sfile m) = join_lines (map c_str (read_lines source_text))
    /\ console m = []
    /\ error_flag (sfile m) = false
    /\ count_macro (sfile m) = 0
    /\ (no_nul source_text = true -> file_am (sfile m) = source_text).
Proof.
  intros Hplain.
  unfold PreAssembly.start_pre_assembly, PreAssembly.pre_assembly_on_curr_file,
    PreAssembly.update_files.
  set (m0 := set_sfile (set_file_am EmptyString
                          (sfile (set_macro_flag false (initial_machine source_text))))
                       (set_macro_flag false (initial_machine source_text))).
  destruct (pre_assembly_plain_lines (read_lines source_text) m0
              eq_refl eq_refl Hplain)
    as (m' & Hrun & Ham & Hhead & Hcon & Herr & Hcount).
  exists (set_sfile (set_head_macro_list [] (sfile m')) m').
  split.
  - change (exec (for_each_line PreAssembly.pre_assembly_on_line
                    (read_lines source_text) ;;
                  file_set (set_head_macro_list [])) m0
            = Some (set_sfile (set_head_macro_list [] (sfile m')) m')).
    unfold exec, bind. now rewrite Hrun.
  - state_cbn. repeat split; try assumption.
    intros Hnul. rewrite Ham. cbn [m0 sfile set_sfile file_am set_file_am append].
    rewrite join_lines_no_nul.
    + apply read_lines_join.
    + now rewrite read_lines_join.
Qed.

Lemma pre_assembly_copies_plain_source_witness :
  exists m : machine,
    exec PreAssembly.start_pre_assembly (initial_machine sample_program) = Some m
    /\ file_am (sfile m) = join_lines (map c_str (read_lines sample_program))
    /\ console m = []
    /\ error_flag (sfile m) = false
    /\ count_macro (sfile m) = 0
    /\ (no_nul sample_program = true -> file_am (sfile m) = sample_program).
Proof.
  apply pre_assembly_copies_plain_source. vm_compute. reflexivity.
Defined.

(* ================================================================= *)
(** ** The bookkeeping of the diagnostics *)

#[local] Instance accounted_preorder : PreOrder accounted.
Proof.
  split.
  - intros m. exists []. rewrite app_nil_r. cbn [List.length]. intuition (auto; lia).
  - intros m1 m2 m3 (a & Hc & Hn & Hf) (b & Hc' & Hn' & Hf').
    exists (a ++ b). rewrite Hc', Hc, <- app_assoc, Hn', Hn, length_app.
    split; [reflexivity|]. split; [lia|].
    rewrite Hf', Hf. destruct a, b; cbn [app]; intuition (auto; discriminate).
Qed.

(** A step that touches neither the console nor the error counter nor
    the error flag. *)
Ltac accounted_leaf :=
  solve [exists []; state_cbn; rewrite ?app_nil_r; cbn [List.length];
         intuition (auto; lia)].

Ltac accounted_add_error :=
  intros m [] m' H; munfold_in H; inversion H; subst; clear H;
  eexists; split; [state_cbn; reflexivity|];
  state_cbn; cbn [List.length];
  split; [lia|]; split; [intros _; right; discriminate | reflexivity].

Lemma accounted_add_error_pre (code : error_code) :
  preserves accounted (PreAssembly.add_error code).
Proof. unfold PreAssembly.add_error. accounted_add_error. Qed.

Lemma accounted_add_error_first (code : error_code) :
  preserves accounted (FirstPass.add_error code).
Proof. unfold FirstPass.add_error. accounted_add_error. Qed.

Lemma accounted_add_error_second (code : error_code) :
  preserves accounted (SecondPass.add_error code).
Proof. unfold SecondPass.add_error. accounted_add_error. Qed.

Create HintDb accounting.

#[local] Hint Resolve accounted_add_error_pre accounted_add_error_first
  accounted_add_error_second : accounting.

(** Unfold the functions of the three passes, the loops and [add_error]
    apart. *)
Ltac unfold_passes :=
  cbv beta zeta delta
    [PreAssembly.start_pre_assembly PreAssembly.pre_assembly_on_curr_file
     PreAssembly.pre_assembly_on_line PreAssembly.action_by_status
     PreAssembly.paste_code_text PreAssembly.add_text_to_macro
     PreAssembly.add_new_macro_to_list PreAssembly.update_name_of_macro
     PreAssembly.paste_macro_text PreAssembly.fputs_am
     PreAssembly.get_first_word_status PreAssembly.update_line_to_array
     PreAssembly.update_files PreAssembly.update_error_status
     FirstPass.start_first_pass FirstPass.first_pass_on_curr_file
     FirstPass.first_pass_on_line FirstPass.update_address_label_of_data
     FirstPass.action_by_status FirstPass.add_instructions
     FirstPass.add_the_rest_of_the_instruction_to_array
     FirstPass.add_first_word_of_instruction_to_array
     FirstPass.check_errors_for_instructions
     FirstPass.update_addressing_method_type FirstPass.set_methods
     FirstPass.add_extern_labels FirstPass.save_string FirstPass.save_data
     FirstPass.save_data_value FirstPass.push_instruction FirstPass.push_data
     FirstPass.check_for_comma FirstPass.get_next_word_without_comma
     FirstPass.actions_on_label FirstPass.add_new_label_to_list
     FirstPass.add_label FirstPass.update_line_to_array
     FirstPass.update_error_status
     SecondPass.start_second_pass SecondPass.second_pass_on_curr_file
     SecondPass.second_pass_on_line SecondPass.create_all_files
     SecondPass.create_object_file SecondPass.action_by_status
     SecondPass.complete_missing_instructions
     SecondPass.update_the_rest_of_the_instruction_to_array
     SecondPass.complete_direct_operand SecondPass.increment_IC
     SecondPass.add_extern_label_to_array
     SecondPass.update_addressing_method_type SecondPass.set_methods
     SecondPass.mark_entry_labels SecondPass.mark_entry
     SecondPass.check_for_comma SecondPass.get_next_word_without_comma
     SecondPass.skip_on_label SecondPass.update_line_to_array
     SecondPass.update_error_status].

(** Decompose a computation of the passes down to its elementary steps;
    close the goals about the loops and [add_error] with the hints of
    [db] and the others with [leaf]. *)
Ltac passes_preserve db leaf :=
  unfold_passes;
  repeat (preserves_structure;
          try match goal with
              | |- preserves _ (for_each_line _ _) =>
                  apply preserves_for_each_line; [exact _ | intros ?]
              end);
  first [solve [auto with db] | leaf].

Lemma accounted_save_data_loop (fuel : nat) :
  preserves accounted (FirstPass.save_data_loop fuel).
Proof.
  induction fuel as [|fuel IH]; cbn [FirstPass.save_data_loop];
    passes_preserve accounting accounted_leaf.
Qed.

Lemma accounted_save_string_loop (rest : string) :
  preserves accounted (FirstPass.save_string_loop rest).
Proof.
  induction rest as [|c rest IH]; cbn [FirstPass.save_string_loop];
    passes_preserve accounting accounted_leaf.
Qed.

Lemma accounted_add_extern_labels_loop (fuel : nat) :
  preserves accounted (FirstPass.add_extern_labels_loop fuel).
Proof.
  induction fuel as [|fuel IH]; cbn [FirstPass.add_extern_labels_loop];
    passes_preserve accounting accounted_leaf.
Qed.

Lemma accounted_mark_entry_labels_loop (fuel : nat) :
  preserves accounted (SecondPass.mark_entry_labels_loop fuel).
Proof.
  induction fuel as [|fuel IH]; cbn [SecondPass.mark_entry_labels_loop];
    passes_preserve accounting accounted_leaf.
Qed.

#[local] Hint Resolve accounted_save_data_loop accounted_save_string_loop
  accounted_add_extern_labels_loop accounted_mark_entry_labels_loop : accounting.

Lemma accounted_pre_assembly : preserves accounted PreAssembly.start_pre_assembly.
Proof. passes_preserve accounting accounted_leaf. Qed.

Lemma accounted_first_pass (padding_bits : Z -> Z) :
  preserves accounted (FirstPass.start_first_pass padding_bits).
Proof. passes_preserve accounting accounted_leaf. Qed.

Lemma accounted_second_pass (padding_bits : Z -> Z) :
  preserves accounted (SecondPass.start_second_pass padding_bits).
Proof. passes_preserve accounting accounted_leaf. Qed.

Lemma accounted_translation (padding_bits : Z -> Z) :
  preserves accounted
    (PreAssembly.start_pre_assembly ;;
     FirstPass.start_first_pass padding_bits ;;
     SecondPass.start_second_pass padding_bits).
Proof.
  apply preserves_bind; [exact _ | apply accounted_pre_assembly | intros _].
  apply preserves_bind; [exact _ | apply accounted_first_pass | intros _].
  apply accounted_second_pass.
Qed.

Lemma exec_run {A : Type} (c : M A) (m m' : machine) :
  exec c m = Some m' -> exists a : A, c m = Some (a, m').
Proof.
  unfold exec. destruct (c m) as [[a m1]|]; [|discriminate].
  intros H. inversion H. now exists a.
Qed.

(** X16.  At the end of a translation the error counter is the number
    of diagnostics that were printed, and the error flag is set exactly
    when one was printed. *)
Theorem diagnostics_are_counted (padding_bits : Z -> Z) (source_text : string)
    (m : machine) :
  start_assembly_process_on_file padding_bits source_text = Some m ->
  count_error (sfile m) = Z.of_nat (List.length (console m))
  /\ (error_flag (sfile m) = true <-> console m <> []).
Proof.
  intros Hrun. unfold start_assembly_process_on_file in Hrun.
  apply exec_run in Hrun as [a Hrun].
  apply accounted_translation in Hrun as (added & Hcon & Hcount & Hflag).
  cbn in Hcon, Hcount, Hflag. subst added.
  split; [lia|]. rewrite Hflag. intuition discriminate.
Qed.

Lemma diagnostics_are_counted_witness :
  let m := translated (".data 1,,2" ++ nl) in
  count_error (sfile m) = Z.of_nat (List.length (console m))
  /\ (error_flag (sfile m) = true <-> console m <> []).
Proof.
  intros m.
  apply (diagnostics_are_counted (fun _ => 0) (".data 1,,2" ++ nl)).
  vm_compute. reflexivity.
Defined.

(* ================================================================= *)
(** ** No artefact after a diagnostic *)

#[local] Instance unwritten_preorder : PreOrder unwritten.
Proof.
  split.
  - intros m. unfold unwritten. auto.
  - intros m1 m2 m3 (H1 & H2 & H3 & H4) (H1' & H2' & H3' & H4').
    unfold unwritten. repeat split; congruence.
Qed.

Ltac unwritten_leaf := solve [unfold unwritten; state_cbn; auto].

Create HintDb unwriting.

Lemma unwritten_add_error_pre (code : error_code) :
  preserves unwritten (PreAssembly.add_error code).
Proof. unfold PreAssembly.add_error. preserves_structure; unwritten_leaf. Qed.

Lemma unwritten_add_error_first (code : error_code) :
  preserves unwritten (FirstPass.add_error code).
Proof. unfold FirstPass.add_error. preserves_structure; unwritten_leaf. Qed.

#[local] Hint Resolve unwritten_add_error_pre unwritten_add_error_first : unwriting.

Lemma unwritten_save_data_loop (fuel : nat) :
  preserves unwritten (FirstPass.save_data_loop fuel).
Proof.
  induction fuel as [|fuel IH]; cbn [FirstPass.save_data_loop];
    passes_preserve unwriting unwritten_leaf.
Qed.

Lemma unwritten_save_string_loop (rest : string) :
  preserves unwritten (FirstPass.save_string_loop rest).
Proof.
  induction rest as [|c rest IH]; cbn [FirstPass.save_string_loop];
    passes_preserve unwriting unwritten_leaf.
Qed.

Lemma unwritten_add_extern_labels_loop (fuel : nat) :
  preserves unwritten (FirstPass.add_extern_labels_loop fuel).
Proof.
  induction fuel as [|fuel IH]; cbn [FirstPass.add_extern_labels_loop];
    passes_preserve unwriting unwritten_leaf.
Qed.

#[local] Hint Resolve unwritten_save_data_loop unwritten_save_string_loop
  unwritten_add_extern_labels_loop : unwriting.

Lemma unwritten_pre_assembly : preserves unwritten PreAssembly.start_pre_assembly.
Proof. passes_preserve unwriting unwritten_leaf. Qed.

Lemma unwritten_first_pass (padding_bits : Z -> Z) :
  preserves unwritten (FirstPass.start_first_pass padding_bits).
Proof. passes_preserve unwriting unwritten_leaf. Qed.

Ltac keeps_leaf := solve [unfold keeps; state_cbn; reflexivity].

Create HintDb keeping.

Lemma keeps_file_am_add_error_second (code : error_code) :
  preserves (keeps (fun m => file_am (sfile m))) (SecondPass.add_error code).
Proof. unfold SecondPass.add_error. preserves_structure; keeps_leaf. Qed.

#[local] Hint Resolve keeps_file_am_add_error_second : keeping.

Lemma keeps_file_am_mark_entry_labels_loop (fuel : nat) :
  preserves (keeps (fun m => file_am (sfile m))) (SecondPass.mark_entry_labels_loop fuel).
Proof.
  induction fuel as [|fuel IH]; cbn [SecondPass.mark_entry_labels_loop];
    passes_preserve keeping keeps_leaf.
Qed.

#[local] Hint Resolve keeps_file_am_mark_entry_labels_loop : keeping.

Lemma second_pass_keeps_file_am (padding_bits : Z -> Z) :
  preserves (keeps (fun m => file_am (sfile m)))
    (SecondPass.start_second_pass padding_bits).
Proof. passes_preserve keeping keeps_leaf. Qed.

(** The state before the second pass of a translation: nothing is
    written yet, and no [.entry] line has been seen. *)
Lemma before_second_pass (padding_bits : Z -> Z) (source_text : string) (m : machine) :
  start_assembly_process_on_file padding_bits source_text = Some m ->
  exists m2 : machine,
    SecondPass.start_second_pass padding_bits m2 = Some (tt, m)
    /\ file_ob (sfile m2) = None /\ file_ent (sfile m2) = None
    /\ file_ext (sfile m2) = None /\ entry_flag (sfile m2) = false
    /\ file_am (sfile m2) = file_am (sfile m).
Proof.
  intros Hrun. unfold start_assembly_process_on_file in Hrun.
  apply exec_bind_inv in Hrun as ([] & m1 & Hpre & Hrun).
  apply exec_bind_inv in Hrun as ([] & m2 & Hfirst & Hrun).
  apply exec_inv in Hrun.
  exists m2. split; [exact Hrun|].
  apply unwritten_pre_assembly in Hpre as (Hob1 & Hent1 & Hext1 & Hflag1).
  apply unwritten_first_pass in Hfirst as (Hob2 & Hent2 & Hext2 & Hflag2).
  cbn in Hob1, Hent1, Hext1, Hflag1.
  repeat split; try congruence.
  symmetry. apply (second_pass_keeps_file_am padding_bits _ _ _ Hrun).
Qed.

(** How the second pass ends: after the lines either the error flag is
    set and nothing is written, or the artefacts are written. *)
Lemma second_pass_end (padding_bits : Z -> Z) (m2 m : machine) :
  SecondPass.start_second_pass padding_bits m2 = Some (tt, m) ->
  exists m3 : machine,
    for_each_line (SecondPass.second_pass_on_line padding_bits)
      (read_lines (file_am (sfile m2)))
      (set_sfile (set_IC FIRST_CELL_IN_MEMORY
                    (set_count_line 0 (sfile m2)))
                 (set_extern_list EmptyString
                    (set_sfile (set_count_line 0 (sfile m2)) m2)))
    = Some (tt, m3)
    /\ ((error_flag (sfile m3) = true
         /\ m = set_sfile (set_head_label_list [] (sfile m3)) m3)
        \/ (error_flag (sfile m3) = false
            /\ exists m4 : machine,
                 SecondPass.create_all_files m3 = Some (tt, m4)
                 /\ m = set_sfile (set_head_label_list [] (sfile m4)) m4)).
Proof.
  intros H.
  unfold SecondPass.start_second_pass, SecondPass.second_pass_on_curr_file in H.
  apply bind_inv in H as ([] & m0 & Hset & H). apply file_set_inv in Hset. subst m0.
  apply bind_inv in H as ([] & m0 & Hset & H). inversion Hset; subst m0; clear Hset.
  apply bind_inv in H as ([] & m0 & Hset & H). apply file_set_inv in Hset. subst m0.
  apply bind_inv in H as (expanded & m0 & Hget & H).
  apply file_get_inv in Hget as [-> ->]. state_cbn_in H.
  apply bind_inv in H as ([] & m3 & Hlines & H).
  apply bind_inv in H as (failed & m0 & Hget & H).
  apply file_get_inv in Hget as [-> ->].
  apply bind_inv in H as ([] & m4 & Hfiles & H).
  apply file_set_inv in H. subst m.
  exists m3. split; [exact Hlines|].
  apply when_inv in Hfiles. destruct Hfiles as [[Hok Hfiles]|[Hfailed Hfiles]].
  - right. apply negb_true_iff in Hok. split; [exact Hok|]. now exists m4.
  - left. apply negb_false_iff in Hfailed. inversion Hfiles. subst. auto.
Qed.

(** X17.  The object file is written exactly when the translation has
    printed no diagnostic; after a diagnostic neither the listing of the
    entries nor the listing of the externals is written either. *)
Theorem artefacts_need_a_clean_translation (padding_bits : Z -> Z)
    (source_text : string) (m : machine) :
  start_assembly_process_on_file padding_bits source_text = Some m ->
  (console m = [] <-> file_ob (sfile m) <> None)
  /\ (console m <> [] ->
      file_ent (sfile m) = None /\ file_ext (sfile m) = None).
Proof.
  intros Hrun.
  assert (Hflag : error_flag (sfile m) = true <-> console m <> []).
  { unfold start_assembly_process_on_file in Hrun.
    apply exec_run in Hrun as [a Hacc].
    apply accounted_translation in Hacc as (added & Hcon & _ & Hflag).
    cbn in Hcon, Hflag. subst added. rewrite Hflag. intuition discriminate. }
  assert (Hnone : console m <> [] ->
                  file_ob (sfile m) = None /\ file_ent (sfile m) = None
                  /\ file_ext (sfile m) = None).
  { intros Hdiag. apply Hflag in Hdiag.
    destruct (before_second_pass _ _ _ Hrun)
      as (m2 & Hsecond & Hob & Hent & Hext & _ & _).
    destruct (second_pass_end _ _ _ Hsecond) as (m3 & Hlines & Hend).
    pose proof (preserves_for_each_line still _ _
                  (still_second_pass_on_line padding_bits) _ _ _ Hlines)
      as (_ & _ & _ & (_ & Hob3 & Hent3 & Hext3 & _)).
    state_cbn_in Hob3. state_cbn_in Hent3. state_cbn_in Hext3.
    destruct Hend as [[_ ->]|[Hok (m4 & Hfiles & ->)]].
    - state_cbn. repeat split; congruence.
    - apply create_all_files_effect in Hfiles as (_ & _ & Hsame & _).
      state_cbn_in Hdiag. congruence. }
  split.
  - split.
    + intros Hclean.
      destruct (translation_without_diagnostic _ _ _ Hrun Hclean)
        as (m1 & _ & _ & _ & _ & _ & _ & _ & code_text & data_text & Hob & _).
      rewrite Hob. discriminate.
    + intros Hob. destruct (console m) as [|d rest] eqn:Hcon; [reflexivity|].
      exfalso. apply Hob. apply Hnone. discriminate.
  - intros Hdiag. apply Hnone in Hdiag. tauto.
Qed.

Lemma artefacts_need_a_clean_translation_witness :
  let m := translated (".extern K" ++ nl ++ "jmp L" ++ nl) in
  (console m = [] <-> file_ob (sfile m) <> None)
  /\ (console m <> [] ->
      file_ent (sfile m) = None /\ file_ext (sfile m) = None).
Proof.
  intros m.
  apply (artefacts_need_a_clean_translation (fun _ => 0)
           (".extern K" ++ nl ++ "jmp L" ++ nl)).
  vm_compute. reflexivity.
Defined.

(* ================================================================= *)
(** ** The listing of the entries is written for an [.entry] line *)

Lemma keeps_entry_flag_add_error_second (code : error_code) :
  preserves (keeps (fun m => entry_flag (sfile m))) (SecondPass.add_error code).
Proof. unfold SecondPass.add_error. preserves_structure; keeps_leaf. Qed.

#[local] Hint Resolve keeps_entry_flag_add_error_second : keeping.

Lemma keeps_entry_flag_mark_entry_labels_loop (fuel : nat) :
  preserves (keeps (fun m => entry_flag (sfile m)))
    (SecondPass.mark_entry_labels_loop fuel).
Proof.
  induction fuel as [|fuel IH]; cbn [SecondPass.mark_entry_labels_loop];
    passes_preserve keeping keeps_leaf.
Qed.

#[local] Hint Resolve keeps_entry_flag_mark_entry_labels_loop : keeping.

Lemma mark_entry_labels_sets_flag (m m' : machine) :
  SecondPass.mark_entry_labels m = Some (tt, m') -> entry_flag (sfile m') = true.
Proof.
  intros H. unfold SecondPass.mark_entry_labels in H.
  apply bind_inv in H as ([] & m0 & Hset & H). apply file_set_inv in Hset. subst m0.
  assert (Hrest : preserves (keeps (fun m => entry_flag (sfile m)))
            (file_set (fun f =>
               set_pos_in_line (skip_one_word_in_line (pos_in_line f) (line_text f)) f) ;;
             text <- file_get line_text ;;
             pos <- file_get pos_in_line ;;
             if is_end_line pos text
             then SecondPass.add_error MUST_PROVIDE_LABELS_TO_ENTRY
             else SecondPass.mark_entry_labels_loop (String.length text)))
    by passes_preserve keeping keeps_leaf.
  apply Hrest in H. unfold keeps in H. now rewrite H.
Qed.

Lemma second_pass_on_line_entry (padding_bits : Z -> Z) (line : string)
    (m m' : machine) :
  SecondPass.second_pass_on_line padding_bits line m = Some (tt, m') ->
  entry_flag (sfile m') = entry_flag (sfile m) || line_declares_entry line.
Proof.
  intros H. unfold SecondPass.second_pass_on_line in H.
  apply bind_inv in H as ([] & m0 & Hset & H). apply file_set_inv in Hset. subst m0.
  apply bind_inv in H as ([] & m0 & Hset & H). apply file_set_inv in Hset. subst m0.
  apply bind_inv in H as (text & m0 & Hget & H). apply file_get_inv in Hget as [-> ->].
  cbn in H.
  unfold line_declares_entry, line_status_of. cbv zeta.
  destruct (is_line_empty (c_str line)) eqn:Hempty.
  { apply ret_inv in H as [_ ->]. cbn. now rewrite orb_false_r. }
  apply bind_inv in H as ([] & m0 & Hset & H). apply file_set_inv in Hset. subst m0.
  apply bind_inv in H as ([] & m2 & Hline & H).
  unfold SecondPass.update_line_to_array in Hline.
  apply bind_inv in Hline as (text & m0 & Hget & Hline).
  apply file_get_inv in Hget as [-> ->]. cbn in Hline.
  destruct (create_new_line_struct (c_str line)) as [l|] eqn:Hcreate;
    [|discriminate].
  apply bind_inv in Hline as (l0 & m0 & Hret & Hline). apply ret_inv in Hret as [-> ->].
  apply file_set_inv in Hline. subst m2.
  apply bind_inv in H as ([] & m3 & Hlabel & H).
  apply bind_inv in H as (pl & m0 & Hget & H). apply file_get_inv in Hget as [-> ->].
  unfold parsed_line. rewrite Hcreate.
  assert (Hflag3 : entry_flag (sfile m3) = entry_flag (sfile m)).
  { assert (Hkeep : preserves (keeps (fun m => entry_flag (sfile m)))
                      SecondPass.skip_on_label)
      by passes_preserve keeping keeps_leaf.
    now apply Hkeep in Hlabel. }
  destruct (skip_on_label_effect _ _ Hlabel) as (_ & b & l' & Hlab & Hl3).
  cbn in Hlab. rewrite Hlab.
  replace (match (if b then Some (delete_label_from_line_struct l') else Some l') with
           | Some l0 => _ | None => _ end) with
    (if count_eqb (count (line_struct (sfile m3))) ZERO then None
     else Some (FirstPass.get_word_status (word1 (line_struct (sfile m3))),
                line_struct (sfile m3))) by (destruct b; rewrite Hl3; reflexivity).
  clear Hlabel.
  destruct (count_eqb (count (line_struct (sfile m3))) ZERO).
  - apply ret_inv in H as [_ ->]. now rewrite Hflag3, orb_false_r.
  - change (SecondPass.get_word_status (word1 (line_struct (sfile m3))))
      with (FirstPass.get_word_status (word1 (line_struct (sfile m3)))) in H.
    destruct (FirstPass.get_word_status (word1 (line_struct (sfile m3))));
      cbn [SecondPass.action_by_status] in H;
      try (apply ret_inv in H as [_ ->]; now rewrite Hflag3, orb_false_r).
    + assert (Hkeep : preserves (keeps (fun m => entry_flag (sfile m)))
                        (SecondPass.complete_missing_instructions padding_bits))
        by passes_preserve keeping keeps_leaf.
      apply Hkeep in H. unfold keeps in H. now rewrite H, Hflag3, orb_false_r.
    + apply mark_entry_labels_sets_flag in H. now rewrite H, orb_true_r.
Qed.

Lemma second_pass_lines_entry (padding_bits : Z -> Z) (lines : list string) :
  forall m m' : machine,
    for_each_line (SecondPass.second_pass_on_line padding_bits) lines m = Some (tt, m') ->
    entry_flag (sfile m')
    = entry_flag (sfile m) || existsb line_declares_entry lines.
Proof.
  induction lines as [|line lines IH]; intros m m' H; cbn [for_each_line existsb] in *.
  - apply ret_inv in H as [_ ->]. now rewrite orb_false_r.
  - apply bind_inv in H as ([] & m1 & Hline & H).
    apply second_pass_on_line_entry in Hline. apply IH in H.
    now rewrite H, Hline, orb_assoc.
Qed.

Lemma create_all_files_entries (m m' : machine) :
  SecondPass.create_all_files m = Some (tt, m') ->
  file_ent (sfile m')
  = if entry_flag (sfile m) then get_entry_list (head_label_list (sfile m))
    else file_ent (sfile m).
Proof.
  intros H. unfold SecondPass.create_all_files in H.
  apply bind_inv in H as (has_entries & m0 & Hget & H).
  apply file_get_inv in Hget as [-> ->].
  apply bind_inv in H as ([] & m1 & Hent & H).
  assert (Hrest : preserves (keeps (fun m => file_ent (sfile m)))
            (has_externs <- file_get extern_flag ;;
             when has_externs
               (list <- gets extern_list ;;
                file_set (set_file_ext (Some list))) ;;
             SecondPass.create_object_file))
    by passes_preserve keeping keeps_leaf.
  apply Hrest in H. unfold keeps in H. rewrite H.
  destruct (entry_flag (sfile m)); cbn [when] in Hent.
  - apply bind_inv in Hent as (head & m0 & Hget & Hent).
    apply file_get_inv in Hget as [-> ->].
    apply bind_inv in Hent as (list & m0 & Hlist & Hent).
    destruct (get_entry_list (head_label_list (sfile m))); [|discriminate].
    apply ret_inv in Hlist as [-> ->].
    apply file_set_inv in Hent. subst m1. reflexivity.
  - apply ret_inv in Hent as [_ ->]. reflexivity.
Qed.

(** X18.  When a source file is translated without a diagnostic, the
    listing of the entries is written if and only if the expanded
    source has a line that is an [.entry] directive. *)
Theorem entry_listing_written (padding_bits : Z -> Z) (source_text : string)
    (m : machine) :
  start_assembly_process_on_file padding_bits source_text = Some m ->
  console m = [] ->
  (file_ent (sfile m) <> None
   <-> existsb line_declares_entry (read_lines (file_am (sfile m))) = true).
Proof.
  intros Hrun Hclean.
  assert (Hflag : error_flag (sfile m) = false).
  { unfold start_assembly_process_on_file in Hrun.
    apply exec_run in Hrun as [a Hacc].
    apply accounted_translation in Hacc as (added & Hcon & _ & Hflag).
    cbn in Hcon, Hflag. subst added.
    destruct (error_flag (sfile m)); [|reflexivity].
    destruct Hflag as [Hflag _]. destruct (Hflag eq_refl) as [H|H];
      [discriminate | now elim H]. }
  destruct (before_second_pass _ _ _ Hrun)
    as (m2 & Hsecond & _ & Hent & _ & Hentry & Ham).
  destruct (second_pass_end _ _ _ Hsecond) as (m3 & Hlines & Hend).
  pose proof (preserves_for_each_line still _ _
                (still_second_pass_on_line padding_bits) _ _ _ Hlines)
    as (_ & _ & _ & (_ & _ & Hent3 & _)).
  state_cbn_in Hent3.
  apply second_pass_lines_entry in Hlines. state_cbn_in Hlines.
  rewrite Hentry, Ham in Hlines. cbn [orb] in Hlines.
  destruct Hend as [[Hfailed ->]|[Hok (m4 & Hfiles & ->)]].
  - state_cbn_in Hflag. congruence.
  - state_cbn. state_cbn_in Hlines.
    pose proof (create_all_files_entries _ _ Hfiles) as Hfile.
    rewrite Hfile, Hlines.
    destruct (existsb line_declares_entry (read_lines (file_am (sfile m4)))) eqn:Hany.
    + split; [reflexivity|]. intros _.
      unfold SecondPass.create_all_files in Hfiles.
      apply bind_inv in Hfiles as (has_entries & m0 & Hget & Hfiles).
      apply file_get_inv in Hget as [-> ->].
      apply bind_inv in Hfiles as ([] & m1 & Hwrite & _).
      rewrite Hlines in Hwrite. cbn [when] in Hwrite.
      apply bind_inv in Hwrite as (head & m0 & Hget & Hwrite).
      apply file_get_inv in Hget as [-> ->].
      apply bind_inv in Hwrite as (list & m0 & Hlist & _).
      destruct (get_entry_list (head_label_list (sfile m3))); discriminate.
    + split; [|discriminate]. intros Hsome. elim Hsome. congruence.
Qed.

Lemma entry_listing_written_witness :
  let m := translated ("MAIN: stop" ++ nl ++ ".entry MAIN" ++ nl) in
  file_ent (sfile m) <> None
  <-> existsb line_declares_entry (read_lines (file_am (sfile m))) = true.
Proof.
  intros m.
  apply (entry_listing_written (fun _ => 0) ("MAIN: stop" ++ nl ++ ".entry MAIN" ++ nl)).
  - vm_compute. reflexivity.
  - vm_compute. reflexivity.
Defined.

(* ================================================================= *)
(** ** The length of an instruction *)

Lemma operand_words_bounds (src dst : addressing_method) :
  0 <= operand_words src dst <= 2.
Proof. destruct src, dst; cbv [operand_words addressing_method_eqb]; lia. Qed.

(** X19.  An instruction that the first pass encodes takes the opcode
    word and a word for each operand, two register operands sharing
    one: from one to three words.  When the error flag is set after
    [add_instructions], be it from this line or from an earlier one,
    nothing was encoded: the instruction counter and the code are as
    they were. *)
Theorem instruction_length (padding_bits : Z -> Z) (m m' : machine) :
  FirstPass.add_instructions padding_bits m = Some (tt, m') ->
  (error_flag (sfile m') = false ->
   IC (sfile m')
   = IC (sfile m) + 1
     + operand_words (fst (operand_methods (line_struct (sfile m))))
         (snd (operand_methods (line_struct (sfile m))))
   /\ 1 <= IC (sfile m') - IC (sfile m) <= 3)
  /\ (error_flag (sfile m') = true ->
      IC (sfile m') = IC (sfile m)
      /\ instruction_array (sfile m') = instruction_array (sfile m)).
Proof.
  intros H. split.
  - intros Hok. apply add_instructions_IC in H; [|assumption].
    unfold instruction_words in H.
    pose proof (operand_words_bounds
                  (fst (operand_methods (line_struct (sfile m))))
                  (snd (operand_methods (line_struct (sfile m))))).
    lia.
  - intros Hfailed. unfold FirstPass.add_instructions in H.
    apply bind_inv in H as (line & m0 & Hget & H).
    apply file_get_inv in Hget as [-> ->].
    apply bind_inv in H as ([] & m1 & Hupd & H).
    apply bind_inv in H as ([] & m2 & Hchk & H).
    apply bind_inv in H as (failed & m0 & Hget & H).
    apply file_get_inv in Hget as [-> ->].
    apply quiet_update_addressing_method_type in Hupd as (Hic1 & Harr1 & _).
    apply quiet_line_check_errors in Hchk as ((Hic2 & Harr2 & _) & _).
    apply when_inv in H. destruct H as [[Hok H]|[_ H]].
    + exfalso. apply negb_true_iff in Hok.
      apply bind_inv in H as ([] & m3 & Hfirst & Hrest).
      unfold FirstPass.add_first_word_of_instruction_to_array in Hfirst.
      apply bind_inv in Hfirst as (line & m0 & Hget & Hfirst).
      apply file_get_inv in Hget as [-> ->].
      apply bind_inv in Hfirst as (ic & m0 & Hget & Hfirst).
      apply file_get_inv in Hget as [-> ->].
      apply (keeps_cell_push_instruction 0) in Hfirst as (_ & Hflag3 & _).
      apply (keeps_cell_add_the_rest padding_bits 0) in Hrest as (_ & Hflag4 & _).
      congruence.
    + inversion H. subst m'. split; congruence.
Qed.

Lemma instruction_length_witness :
  let m := machine_with_line ("mov @r1, @r2" ++ nl) in
  let m' := state_after (FirstPass.add_instructions (fun _ => 0)) m in
  IC (sfile m')
  = IC (sfile m) + 1
    + operand_words (fst (operand_methods (line_struct (sfile m))))
        (snd (operand_methods (line_struct (sfile m))))
  /\ 1 <= IC (sfile m') - IC (sfile m) <= 3.
Proof.
  intros m m'.
  apply (instruction_length (fun _ => 0) m m'); vm_compute; reflexivity.
Defined.

(* ================================================================= *)
(** ** Operands that an instruction does not take *)

Lemma keeps_count_line_add_error_first (code : error_code) :
  preserves (keeps (fun m => count_line (sfile m))) (FirstPass.add_error code).
Proof. unfold FirstPass.add_error. preserves_structure; keeps_leaf. Qed.

#[local] Hint Resolve keeps_count_line_add_error_first : keeping.

Lemma check_errors_immediate_destination (type : instruction_type) (m m' : machine) :
  FirstPass.check_errors_for_instructions type m = Some (tt, m') ->
  destination (line_struct (sfile m)) = IMMEDIATE ->
  type <> CMP -> type <> PRN -> type <> RTS -> type <> STOP ->
  type <> NOT_INSTRUCTION ->
  error_flag (sfile m') = true
  /\ In (INVALID_ADDRESS_METHOD_FOR_INSTRUCTION, count_line (sfile m)) (console m').
Proof.
  intros H Hdest Hcmp Hprn Hrts Hstop Hnot.
  unfold FirstPass.check_errors_for_instructions in H.
  apply bind_inv in H as (line & m0 & Hget & H).
  apply file_get_inv in Hget as [-> ->].
  apply bind_inv in H as ([] & m1 & Hcount & H).
  apply bind_inv in H as ([] & m2 & Hshape & H).
  assert (Hline : count_line (sfile m2) = count_line (sfile m)).
  { assert (Hkeep1 : forall b code,
              preserves (keeps (fun m => count_line (sfile m)))
                (when b (FirstPass.add_error code)))
      by (intros; passes_preserve keeping keeps_leaf).
    apply Hkeep1 in Hcount. unfold keeps in Hcount. rewrite <- Hcount.
    destruct type; try congruence;
      repeat match type of Hshape with
             | bind _ _ _ = _ =>
                 let m9 := fresh "m" in let H9 := fresh "H" in
                 apply bind_inv in Hshape as ([] & m9 & H9 & Hshape);
                 apply Hkeep1 in H9; unfold keeps in H9; rewrite <- H9
             end;
      apply Hkeep1 in Hshape; exact Hshape. }
  rewrite Hdest in H. cbn [addressing_method_eqb orb] in H.
  destruct type; try congruence;
    cbn [when] in H; unfold FirstPass.add_error in H; munfold_in H;
    inversion H; subst; clear H; state_cbn;
    (split; [reflexivity|]); apply in_or_app; right; left; now rewrite Hline.
Qed.

(** X20.  An instruction other than [cmp] and [prn] whose destination
    operand is an immediate value is refused: the first pass prints
    [INVALID_ADDRESS_METHOD_FOR_INSTRUCTION] for the line, sets the error
    flag and encodes nothing. *)
Theorem immediate_destination_rejected (padding_bits : Z -> Z) (m m' : machine) :
  FirstPass.add_instructions padding_bits m = Some (tt, m') ->
  snd (operand_methods (line_struct (sfile m))) = IMMEDIATE ->
  get_instruction_type (word1 (line_struct (sfile m))) <> CMP ->
  get_instruction_type (word1 (line_struct (sfile m))) <> PRN ->
  error_flag (sfile m') = true
  /\ In (INVALID_ADDRESS_METHOD_FOR_INSTRUCTION, count_line (sfile m)) (console m')
  /\ IC (sfile m') = IC (sfile m)
  /\ instruction_array (sfile m') = instruction_array (sfile m).
Proof.
  intros H Hdest Hcmp Hprn.
  unfold FirstPass.add_instructions in H.
  apply bind_inv in H as (line & m0 & Hget & H).
  apply file_get_inv in Hget as [-> ->].
  apply bind_inv in H as ([] & m1 & Hupd & H).
  apply bind_inv in H as ([] & m2 & Hchk & H).
  apply bind_inv in H as (failed & m0 & Hget & H).
  apply file_get_inv in Hget as [-> ->].
  assert (Hline1 : count_line (sfile m1) = count_line (sfile m)).
  { assert (Hkeep : preserves (keeps (fun m => count_line (sfile m)))
                      (FirstPass.update_addressing_method_type
                         (get_instruction_type (word1 (line_struct (sfile m))))))
      by passes_preserve keeping keeps_leaf.
    now apply Hkeep in Hupd. }
  apply update_addressing_method_type_effect in Hupd
    as ((Hic1 & Harr1 & _) & _ & _ & Hdst).
  pose proof (quiet_line_check_errors _ _ _ _ Hchk) as ((Hic2 & Harr2 & _) & _).
  apply check_errors_immediate_destination in Hchk; try congruence.
  - destruct Hchk as [Hflag Hin]. rewrite Hflag in H. cbn [negb when] in H.
    apply ret_inv in H as [_ ->].
    rewrite <- Hline1. repeat split; congruence.
  - intros Htype. unfold operand_methods in Hdest. rewrite Htype in Hdest. discriminate.
  - intros Htype. unfold operand_methods in Hdest. rewrite Htype in Hdest. discriminate.
  - intros Htype. unfold operand_methods in Hdest. rewrite Htype in Hdest. discriminate.
Qed.

Lemma immediate_destination_rejected_witness :
  let m := machine_with_line ("mov @r1, 5" ++ nl) in
  let m' := state_after (FirstPass.add_instructions (fun _ => 0)) m in
  error_flag (sfile m') = true
  /\ In (INVALID_ADDRESS_METHOD_FOR_INSTRUCTION, count_line (sfile m)) (console m')
  /\ IC (sfile m') = IC (sfile m)
  /\ instruction_array (sfile m') = instruction_array (sfile m).
Proof.
  intros m m'.
  apply (immediate_destination_rejected (fun _ => 0) m m').
  - vm_compute. reflexivity.
  - reflexivity.
  - vm_compute. discriminate.
  - vm_compute. discriminate.
Defined.

(* ================================================================= *)
(** ** The operand words *)

Lemma register_word_fields (register_number_destination register_number_source
    padding : Z) :
  let w := FirstPass.register_word register_number_destination
             register_number_source padding in
  bits w 0 1 = encoding_type_value ABSOLUTE
  /\ bits w 2 6 = register_number_destination mod 32
  /\ bits w 7 11 = register_number_source mod 32.
Proof.
  unfold FirstPass.register_word, pack_bit_fields. cbv zeta. split; [|split].
  - rewrite (bits_pack_head 2) by lia. reflexivity.
  - rewrite (bits_pack_tail 2 _ _ 0 4) by lia.
    rewrite (bits_pack_head 5) by lia. reflexivity.
  - rewrite (bits_pack_tail 2 _ _ 5 9) by lia.
    rewrite (bits_pack_tail 5 _ _ 0 4) by lia.
    rewrite (bits_pack_head 5) by lia. reflexivity.
Qed.

Lemma immediate_word_fields (value padding : Z) :
  let w := FirstPass.immediate_word value padding in
  bits w 0 1 = encoding_type_value ABSOLUTE
  /\ bits w 2 11 = value mod 1024.
Proof.
  unfold FirstPass.immediate_word, pack_bit_fields. cbv zeta. split.
  - rewrite (bits_pack_head 2) by lia. reflexivity.
  - rewrite (bits_pack_tail 2 _ _ 0 9) by lia.
    rewrite (bits_pack_head 10) by lia. reflexivity.
Qed.

Lemma push_instruction_cell (v : Z) (m m' : machine) :
  FirstPass.push_instruction v m = Some (tt, m') ->
  array_read (instruction_array (sfile m')) (IC (sfile m)) = Some v
  /\ IC (sfile m') = IC (sfile m) + 1.
Proof.
  intros H. unfold FirstPass.push_instruction in H. munfold_in H.
  destruct (array_write (instruction_array (sfile m)) (IC (sfile m)) v)
    as [array'|] eqn:Hw; [|discriminate].
  inversion H; subst; clear H. state_cbn.
  split; [|reflexivity]. eapply array_read_write_same. eassumption.
Qed.

Lemma push_at_IC (padding_bits : Z -> Z) (word : Z -> Z) (m m' : machine) :
  (ic <- file_get IC ;; FirstPass.push_instruction (word (padding_bits ic))) m
  = Some (tt, m') ->
  array_read (instruction_array (sfile m')) (IC (sfile m))
  = Some (word (padding_bits (IC (sfile m))))
  /\ IC (sfile m') = IC (sfile m) + 1.
Proof.
  intros H. apply bind_inv in H as (ic & m0 & Hget & H).
  apply file_get_inv in Hget as [-> ->]. now apply push_instruction_cell.
Qed.

Lemma atoi_some (text : string) (value : Z) :
  atoi text = Some value ->
  atoi_value text = value /\ INT_MIN <= value <= INT_MAX.
Proof.
  unfold atoi. cbv zeta. destruct (int_range (atoi_value text)) eqn:Hrange; [|discriminate].
  intros H. injection H as <-. split; [reflexivity|].
  unfold int_range in Hrange. apply andb_true_iff in Hrange as [Hlow Hhigh].
  apply Z.leb_le in Hlow, Hhigh. lia.
Qed.

Lemma push_immediate_at_IC (padding_bits : Z -> Z) (text : string) (m m' : machine) :
  (ic <- file_get IC ;;
   value <- lift_option (atoi text) ;;
   FirstPass.push_instruction (FirstPass.immediate_word value (padding_bits ic))) m
  = Some (tt, m') ->
  exists value : Z,
    atoi text = Some value
    /\ array_read (instruction_array (sfile m')) (IC (sfile m))
       = Some (FirstPass.immediate_word value (padding_bits (IC (sfile m))))
    /\ IC (sfile m') = IC (sfile m) + 1.
Proof.
  intros H. apply bind_inv in H as (ic & m0 & Hget & H).
  apply file_get_inv in Hget as [-> ->].
  apply bind_inv in H as (value & m0 & Hvalue & H).
  apply lift_option_inv in Hvalue as [Hvalue ->].
  exists value. split; [exact Hvalue|]. now apply push_instruction_cell.
Qed.

(** X21.  The first operand word that [add_the_rest_of_the_instruction_to_array]
    writes, in the cell next to the opcode word.  For a register source
    it holds the number of the source register in bits 7-11 and, in
    bits 2-6, the number of the destination register when the
    destination is a register too, and 0 otherwise.  For an immediate
    source it holds the value in bits 2-11, modulo 1024; the value is
    the one that [atoi] reads, a number that an [int] holds.  For a
    direct source the cell is set to 0, to be completed by the second
    pass.  Without a source, a register destination is in bits 2-6 of
    the word and an immediate destination in bits 2-11.  Bits 0-1 are
    [ABSOLUTE]. *)
Theorem operand_word_layout (padding_bits : Z -> Z) (m m' : machine) :
  FirstPass.add_the_rest_of_the_instruction_to_array padding_bits m = Some (tt, m') ->
  let line := line_struct (sfile m) in
  let cell := array_read (instruction_array (sfile m')) (IC (sfile m)) in
  (source line = REGISTER ->
   exists w, cell = Some w
     /\ bits w 0 1 = 0
     /\ bits w 2 6
        = (if addressing_method_eqb (destination line) REGISTER
           then get_number_of_register (word4 line) else 0) mod 32
     /\ bits w 7 11 = get_number_of_register (word2 line) mod 32)
  /\ (source line = IMMEDIATE ->
      exists w value, cell = Some w
        /\ atoi (word2 line) = Some value
        /\ atoi_value (word2 line) = value
        /\ INT_MIN <= value <= INT_MAX
        /\ bits w 0 1 = 0 /\ bits w 2 11 = value mod 1024)
  /\ (source line = DIRECT -> cell = Some 0)
  /\ (source line = NOT_EXIST -> destination line = REGISTER ->
      exists w, cell = Some w
        /\ bits w 0 1 = 0
        /\ bits w 2 6 = get_number_of_register (word4 line) mod 32
        /\ bits w 7 11 = 0)
  /\ (source line = NOT_EXIST -> destination line = IMMEDIATE ->
      exists w value, cell = Some w
        /\ atoi (word4 line) = Some value
        /\ atoi_value (word4 line) = value
        /\ INT_MIN <= value <= INT_MAX
        /\ bits w 0 1 = 0 /\ bits w 2 11 = value mod 1024).
Proof.
  intros H line cell. subst cell.
  unfold FirstPass.add_the_rest_of_the_instruction_to_array in H.
  apply bind_inv in H as (line0 & m0 & Hget & H).
  apply file_get_inv in Hget as [-> ->]. fold line in H.
  apply bind_inv in H as ([] & m1 & Hsrc & Hdst).
  assert (Hkeep : forall i, i < IC (sfile m1) ->
            array_read (instruction_array (sfile m')) i
            = array_read (instruction_array (sfile m1)) i).
  { intros i Hi.
    assert (Hpres : preserves (keeps_cell i)
              (match destination line with
               | REGISTER =>
                   when (negb (addressing_method_eqb (source line) REGISTER))
                     (ic <- file_get IC ;;
                      FirstPass.push_instruction
                        (FirstPass.register_word (get_number_of_register (word4 line))
                           (addressing_method_value NOT_EXIST) (padding_bits ic)))
               | IMMEDIATE =>
                   ic <- file_get IC ;;
                   value <- lift_option (atoi (word4 line)) ;;
                   FirstPass.push_instruction
                     (FirstPass.immediate_word value (padding_bits ic))
               | DIRECT => FirstPass.push_instruction 0
               | NOT_EXIST => ret tt
               end))
      by (preserves_structure; apply keeps_cell_push_instruction).
    destruct (Hpres _ _ _ Hdst) as (_ & _ & Hcell). now apply Hcell. }
  split; [|split; [|split; [|split]]].
  - intros Hsource. rewrite Hsource in Hsrc.
    apply (push_at_IC padding_bits
             (FirstPass.register_word
                (if addressing_method_eqb (destination line) REGISTER
                 then get_number_of_register (word4 line)
                 else addressing_method_value NOT_EXIST)
                (get_number_of_register (word2 line)))) in Hsrc as [Hcell Hic].
    rewrite Hkeep by lia. eexists. split; [exact Hcell|].
    apply register_word_fields.
  - intros Hsource. rewrite Hsource in Hsrc.
    apply push_immediate_at_IC in Hsrc as (value & Hvalue & Hcell & Hic).
    rewrite Hkeep by lia. exists (FirstPass.immediate_word value (padding_bits (IC (sfile m)))), value.
    split; [exact Hcell|]. split; [exact Hvalue|].
    destruct (atoi_some _ _ Hvalue) as [Hdigits Hrange].
    split; [exact Hdigits|]. split; [exact Hrange|].
    apply immediate_word_fields.
  - intros Hsource. rewrite Hsource in Hsrc.
    apply push_instruction_cell in Hsrc as [Hcell Hic].
    now rewrite Hkeep by lia.
  - intros Hsource Hdest. rewrite Hsource in Hsrc, Hdst. rewrite Hdest in Hdst.
    apply ret_inv in Hsrc as [_ ->]. cbn [addressing_method_eqb negb when] in Hdst.
    apply (push_at_IC padding_bits
             (FirstPass.register_word (get_number_of_register (word4 line))
                (addressing_method_value NOT_EXIST))) in Hdst as [Hcell Hic].
    eexists. split; [exact Hcell|]. apply register_word_fields.
  - intros Hsource Hdest. rewrite Hsource in Hsrc. rewrite Hdest in Hdst.
    apply ret_inv in Hsrc as [_ ->].
    apply push_immediate_at_IC in Hdst as (value & Hvalue & Hcell & Hic).
    exists (FirstPass.immediate_word value (padding_bits (IC (sfile m)))), value.
    split; [exact Hcell|]. split; [exact Hvalue|].
    destruct (atoi_some _ _ Hvalue) as [Hdigits Hrange].
    split; [exact Hdigits|]. split; [exact Hrange|].
    apply immediate_word_fields.
Qed.

Lemma operand_word_layout_witness :
  (let m := machine_with_operands ("mov @r3, @r5" ++ nl) in
   let m' :=
     state_after (FirstPass.add_the_rest_of_the_instruction_to_array (fun _ => 0)) m in
   exists w,
     array_read (instruction_array (sfile m')) (IC (sfile m)) = Some w
     /\ bits w 0 1 = 0 /\ bits w 2 6 = 5 /\ bits w 7 11 = 3)
  /\ (let m := machine_with_operands ("mov -1, @r2" ++ nl) in
      let m' :=
        state_after (FirstPass.add_the_rest_of_the_instruction_to_array (fun _ => 0)) m in
      exists w,
        array_read (instruction_array (sfile m')) (IC (sfile m)) = Some w
        /\ bits w 0 1 = 0 /\ bits w 2 11 = 1023).
Proof.
  split; intros m m'.
  - destruct (operand_word_layout (fun _ => 0) m m') as [Hregister _];
      [vm_compute; reflexivity|].
    destruct (Hregister eq_refl) as (w & Hcell & Hlow & Hdst & Hsrc).
    exists w. repeat split; assumption.
  - destruct (operand_word_layout (fun _ => 0) m m') as (_ & Himmediate & _);
      [vm_compute; reflexivity|].
    destruct (Himmediate eq_refl) as (w & value & Hcell & _ & Hvalue & _ & Hlow & Hbits).
    exists w. split; [exact Hcell|]. split; [exact Hlow|].
    rewrite Hbits, <- Hvalue. reflexivity.
Defined.

(* ================================================================= *)
(** ** The operand words that the second pass completes *)




(* ================================================================= *)
(** ** The words of a tokenized line *)

Lemma spaced_weaken (text : string) (free : bool) :
  spaced free text = true -> spaced true text = true.
Proof.
  destruct text as [|c rest]; [reflexivity|]. cbn [spaced].
  destruct (char_eqb c COMMA); [|auto].
  destruct free; [auto | discriminate].
Qed.

Lemma spaced_fix_comma_loop (line : string) :
  forall free : bool, spaced free (fix_comma_loop line) = true.
Proof.
  induction line as [|c line IH]; intros free; [reflexivity|].
  cbn [fix_comma_loop].
  destruct (is_line_end c) eqn:Hend; [reflexivity|].
  destruct (char_eqb c COMMA) eqn:Hcomma.
  - change (spaced free (String SPACE (String COMMA (String SPACE (fix_comma_loop line)))))
      with (spaced true (fix_comma_loop line)).
    apply IH.
  - cbn [spaced]. rewrite Hcomma. apply IH.
Qed.

Lemma spaced_string_from (text : string) :
  forall (i : nat) (free : bool),
    spaced free text = true -> spaced true (string_from i text) = true.
Proof.
  induction text as [|c text IH]; intros i free Hspaced.
  - now destruct i.
  - destruct i as [|i]; [now apply (spaced_weaken _ free)|].
    cbn [string_from]. cbn [spaced] in Hspaced.
    apply andb_true_iff in Hspaced as [_ Hrest]. now apply (IH i _ Hrest).
Qed.

Lemma get_word_loop_solid (rest : string) :
  forall i : nat, solid (fst (get_word_loop rest i)) = true.
Proof.
  induction rest as [|c rest IH]; intros i; cbn [get_word_loop]; [reflexivity|].
  destruct (is_blank c || is_line_end c) eqn:Hc; [reflexivity|].
  specialize (IH (S i)). destruct (get_word_loop rest (S i)) as [w j].
  cbn [fst solid] in *. now rewrite Hc, IH.
Qed.

Lemma get_word_loop_inside (rest : string) :
  forall i : nat,
    spaced false rest = true -> count_commas (fst (get_word_loop rest i)) = O.
Proof.
  induction rest as [|c rest IH]; intros i Hspaced; cbn [get_word_loop]; [reflexivity|].
  destruct (is_blank c || is_line_end c) eqn:Hc; [reflexivity|].
  cbn [spaced] in Hspaced. apply andb_true_iff in Hspaced as [Hhere Hrest].
  destruct (char_eqb c COMMA) eqn:Hcomma; [discriminate|].
  assert (Hspace : char_eqb c SPACE = false).
  { apply orb_false_iff in Hc as [Hblank _]. unfold is_blank in Hblank.
    now apply orb_false_iff in Hblank as [Hblank _]. }
  rewrite Hspace in Hrest. specialize (IH (S i) Hrest).
  destruct (get_word_loop rest (S i)) as [w j].
  cbn [fst count_commas] in *. now rewrite Hcomma, IH.
Qed.

Lemma get_word_loop_clean (rest : string) (i : nat) :
  spaced true rest = true -> clean_word (fst (get_word_loop rest i)) = true.
Proof.
  intros Hspaced. unfold clean_word. rewrite get_word_loop_solid. cbn [andb].
  destruct rest as [|c rest]; [reflexivity|]. cbn [get_word_loop].
  destruct (is_blank c || is_line_end c) eqn:Hc; [reflexivity|].
  cbn [spaced] in Hspaced. apply andb_true_iff in Hspaced as [Hhere Hrest].
  destruct (char_eqb c COMMA) eqn:Hcomma.
  - apply Ascii.eqb_eq in Hcomma. subst c.
    destruct rest as [|d rest]; [discriminate|]. cbn [andb] in Hhere.
    apply Ascii.eqb_eq in Hhere. subst d. reflexivity.
  - assert (Hspace : char_eqb c SPACE = false).
    { apply orb_false_iff in Hc as [Hblank _]. unfold is_blank in Hblank.
      now apply orb_false_iff in Hblank as [Hblank _]. }
    rewrite Hspace in Hrest.
    pose proof (get_word_loop_inside rest (S i) Hrest) as Hinside.
    destruct (get_word_loop rest (S i)) as [w j].
    cbn [fst count_commas] in *. now rewrite Hcomma, Hinside.
Qed.

Lemma GET_WORD_clean (temp_line : string) (i : nat) (free : bool) :
  spaced free temp_line = true ->
  clean_word (fst (fst (GET_WORD temp_line i))) = true.
Proof.
  intros Hspaced. unfold GET_WORD.
  pose proof (get_word_loop_clean (string_from i temp_line) i
                (spaced_string_from _ i _ Hspaced)) as Hclean.
  destruct (get_word_loop (string_from i temp_line) i) as [w j]. exact Hclean.
Qed.

(** X23.  Every word of a line that [create_new_line_struct] has
    tokenized is free of spaces, tabs, newlines and NULs, and a word
    that holds a comma is the comma alone. *)
Theorem tokenized_words_are_clean (text_line : string) (line : item_line) :
  create_new_line_struct text_line = Some line ->
  Forall (fun w => clean_word w = true) (words_of line).
Proof.
  unfold create_new_line_struct, fix_comma_in_line.
  destruct (String.length (fix_comma_loop text_line) + 1 <=? MAX_ASSEMBLY_LINE_LENGTH)%nat;
    [|discriminate].
  pose proof (spaced_fix_comma_loop text_line true) as Hspaced.
  set (temp_line := fix_comma_loop text_line) in *.
  repeat match goal with
         | |- context [GET_WORD temp_line ?i] =>
             let w := fresh "w" in let j := fresh "j" in let stop := fresh "stop" in
             let Hw := fresh "Hw" in
             pose proof (GET_WORD_clean temp_line i true Hspaced) as Hw;
             destruct (GET_WORD temp_line i) as [[w j] stop]; cbn [fst] in Hw;
             destruct stop
         | |- context [if ?b then _ else _] => destruct b
         end;
    intros H; inversion H; subst; clear H;
    unfold words_of; cbn; repeat constructor; assumption.
Qed.

Lemma tokenized_words_are_clean_witness :
  Forall (fun w => clean_word w = true)
    (words_of (mk_line "mov" "@r1" "," "LEN" "" NOT_EXIST NOT_EXIST FOUR)).
Proof.
  apply (tokenized_words_are_clean ("mov @r1,LEN" ++ nl)). reflexivity.
Defined.

(* ================================================================= *)
(** ** The characters of a string directive *)

Lemma bind_run {A B : Type} (c : M A) (k : A -> M B) (m m1 : machine) (a : A) :
  c m = Some (a, m1) -> bind c k m = k a m1.
Proof. intros H. unfold bind. now rewrite H. Qed.

Lemma is_end_line_loop_plain (s tail : string) :
  plain_characters s = true -> is_end_line_loop (s ++ String QUOTE tail) = false.
Proof.
  induction s as [|c s IH]; intros Hplain; [reflexivity|].
  cbn [plain_characters] in Hplain.
  apply andb_true_iff in Hplain as [Hc Hrest]. apply andb_true_iff in Hc as [_ Hend].
  apply negb_true_iff in Hend.
  cbn [append is_end_line_loop]. rewrite Hend.
  destruct (is_blank c); [now apply IH | reflexivity].
Qed.

Lemma push_data_effect (v : Z) (m : machine) :
  0 <= DC (sfile m) < Z.of_nat (List.length (data_array (sfile m))) ->
  exists m',
    FirstPass.push_data v m = Some (tt, m')
    /\ m' = set_sfile
              (set_DC (DC (sfile m) + 1)
                 (set_data_array
                    (list_update (data_array (sfile m)) (Z.to_nat (DC (sfile m))) v)
                    (sfile m))) m.
Proof.
  intros Hroom. unfold FirstPass.push_data. munfold.
  rewrite array_write_in_bounds by assumption. state_cbn.
  eexists. split; reflexivity.
Qed.

Lemma array_read_list_update (array : list Z) (i j v : Z) :
  0 <= i < Z.of_nat (List.length array) ->
  array_read (list_update array (Z.to_nat i) v) j
  = if j =? i then Some v else array_read array j.
Proof.
  intros Hi.
  pose proof (array_write_in_bounds array i v Hi) as Hwrite.
  destruct (Z.eqb_spec j i) as [->|Hne].
  - now apply (array_read_write_same array).
  - apply (array_read_write_other array _ i j v Hwrite). lia.
Qed.

Lemma save_string_loop_stores (s : string) :
  forall (tail : string) (m : machine),
    plain_characters s = true ->
    0 <= DC (sfile m) ->
    DC (sfile m) + Z.of_nat (String.length s)
    <= Z.of_nat (List.length (data_array (sfile m))) ->
    exists m',
      FirstPass.save_string_loop (s ++ String QUOTE tail) m = Some (tt, m')
      /\ DC (sfile m') = DC (sfile m) + Z.of_nat (String.length s)
      /\ pos_in_line (sfile m') = (pos_in_line (sfile m) + String.length s)%nat
      /\ line_text (sfile m') = line_text (sfile m)
      /\ console m' = console m
      /\ error_flag (sfile m') = error_flag (sfile m)
      /\ List.length (data_array (sfile m')) = List.length (data_array (sfile m))
      /\ (forall i, 0 <= i < DC (sfile m) ->
            array_read (data_array (sfile m')) i = array_read (data_array (sfile m)) i)
      /\ (forall k : nat, (k < String.length s)%nat ->
            array_read (data_array (sfile m')) (DC (sfile m) + Z.of_nat k)
            = Some (character_word (char_at s k))).
Proof.
  induction s as [|c s IH]; intros tail m Hplain Hdc Hroom.
  - exists m. cbn [append FirstPass.save_string_loop String.length].
    assert (Hquote : char_eqb QUOTE QUOTE = true) by reflexivity.
    rewrite Hquote, andb_false_r.
    repeat split; try lia; try reflexivity.
  - pose proof (is_end_line_loop_plain (String c s) tail Hplain) as Hend.
    cbn [plain_characters] in Hplain.
    apply andb_true_iff in Hplain as [Hc Hrest]. apply andb_true_iff in Hc as [Hquote _].
    cbn [append] in Hend |- *. cbn [FirstPass.save_string_loop].
    rewrite Hend, Hquote. cbn [negb andb].
    cbn [String.length] in Hroom. rewrite Nat2Z.inj_succ in Hroom.
    destruct (push_data_effect (to_unsigned (char_to_int c)) m ltac:(lia))
      as (m1 & Hpush & Hm1).
    rewrite (bind_run _ _ _ _ _ Hpush).
    unfold bind at 1, file_set, modify.
    set (m2 := set_sfile (set_pos_in_line (S (pos_in_line (sfile m1))) (sfile m1)) m1).
    assert (Hdc2 : DC (sfile m2) = DC (sfile m) + 1) by (subst m2 m1; reflexivity).
    assert (Hdata2 : data_array (sfile m2)
                     = list_update (data_array (sfile m)) (Z.to_nat (DC (sfile m)))
                         (to_unsigned (char_to_int c)))
      by (subst m2 m1; reflexivity).
    destruct (IH tail m2 Hrest) as (m' & Hrun & Hdc' & Hpos' & Htext' & Hcon' & Herr'
                                    & Hlen' & Hold & Hnew).
    { lia. }
    { rewrite Hdc2, Hdata2, length_list_update. lia. }
    exists m'. split; [exact Hrun|].
    rewrite Hdc2 in *. rewrite Hdata2 in *. rewrite length_list_update in Hlen'.
    cbn [String.length]. rewrite Nat2Z.inj_succ.
    split; [lia|].
    split; [rewrite Hpos'; subst m2 m1; state_cbn; lia|].
    split; [rewrite Htext'; subst m2 m1; reflexivity|].
    split; [rewrite Hcon'; subst m2 m1; reflexivity|].
    split; [rewrite Herr'; subst m2 m1; reflexivity|].
    split; [exact Hlen'|].
    split.
    + intros i Hi. rewrite Hold by lia.
      rewrite array_read_list_update by lia.
      destruct (Z.eqb_spec i (DC (sfile m))); [lia | reflexivity].
    + intros [|k] Hk.
      * rewrite Z.add_0_r, Hold by lia.
        rewrite array_read_list_update by lia. now rewrite Z.eqb_refl.
      * rewrite char_at_tail, <- (Hnew k) by (cbn [String.length] in Hk; lia).
        f_equal. lia.
Qed.

Lemma string_from_add (text : string) :
  forall i j : nat, string_from (i + j) text = string_from j (string_from i text).
Proof.
  induction text as [|c text IH]; intros i j.
  - destruct i, j; reflexivity.
  - destruct i as [|i]; [reflexivity|]. cbn [Nat.add string_from]. apply IH.
Qed.

Lemma string_from_app (w rest : string) :
  string_from (String.length w) (w ++ rest) = rest.
Proof.
  induction w as [|c w IH]; [now destruct rest|]. cbn [String.length append string_from].
  exact IH.
Qed.

(** X24.  A string directive whose operand is a quoted text [s] without a
    quote, a newline or a NUL, followed by nothing but blanks, stores the
    characters of [s] and a terminating zero from [DC] on, so that [DC]
    grows by the length of [s] plus one; the words stored before are kept
    and no diagnostic is issued. *)
Theorem string_directive_stores_characters (s tail : string) (m : machine) :
  string_from (string_operand_start m) (line_text (sfile m))
  = String QUOTE (s ++ String QUOTE tail) ->
  plain_characters s = true ->
  is_end_line_loop tail = true ->
  0 <= DC (sfile m) ->
  DC (sfile m) + Z.of_nat (String.length s) < Z.of_nat (List.length (data_array (sfile m))) ->
  exists m',
    FirstPass.save_string m = Some (tt, m')
    /\ DC (sfile m') = DC (sfile m) + Z.of_nat (String.length s) + 1
    /\ (forall k : nat, (k < String.length s)%nat ->
          array_read (data_array (sfile m')) (DC (sfile m) + Z.of_nat k)
          = Some (character_word (char_at s k)))
    /\ array_read (data_array (sfile m')) (DC (sfile m) + Z.of_nat (String.length s))
       = Some 0
    /\ (forall i, 0 <= i < DC (sfile m) ->
          array_read (data_array (sfile m')) i = array_read (data_array (sfile m)) i)
    /\ console m' = console m
    /\ error_flag (sfile m') = error_flag (sfile m).
Proof.
  intros Hline Hplain Htail Hdc Hroom.
  unfold string_operand_start in Hline. cbv zeta in Hline.
  set (text := line_text (sfile m)) in *.
  set (start := skip_white_character
                  (skip_one_word_in_line (pos_in_line (sfile m)) text) text) in *.
  assert (Hopen : char_at text start = QUOTE).
  { rewrite <- (Nat.add_0_r start), <- char_at_string_from, Hline. reflexivity. }
  assert (Hbody : string_from (S start) text = (s ++ String QUOTE tail)%string).
  { rewrite <- Nat.add_1_r, string_from_add, Hline. reflexivity. }
  set (m1 := set_sfile (set_pos_in_line (S start) (sfile m)) m).
  destruct (save_string_loop_stores s tail m1 Hplain)
    as (m2 & Hloop & Hdc2 & Hpos2 & Htext2 & Hcon2 & Herr2 & Hlen2 & Hold2 & Hnew2).
  { exact Hdc. }
  { change (DC (sfile m1)) with (DC (sfile m)).
    change (data_array (sfile m1)) with (data_array (sfile m)). lia. }
  change (DC (sfile m1)) with (DC (sfile m)) in *.
  change (data_array (sfile m1)) with (data_array (sfile m)) in *.
  change (pos_in_line (sfile m1)) with (S start) in Hpos2.
  change (line_text (sfile m1)) with text in Htext2.
  change (console m1) with (console m) in Hcon2.
  change (error_flag (sfile m1)) with (error_flag (sfile m)) in Herr2.
  assert (Hclose : char_at text (pos_in_line (sfile m2)) = QUOTE).
  { rewrite Hpos2, <- char_at_string_from, Hbody. apply char_at_app_end. }
  assert (Hrest : is_end_line (S (pos_in_line (sfile m2))) text = true).
  { unfold is_end_line. rewrite Hpos2.
    replace (S (S start + String.length s))
      with (S start + (String.length s + 1))%nat by lia.
    rewrite string_from_add, Hbody, string_from_add, string_from_app. exact Htail. }
  set (m3 := set_sfile (set_pos_in_line (S (pos_in_line (sfile m2))) (sfile m2)) m2).
  destruct (push_data_effect 0 m3) as (m4 & Hpush & Hm4).
  { change (DC (sfile m3)) with (DC (sfile m2)).
    change (data_array (sfile m3)) with (data_array (sfile m2)). lia. }
  exists m4. split.
  - unfold FirstPass.save_string.
    unfold bind at 1, file_set, modify.
    unfold bind at 1.
    unfold bind at 1, file_get, gets.
    unfold bind at 1.
    cbn [sfile set_sfile line_text pos_in_line set_pos_in_line].
    fold text. fold start. rewrite Hopen.
    change (char_eqb QUOTE QUOTE) with true. cbv iota.
    unfold bind at 1. cbn [sfile set_sfile set_pos_in_line].
    rewrite Hbody.
    match goal with
    | |- bind (FirstPass.save_string_loop _) _ ?x = _ => change x with m1
    end.
    rewrite (bind_run _ _ _ _ _ Hloop).
    unfold bind at 1. rewrite Hclose.
    change (char_eqb QUOTE QUOTE) with true. cbv iota.
    unfold bind at 1. fold m3.
    rewrite (bind_run _ _ _ _ _ Hpush).
    rewrite Hrest. reflexivity.
  - assert (Hdc4 : DC (sfile m4) = DC (sfile m2) + 1) by (subst m4 m3; reflexivity).
    assert (Hdata4 : data_array (sfile m4)
                     = list_update (data_array (sfile m2)) (Z.to_nat (DC (sfile m2))) 0)
      by (subst m4 m3; reflexivity).
    rewrite Hdc4, Hdata4, Hdc2.
    split; [lia|].
    split.
    { intros k Hk. rewrite array_read_list_update by lia.
      destruct (Z.eqb_spec (DC (sfile m) + Z.of_nat k)
                  (DC (sfile m) + Z.of_nat (String.length s))); [lia|].
      now apply Hnew2. }
    split.
    { rewrite array_read_list_update by lia. now rewrite Z.eqb_refl. }
    split.
    { intros i Hi. rewrite array_read_list_update by lia.
      destruct (Z.eqb_spec i (DC (sfile m) + Z.of_nat (String.length s))); [lia|].
      now apply Hold2. }
    split; [rewrite <- Hcon2; subst m4 m3; reflexivity|].
    rewrite <- Herr2. subst m4 m3. reflexivity.
Qed.

Lemma string_directive_stores_characters_witness :
  exists m',
    FirstPass.save_string
      (machine_at (".string " ++ String QUOTE ("ab" ++ String QUOTE nl)) 0 100)
    = Some (tt, m')
    /\ DC (sfile m') = 103
    /\ array_read (data_array (sfile m')) 100 = Some 97
    /\ array_read (data_array (sfile m')) 101 = Some 98
    /\ array_read (data_array (sfile m')) 102 = Some 0
    /\ console m' = [].
Proof.
  destruct (string_directive_stores_characters "ab" nl
              (machine_at (".string " ++ String QUOTE ("ab" ++ String QUOTE nl)) 0 100))
    as (m' & Hrun & Hdc & Hnew & Hzero & _ & Hcon & _).
  - reflexivity.
  - reflexivity.
  - reflexivity.
  - vm_compute. discriminate.
  - vm_compute. reflexivity.
  - exists m'. split; [exact Hrun|]. split; [exact Hdc|].
    split; [exact (Hnew 0%nat ltac:(simpl; lia))|].
    split; [exact (Hnew 1%nat ltac:(simpl; lia))|].
    split; [exact Hzero | exact Hcon].
Defined.

(* ================================================================= *)
(** ** The names of the files *)

(** X25.  [get_file_with_extension] returns the name followed by the
    extension for the extensions of three characters, and for [".ext"]
    and [".ent"] it writes the terminating NUL one byte past the buffer
    that it has allocated, whatever the name; [file_exists] answers for
    every name of at most 255 characters, and of these names exactly
    those of 255 characters do not fit the [name_file] field into which
    [create_new_file_struct] copies them. *)
Theorem file_name_buffers (name_file : string) :
  (forall ext : FileTool.file_ext,
     FileTool.get_file_with_extension name_file ext
     = match ext with
       | FileTool.EXT_EXTERN | FileTool.EXT_ENTRY => None
       | _ => Some (name_file ++ FileTool.extension ext)%string
       end)
  /\ (forall present : string -> bool,
        FileTool.file_exists present name_file
        = Some (if (255 <? String.length name_file)%nat then FileTool.TOO_LONG
                else if present (name_file ++ ".as")%string then FileTool.EXISTS
                     else FileTool.NO_EXISTS))
  /\ (FileTool.valid_file_name name_file = true ->
      (FileTool.create_new_file_struct_name name_file = None
       <-> String.length name_file = 255%nat)).
Proof.
  assert (Hcopy : FileTool.strcpy (String.length name_file + 4) name_file = Some name_file).
  { unfold FileTool.strcpy. destruct (Nat.leb_spec (String.length name_file + 1)
                                        (String.length name_file + 4)); [reflexivity | lia]. }
  assert (Hname : forall ext : FileTool.file_ext,
             FileTool.get_file_with_extension name_file ext
             = match ext with
               | FileTool.EXT_EXTERN | FileTool.EXT_ENTRY => None
               | _ => Some (name_file ++ FileTool.extension ext)%string
               end).
  { intros ext. unfold FileTool.get_file_with_extension. cbv zeta.
    change FileTool.MAX_FILE_EXTENSION_LENGTH with 4%nat. rewrite Hcopy.
    unfold FileTool.strcat.
    destruct ext; cbn [FileTool.extension String.length];
      match goal with
      | |- context [(?a <=? ?b)%nat] => destruct (Nat.leb_spec a b)
      end; try reflexivity; lia. }
  split; [exact Hname|]. split.
  - intros present. unfold FileTool.file_exists, FileTool.valid_file_name.
    change FileTool.MAX_FILE_NAME_LENGTH with 255%nat.
    destruct (255 <? String.length name_file)%nat; [reflexivity|].
    cbn [negb]. rewrite Hname. reflexivity.
  - unfold FileTool.valid_file_name, FileTool.create_new_file_struct_name, FileTool.strcpy.
    change FileTool.MAX_FILE_NAME_LENGTH with 255%nat.
    destruct (Nat.ltb_spec 255 (String.length name_file)); [discriminate|].
    intros _.
    destruct (Nat.leb_spec (String.length name_file + 1) 255); split; intros Hx;
      try discriminate; try reflexivity; lia.
Qed.
